(** * AmbianceApp: the multi-track mixing and fade-timer engine

    A shallow embedding of the two native audio engines
    (android/.../AmbianceAudioEngineModule.java and
    ios/AmbianceAudioEngine/AmbianceAudioEngine.swift) and of the TypeScript
    bridge in front of them (src/audio/NativeAudioBridge.ts), followed by the
    properties of the engine that the design document states.

    Modelling conventions.
    - The finite values of a Java [float]/[double], a Swift [Float]/[Double]
      and a JS [number] are idealised as exact rationals [Q]: no rounding.
      Equality of computed gains is therefore [Qeq] ([==]).  The engine
      states, the histories and the bridge calls of this model carry finite
      numbers only.  What the comparisons and the clamps of the code do with
      the other values (NaN, the infinities) is written out on [number]: the
      bridge's guards, [AudioEngineUtils] and the clamp of the Android
      engine.
    - Java [long] is [Z] with the 64-bit wrap-around written out ([wrap64]).
    - [HashMap], Swift dictionaries: [gmap string _].  The loops over their
      entries touch one entry per iteration and read nothing of the others,
      so they are written as maps over the entries.
    - A native method is a function from the engine state to the new state
      and the value its promise is settled with.  [Log], [print] and
      [sendEvent] only produce output and are left out.
    - The platform is part of the state: the wall clock ([now]), the asset
      catalogue ([assets]) and the platform players themselves.  Dispatching
      to other threads/queues is modelled as running the block at once.
    - [saveScene] reads the track configuration and writes the platform's
      preference store; it does not change the engine and is modelled on its
      own ([Scenes]), as is the bridge's listener registry ([Listeners]).
      The bridge's read-only queries are left out. *)

From Stdlib Require Import QArith Qminmax Lqa ZArith Lia List HexString.
From stdpp Require Import gmap strings pretty.
Import ListNotations.
Open Scope Q_scope.

(** ** Numbers *)

Definition Qltb (x y : Q) : bool := negb (Qle_bool y x).

(** [Math.max(0.0f, Math.min(1.0f, volume))], [max(0.0, min(1.0, volume))],
    of a finite [volume] *)
Definition clampVolume (volume : Q) : Q := Qmax 0 (Qmin 1 volume).

(** [Math.max(-1.0f, Math.min(1.0f, pan))], [max(-1.0, min(1.0, pan))], of a
    finite [pan] *)
Definition clampPan (pan : Q) : Q := Qmax (-1) (Qmin 1 pan).

(** All values of a Java [float] and of a JS [number]: the finite ones, the
    two infinities and NaN. *)
Inductive number : Type :=
| Finite (q : Q)
| PosInf
| NegInf
| NaN.

Module Float.

(** [x < y]: false as soon as one side is NaN. *)
Definition ltb (x y : number) : bool :=
  match x with
  | NaN => false
  | PosInf => false
  | NegInf => match y with Finite _ | PosInf => true | NegInf | NaN => false end
  | Finite a =>
      match y with
      | Finite b => Qltb a b
      | PosInf => true
      | NegInf | NaN => false
      end
  end.

(** [x <= y]: false as soon as one side is NaN. *)
Definition leb (x y : number) : bool :=
  match x with
  | NaN => false
  | PosInf => match y with PosInf => true | _ => false end
  | NegInf => match y with NaN => false | _ => true end
  | Finite a =>
      match y with
      | Finite b => Qle_bool a b
      | PosInf => true
      | NegInf | NaN => false
      end
  end.

(** Java's [Math.max(a, b)]: NaN if either argument is NaN. *)
Definition Math_max (a b : number) : number :=
  match a with
  | NaN => NaN
  | PosInf => match b with NaN => NaN | _ => PosInf end
  | NegInf => b
  | Finite x =>
      match b with
      | Finite y => Finite (Qmax x y)
      | PosInf => PosInf
      | NegInf => a
      | NaN => NaN
      end
  end.

(** Java's [Math.min(a, b)]: NaN if either argument is NaN. *)
Definition Math_min (a b : number) : number :=
  match a with
  | NaN => NaN
  | NegInf => match b with NaN => NaN | _ => NegInf end
  | PosInf => b
  | Finite x =>
      match b with
      | Finite y => Finite (Qmin x y)
      | NegInf => NegInf
      | PosInf => a
      | NaN => NaN
      end
  end.

End Float.

Definition Long_MIN_VALUE : Z := (- 2 ^ 63)%Z.
Definition Long_MAX_VALUE : Z := (2 ^ 63 - 1)%Z.

(** Two's complement result of a [long] addition or subtraction. *)
Definition wrap64 (z : Z) : Z := ((z + 2 ^ 63) mod 2 ^ 64 - 2 ^ 63)%Z.

(** The Java narrowing conversion [(long) d] of a finite double: round
    toward zero, then saturate. *)
Definition double_to_long (d : Q) : Z :=
  Z.max Long_MIN_VALUE (Z.min Long_MAX_VALUE (Z.quot (Qnum d) (Zpos (Qden d)))).

(** ** Promises *)

Inductive Promise (A : Type) : Type :=
| Resolve (value : A)
| Reject (code : string).
Arguments Resolve {A} value.
Arguments Reject {A} code.

(** * The Android engine *)

Module Android.

(** The part of [android.media.MediaPlayer] the engine relies on.  A player
    is created by [addTrack] in state [Prepared] at position 0; [start]
    plays from the current position, [pause] keeps the position, and
    [stop(); prepare()] rewinds.  Positions are milliseconds into the clip. *)
Inductive PlayerState : Type := Prepared | Started | Paused.

Record MediaPlayer : Type := mkPlayer {
  mp_state : PlayerState;
  mp_position : Z;
  mp_duration : Z;
  mp_looping : bool;
  mp_left : Q;
  mp_right : Q
}.

Definition mp_isPlaying (p : MediaPlayer) : bool :=
  match mp_state p with Started => true | _ => false end.

Definition mp_start (p : MediaPlayer) : MediaPlayer :=
  mkPlayer Started (mp_position p) (mp_duration p) (mp_looping p) (mp_left p) (mp_right p).

Definition mp_pause (p : MediaPlayer) : MediaPlayer :=
  mkPlayer Paused (mp_position p) (mp_duration p) (mp_looping p) (mp_left p) (mp_right p).

(** [player.stop(); player.prepare();] *)
Definition mp_stop_prepare (p : MediaPlayer) : MediaPlayer :=
  mkPlayer Prepared 0 (mp_duration p) (mp_looping p) (mp_left p) (mp_right p).

Definition mp_setVolume (l r : Q) (p : MediaPlayer) : MediaPlayer :=
  mkPlayer (mp_state p) (mp_position p) (mp_duration p) (mp_looping p) l r.

(** Playing for [dt] milliseconds; a looping player wraps at the end. *)
Definition mp_advance (dt : Z) (p : MediaPlayer) : MediaPlayer :=
  if mp_isPlaying p
  then mkPlayer Started ((mp_position p + dt) mod mp_duration p)%Z (mp_duration p)
                (mp_looping p) (mp_left p) (mp_right p)
  else p.

(** [new MediaPlayer(); setDataSource; setLooping(true); prepare()] on a
    clip of length [len]; a new platform player has both gains at 1. *)
Definition mp_new (len : Z) : MediaPlayer := mkPlayer Prepared 0 len true 1 1.

Record TrackConfig : Type := mkTrack {
  tc_id : string;
  tc_name : string;
  tc_audioFile : string;
  tc_volume : Q;
  tc_pan : Q;
  tc_isPlaying : bool
}.

(** [new TrackConfig(id, name, audioFile)] with the field initialisers. *)
Definition newTrackConfig (id name audioFile : string) : TrackConfig :=
  mkTrack id name audioFile (1 # 2) 0 false.

Definition tc_with_volume (v : Q) (c : TrackConfig) : TrackConfig :=
  mkTrack (tc_id c) (tc_name c) (tc_audioFile c) v (tc_pan c) (tc_isPlaying c).
Definition tc_with_pan (p : Q) (c : TrackConfig) : TrackConfig :=
  mkTrack (tc_id c) (tc_name c) (tc_audioFile c) (tc_volume c) p (tc_isPlaying c).
Definition tc_with_isPlaying (b : bool) (c : TrackConfig) : TrackConfig :=
  mkTrack (tc_id c) (tc_name c) (tc_audioFile c) (tc_volume c) (tc_pan c) b.

Record TimerConfig : Type := mkTimer {
  tm_duration : Z;          (* milliseconds *)
  tm_fadeOut : bool;
  tm_fadeOutDuration : Z    (* milliseconds *)
}.

Record Engine : Type := mkEngine {
  players : gmap string MediaPlayer;
  trackConfigs : gmap string TrackConfig;
  isInitialized : bool;
  isPlaying : bool;
  masterVolume : Q;
  timerRunnable : bool;               (* [timerRunnable != null] *)
  timerConfig : option TimerConfig;
  timerStartTime : Z;
  (* platform *)
  now : Z;                            (* System.currentTimeMillis() *)
  assets : gmap string Z;             (* playable asset files and their length *)
  released : list string              (* players given back by release() *)
}.

Definition with_tracks (ps : gmap string MediaPlayer) (cs : gmap string TrackConfig)
    (e : Engine) : Engine :=
  mkEngine ps cs (isInitialized e) (isPlaying e) (masterVolume e) (timerRunnable e)
           (timerConfig e) (timerStartTime e) (now e) (assets e) (released e).

Definition with_isInitialized (b : bool) (e : Engine) : Engine :=
  mkEngine (players e) (trackConfigs e) b (isPlaying e) (masterVolume e) (timerRunnable e)
           (timerConfig e) (timerStartTime e) (now e) (assets e) (released e).

Definition with_isPlaying (b : bool) (e : Engine) : Engine :=
  mkEngine (players e) (trackConfigs e) (isInitialized e) b (masterVolume e) (timerRunnable e)
           (timerConfig e) (timerStartTime e) (now e) (assets e) (released e).

Definition with_timer (r : bool) (c : option TimerConfig) (t0 : Z) (e : Engine) : Engine :=
  mkEngine (players e) (trackConfigs e) (isInitialized e) (isPlaying e) (masterVolume e) r
           c t0 (now e) (assets e) (released e).

(** The module as constructed: field initialisers of the class. *)
Definition create (clock : Z) (catalogue : gmap string Z) : Engine :=
  mkEngine ∅ ∅ false false 1 false None 0 clock catalogue [].

(** *** Timer plumbing *)

Definition cancelTimer (e : Engine) : Engine := with_timer false None 0 e.

(** *** Exported methods *)

Definition initialize (e : Engine) : Engine * Promise bool :=
  (with_isInitialized true e, Resolve true).

Definition addTrack (trackId audioFile : string) (e : Engine) : Engine * Promise bool :=
  if negb (isInitialized e) then (e, Reject "ENGINE_NOT_INITIALIZED")
  else match assets e !! audioFile with
       | Some len =>
           (with_tracks (<[trackId := mp_new len]> (players e))
                        (<[trackId := newTrackConfig trackId audioFile audioFile]>
                           (trackConfigs e)) e,
            Resolve true)
       | None => (e, Reject "TRACK_ADD_FAILED")     (* IOException *)
       end.

(** [clampedVolume] of [setVolume] and [clampedPan] of [setPanning] for every
    [float] the method can be called with.  On a finite argument they are
    [clampVolume] and [clampPan]; the value is what the method stores in the
    track's configuration. *)
Definition clampedVolume (volume : number) : number :=
  Float.Math_max (Finite 0) (Float.Math_min (Finite 1) volume).

Definition clampedPan (pan : number) : number :=
  Float.Math_max (Finite (-1)) (Float.Math_min (Finite 1) pan).

Definition setVolume (trackId : string) (volume : Q) (e : Engine) : Engine * Promise bool :=
  match players e !! trackId with
  | None => (e, Reject "TRACK_NOT_FOUND")
  | Some player =>
      let clampedVolume := clampVolume volume in
      let player' := mp_setVolume (clampedVolume * masterVolume e)
                                  (clampedVolume * masterVolume e) player in
      (with_tracks (<[trackId := player']> (players e))
                   (alter (tc_with_volume clampedVolume) trackId (trackConfigs e)) e,
       Resolve true)
  end.

(** The two-branch computation of the channel volumes in [setPanning]. *)
Definition panGains (baseVolume clampedPan : Q) : Q * Q :=
  if Qltb clampedPan 0
  then (baseVolume, baseVolume * (1 + clampedPan))
  else (baseVolume * (1 - clampedPan), baseVolume).

Definition setPanning (trackId : string) (pan : Q) (e : Engine) : Engine * Promise bool :=
  match players e !! trackId with
  | None => (e, Reject "TRACK_NOT_FOUND")
  | Some player =>
      let clampedPan := clampPan pan in
      match trackConfigs e !! trackId with
      | Some config =>
          let baseVolume := tc_volume config * masterVolume e in
          let '(leftVolume, rightVolume) := panGains baseVolume clampedPan in
          (with_tracks (<[trackId := mp_setVolume leftVolume rightVolume player]> (players e))
                       (<[trackId := tc_with_pan clampedPan config]> (trackConfigs e)) e,
           Resolve true)
      | None => (e, Resolve true)
      end
  end.

(** The guard of the loop body of [play]. *)
Definition startable (config : option TrackConfig) (player : MediaPlayer) : bool :=
  match config with
  | Some c => Qltb 0 (tc_volume c) && negb (mp_isPlaying player)
  | None => false
  end.

Definition play (e : Engine) : Engine * Promise bool :=
  if negb (isInitialized e) then (e, Reject "ENGINE_NOT_INITIALIZED")
  else
    let ps := map_imap (fun trackId player =>
                Some (if startable (trackConfigs e !! trackId) player
                      then mp_start player else player)) (players e) in
    let cs := map_imap (fun trackId config =>
                Some (match players e !! trackId with
                      | Some player =>
                          if startable (Some config) player
                          then tc_with_isPlaying true config else config
                      | None => config
                      end)) (trackConfigs e) in
    (with_isPlaying true (with_tracks ps cs e), Resolve true).

Definition pause (e : Engine) : Engine * Promise bool :=
  let ps := (fun player => if mp_isPlaying player then mp_pause player else player)
              <$> players e in
  let cs := map_imap (fun trackId config =>
              Some (match players e !! trackId with
                    | Some player =>
                        if mp_isPlaying player
                        then tc_with_isPlaying false config else config
                    | None => config
                    end)) (trackConfigs e) in
  (with_isPlaying false (with_tracks ps cs e), Resolve true).

Definition stop (e : Engine) : Engine * Promise bool :=
  let ps := (fun player => if mp_isPlaying player then mp_stop_prepare player else player)
              <$> players e in
  let cs := map_imap (fun trackId config =>
              Some (match players e !! trackId with
                    | Some _ => tc_with_isPlaying false config
                    | None => config
                    end)) (trackConfigs e) in
  (with_isPlaying false (cancelTimer (with_tracks ps cs e)), Resolve true).

Definition setTimer (duration : Q) (fadeOut : bool) (fadeOutDuration : Q) (e : Engine)
    : Engine * Promise bool :=
  let e1 := cancelTimer e in
  let config := mkTimer (double_to_long (duration * 60 * 1000)) fadeOut
                        (double_to_long (fadeOutDuration * 60 * 1000)) in
  (with_timer true (Some config) (now e1) e1, Resolve true).

(** *** The tick of the timer *)

Definition elapsedTime (e : Engine) : Z := wrap64 (now e - timerStartTime e).

Definition remainingTime (config : TimerConfig) (e : Engine) : Z :=
  wrap64 (tm_duration config - elapsedTime e).

(** [targetVolume] of the fade branch. *)
Definition targetVolume (config : TimerConfig) (remaining : Z) : Q :=
  let fadeProgress := 1 - inject_Z remaining / inject_Z (tm_fadeOutDuration config) in
  1 - fadeProgress.

Definition handleTimerExpired (e : Engine) : Engine := fst (stop (cancelTimer e)).

Definition handleTimerTick (e : Engine) : Engine :=
  match timerConfig e with
  | None => e
  | Some config =>
      let remaining := remainingTime config e in
      if (remaining <=? 0)%Z then handleTimerExpired e
      else if tm_fadeOut config && (remaining <=? tm_fadeOutDuration config)%Z then
        let target := targetVolume config remaining in
        let ps := map_imap (fun trackId player =>
                    Some (match trackConfigs e !! trackId with
                          | Some config =>
                              if tc_isPlaying config
                              then let fadeVolume := tc_volume config * target * masterVolume e in
                                   mp_setVolume fadeVolume fadeVolume player
                              else player
                          | None => player
                          end)) (players e) in
        with_tracks ps (trackConfigs e) e
      else e
  end.

(** The posted runnable runs only while it is registered with the handler. *)
Definition timerFires (e : Engine) : Engine :=
  if timerRunnable e then handleTimerTick e else e.

(** [onCatalystInstanceDestroy] *)
Definition onCatalystInstanceDestroy (e : Engine) : Engine :=
  let e1 := mkEngine ∅ ∅ (isInitialized e) (isPlaying e) (masterVolume e) (timerRunnable e)
                     (timerConfig e) (timerStartTime e) (now e) (assets e)
                     (released e ++ (map_to_list (players e)).*1) in
  cancelTimer e1.

(** The platform: [dt] milliseconds go by. *)
Definition elapse (dt : Z) (e : Engine) : Engine :=
  mkEngine (mp_advance dt <$> players e) (trackConfigs e) (isInitialized e) (isPlaying e)
           (masterVolume e) (timerRunnable e) (timerConfig e) (timerStartTime e)
           (now e + dt)%Z (assets e) (released e).

(** *** Histories *)

Inductive Call : Type :=
| Initialize
| AddTrack (trackId audioFile : string)
| SetVolume (trackId : string) (volume : Q)
| SetPanning (trackId : string) (pan : Q)
| Play
| Pause
| Stop
| SetTimer (duration : Q) (fadeOut : bool) (fadeOutDuration : Q)
| TimerFires
| Elapse (dt : Z)
| Destroy.

Definition step (c : Call) (e : Engine) : Engine :=
  match c with
  | Initialize => fst (initialize e)
  | AddTrack i f => fst (addTrack i f e)
  | SetVolume i v => fst (setVolume i v e)
  | SetPanning i p => fst (setPanning i p e)
  | Play => fst (play e)
  | Pause => fst (pause e)
  | Stop => fst (stop e)
  | SetTimer d f fd => fst (setTimer d f fd e)
  | TimerFires => timerFires e
  | Elapse dt => elapse dt e
  | Destroy => onCatalystInstanceDestroy e
  end.

Definition run (calls : list Call) (e : Engine) : Engine :=
  fold_left (fun e c => step c e) calls e.

(** *** Vocabulary of the properties *)

Definition in_range (c : TrackConfig) : Prop :=
  0 <= tc_volume c <= 1 /\ -1 <= tc_pan c <= 1.

(** Every stored volume and pan lies in its domain. *)
Definition tracks_in_range (e : Engine) : Prop :=
  map_Forall (fun _ c => in_range c) (trackConfigs e).

(** No track of [n] is missing from [n']. *)
Definition keeps_tracks (n n' : Engine) : Prop :=
  forall i,
    (is_Some (players n !! i) -> is_Some (players n' !! i)) /\
    (is_Some (trackConfigs n !! i) -> is_Some (trackConfigs n' !! i)).

End Android.

(** * The iOS engine *)

Module IOS.

(** The part of [AVAudioPlayerNode] the engine relies on: the node's own
    [volume] and [pan] (1 and 0 on a new node), whether it is playing, and
    how many looping buffers are scheduled on it ([stop] drops them). *)
Record PlayerNode : Type := mkNode {
  pn_volume : Q;
  pn_pan : Q;
  pn_isPlaying : bool;
  pn_scheduled : nat
}.

Definition pn_new : PlayerNode := mkNode 1 0 false 0.

Definition pn_setVolume (v : Q) (p : PlayerNode) : PlayerNode :=
  mkNode v (pn_pan p) (pn_isPlaying p) (pn_scheduled p).
Definition pn_setPan (x : Q) (p : PlayerNode) : PlayerNode :=
  mkNode (pn_volume p) x (pn_isPlaying p) (pn_scheduled p).
Definition pn_scheduleBuffer (p : PlayerNode) : PlayerNode :=
  mkNode (pn_volume p) (pn_pan p) (pn_isPlaying p) (S (pn_scheduled p)).
Definition pn_play (p : PlayerNode) : PlayerNode :=
  mkNode (pn_volume p) (pn_pan p) true (pn_scheduled p).
Definition pn_pause (p : PlayerNode) : PlayerNode :=
  mkNode (pn_volume p) (pn_pan p) false (pn_scheduled p).
Definition pn_stop (p : PlayerNode) : PlayerNode :=
  mkNode (pn_volume p) (pn_pan p) false 0.

Record TrackConfig : Type := mkTrack {
  tc_id : string;
  tc_name : string;
  tc_audioFile : string;
  tc_volume : Q;
  tc_pan : Q;
  tc_isPlaying : bool
}.

Definition newTrackConfig (id name audioFile : string) : TrackConfig :=
  mkTrack id name audioFile (1 # 2) 0 false.

Definition tc_with_volume (v : Q) (c : TrackConfig) : TrackConfig :=
  mkTrack (tc_id c) (tc_name c) (tc_audioFile c) v (tc_pan c) (tc_isPlaying c).
Definition tc_with_pan (p : Q) (c : TrackConfig) : TrackConfig :=
  mkTrack (tc_id c) (tc_name c) (tc_audioFile c) (tc_volume c) p (tc_isPlaying c).
Definition tc_with_isPlaying (b : bool) (c : TrackConfig) : TrackConfig :=
  mkTrack (tc_id c) (tc_name c) (tc_audioFile c) (tc_volume c) (tc_pan c) b.

Record TimerConfig : Type := mkTimer {
  tm_duration : Q;          (* seconds *)
  tm_fadeOut : bool;
  tm_fadeOutDuration : Q    (* seconds *)
}.

Record Engine : Type := mkEngine {
  players : gmap string PlayerNode;
  audioFiles : gmap string string;
  trackConfigs : gmap string TrackConfig;
  isInitialized : bool;
  isPlaying : bool;
  masterVolume : Q;
  playbackTimer : bool;               (* [playbackTimer != nil] *)
  timerConfig : option TimerConfig;
  timerStartTime : option Q;
  (* platform *)
  engineRunning : bool;               (* audioEngine.isRunning *)
  outputAvailable : bool;             (* whether audioEngine.start() succeeds *)
  now : Q;                            (* Date(), in seconds *)
  bundle : gmap string bool           (* bundled resources; true: readable audio *)
}.

Definition with_tracks (ps : gmap string PlayerNode) (fs : gmap string string)
    (cs : gmap string TrackConfig) (e : Engine) : Engine :=
  mkEngine ps fs cs (isInitialized e) (isPlaying e) (masterVolume e) (playbackTimer e)
           (timerConfig e) (timerStartTime e) (engineRunning e) (outputAvailable e)
           (now e) (bundle e).

Definition with_isInitialized (b : bool) (e : Engine) : Engine :=
  mkEngine (players e) (audioFiles e) (trackConfigs e) b (isPlaying e) (masterVolume e)
           (playbackTimer e) (timerConfig e) (timerStartTime e) (engineRunning e)
           (outputAvailable e) (now e) (bundle e).

Definition with_isPlaying (b : bool) (e : Engine) : Engine :=
  mkEngine (players e) (audioFiles e) (trackConfigs e) (isInitialized e) b (masterVolume e)
           (playbackTimer e) (timerConfig e) (timerStartTime e) (engineRunning e)
           (outputAvailable e) (now e) (bundle e).

Definition with_engineRunning (b : bool) (e : Engine) : Engine :=
  mkEngine (players e) (audioFiles e) (trackConfigs e) (isInitialized e) (isPlaying e)
           (masterVolume e) (playbackTimer e) (timerConfig e) (timerStartTime e) b
           (outputAvailable e) (now e) (bundle e).

Definition with_timer (t : bool) (c : option TimerConfig) (t0 : option Q) (e : Engine)
    : Engine :=
  mkEngine (players e) (audioFiles e) (trackConfigs e) (isInitialized e) (isPlaying e)
           (masterVolume e) t c t0 (engineRunning e) (outputAvailable e) (now e) (bundle e).

Definition create (clock : Q) (output : bool) (resources : gmap string bool) : Engine :=
  mkEngine ∅ ∅ ∅ false false 1 false None None false output clock resources.

Definition cancelTimer (e : Engine) : Engine := with_timer false None None e.

Definition initialize (e : Engine) : Engine * Promise bool :=
  (with_isInitialized true e, Resolve true).

Definition addTrack (trackId audioFile : string) (e : Engine) : Engine * Promise bool :=
  if negb (isInitialized e) then (e, Reject "ENGINE_NOT_INITIALIZED")
  else match bundle e !! audioFile with
       | None => (e, Reject "AUDIO_FILE_NOT_FOUND")
       | Some false => (e, Reject "TRACK_ADD_FAILED")
       | Some true =>
           (with_tracks (<[trackId := pn_new]> (players e))
                        (<[trackId := audioFile]> (audioFiles e))
                        (<[trackId := newTrackConfig trackId audioFile audioFile]>
                           (trackConfigs e)) e,
            Resolve true)
       end.

Definition setVolume (trackId : string) (volume : Q) (e : Engine) : Engine * Promise bool :=
  match players e !! trackId with
  | None => (e, Reject "TRACK_NOT_FOUND")
  | Some player =>
      let clampedVolume := clampVolume volume in
      (with_tracks (<[trackId := pn_setVolume clampedVolume player]> (players e))
                   (audioFiles e)
                   (alter (tc_with_volume clampedVolume) trackId (trackConfigs e)) e,
       Resolve true)
  end.

Definition setPanning (trackId : string) (pan : Q) (e : Engine) : Engine * Promise bool :=
  match players e !! trackId with
  | None => (e, Reject "TRACK_NOT_FOUND")
  | Some player =>
      let clampedPan := clampPan pan in
      (with_tracks (<[trackId := pn_setPan clampedPan player]> (players e))
                   (audioFiles e)
                   (alter (tc_with_pan clampedPan) trackId (trackConfigs e)) e,
       Resolve true)
  end.

(** The [guard ... else { continue }] of the loop body of [play]. *)
Definition configured (file : option string) (config : option TrackConfig) : bool :=
  match file, config with
  | Some _, Some c => Qltb 0 (tc_volume c)
  | _, _ => false
  end.

Definition play (e : Engine) : Engine * Promise bool :=
  if negb (isInitialized e) then (e, Reject "ENGINE_NOT_INITIALIZED")
  else if negb (engineRunning e) && negb (outputAvailable e)
  then (e, Reject "PLAYBACK_FAILED")
  else
    let ps := map_imap (fun trackId player =>
                Some (if configured (audioFiles e !! trackId) (trackConfigs e !! trackId)
                      then let player := pn_scheduleBuffer player in
                           if pn_isPlaying player then player else pn_play player
                      else player)) (players e) in
    let cs := map_imap (fun trackId config =>
                Some (match players e !! trackId with
                      | Some player =>
                          if configured (audioFiles e !! trackId) (Some config)
                             && negb (pn_isPlaying player)
                          then tc_with_isPlaying true config else config
                      | None => config
                      end)) (trackConfigs e) in
    (with_isPlaying true (with_engineRunning true (with_tracks ps (audioFiles e) cs e)),
     Resolve true).

Definition pause (e : Engine) : Engine * Promise bool :=
  let ps := pn_pause <$> players e in
  let cs := map_imap (fun trackId config =>
              Some (match players e !! trackId with
                    | Some _ => tc_with_isPlaying false config
                    | None => config
                    end)) (trackConfigs e) in
  (with_isPlaying false (with_tracks ps (audioFiles e) cs e), Resolve true).

Definition stop (e : Engine) : Engine * Promise bool :=
  let ps := pn_stop <$> players e in
  let cs := map_imap (fun trackId config =>
              Some (match players e !! trackId with
                    | Some _ => tc_with_isPlaying false config
                    | None => config
                    end)) (trackConfigs e) in
  (with_isPlaying false
     (cancelTimer (with_engineRunning false (with_tracks ps (audioFiles e) cs e))),
   Resolve true).

Definition setTimer (duration : Q) (fadeOut : bool) (fadeOutDuration : Q) (e : Engine)
    : Engine * Promise bool :=
  let e1 := cancelTimer e in
  let config := mkTimer (duration * 60) fadeOut (fadeOutDuration * 60) in
  (with_timer true (Some config) (Some (now e1)) e1, Resolve true).

Definition remainingTime (config : TimerConfig) (startTime : Q) (e : Engine) : Q :=
  let elapsedTime := now e - startTime in
  tm_duration config - elapsedTime.

Definition targetVolume (config : TimerConfig) (remaining : Q) : Q :=
  let fadeProgress := 1 - remaining / tm_fadeOutDuration config in
  1 - fadeProgress.

Definition handleTimerExpired (e : Engine) : Engine := fst (stop (cancelTimer e)).

Definition handleTimerTick (e : Engine) : Engine :=
  match timerConfig e, timerStartTime e with
  | Some config, Some startTime =>
      let remaining := remainingTime config startTime e in
      if Qle_bool remaining 0 then handleTimerExpired e
      else if tm_fadeOut config && Qle_bool remaining (tm_fadeOutDuration config) then
        let target := targetVolume config remaining in
        let ps := (fun player => pn_setVolume (pn_volume player * target) player)
                    <$> players e in
        with_tracks ps (audioFiles e) (trackConfigs e) e
      else e
  | _, _ => e
  end.

(** The scheduled [Timer] fires only until it is invalidated. *)
Definition timerFires (e : Engine) : Engine :=
  if playbackTimer e then handleTimerTick e else e.

(** The platform: [dt] seconds go by. *)
Definition elapse (dt : Q) (e : Engine) : Engine :=
  mkEngine (players e) (audioFiles e) (trackConfigs e) (isInitialized e) (isPlaying e)
           (masterVolume e) (playbackTimer e) (timerConfig e) (timerStartTime e)
           (engineRunning e) (outputAvailable e) (now e + dt) (bundle e).

Inductive Call : Type :=
| Initialize
| AddTrack (trackId audioFile : string)
| SetVolume (trackId : string) (volume : Q)
| SetPanning (trackId : string) (pan : Q)
| Play
| Pause
| Stop
| SetTimer (duration : Q) (fadeOut : bool) (fadeOutDuration : Q)
| TimerFires
| Elapse (dt : Q).

Definition step (c : Call) (e : Engine) : Engine :=
  match c with
  | Initialize => fst (initialize e)
  | AddTrack i f => fst (addTrack i f e)
  | SetVolume i v => fst (setVolume i v e)
  | SetPanning i p => fst (setPanning i p e)
  | Play => fst (play e)
  | Pause => fst (pause e)
  | Stop => fst (stop e)
  | SetTimer d f fd => fst (setTimer d f fd e)
  | TimerFires => timerFires e
  | Elapse dt => elapse dt e
  end.

Definition run (calls : list Call) (e : Engine) : Engine :=
  fold_left (fun e c => step c e) calls e.

(** *** Vocabulary of the properties *)

Definition in_range (c : TrackConfig) : Prop :=
  0 <= tc_volume c <= 1 /\ -1 <= tc_pan c <= 1.

Definition tracks_in_range (e : Engine) : Prop :=
  map_Forall (fun _ c => in_range c) (trackConfigs e).

End IOS.

(** * The TypeScript bridge *)

(** [AudioTrack] and [AudioScene] of AmbianceAudioEngine.ts, with the fields
    the bridge reads or that identify the record. *)
Record AudioTrack : Type := mkAudioTrack {
  at_id : string;
  at_name : string;
  at_file : string;
  at_isPlaying : bool;
  at_volume : Q;
  at_pan : Q
}.

Record AudioScene : Type := mkScene {
  sc_id : string;
  sc_name : string;
  sc_tracks : list AudioTrack
}.

(** [NativeModules.AmbianceAudioEngine] as the bridge sees it: the methods it
    calls unconditionally, and the ones it tests for before calling
    ([if (NativeAudioEngine.removeTrack) ...]), of which a module may have
    none.  [N] is the state of the native engine. *)
Class NativeModule (N : Type) : Type := {
  nm_initialize : N -> N * Promise bool;
  nm_addTrack : string -> string -> N -> N * Promise bool;
  nm_setVolume : string -> Q -> N -> N * Promise bool;
  nm_setPanning : string -> Q -> N -> N * Promise bool;
  nm_play : N -> N * Promise bool;
  nm_pause : N -> N * Promise bool;
  nm_stop : N -> N * Promise bool;
  nm_setTimer : Q -> bool -> Q -> N -> N * Promise bool;
  nm_removeTrack : option (string -> N -> N * Promise bool);
  nm_getTracks : option (N -> N * Promise (list AudioTrack));
  nm_setMasterVolume : option (Q -> N -> N * Promise bool);
  nm_playTrack : option (string -> N -> N * Promise bool);
  nm_pauseTrack : option (string -> N -> N * Promise bool);
  nm_cancelTimer : option (N -> N * Promise bool);
  nm_loadScene : option (string -> N -> N * Promise bool)
}.

(** The [@ReactMethod]s of the Android module. *)
#[export] Instance android_module : NativeModule Android.Engine := {|
  nm_initialize := Android.initialize;
  nm_addTrack := Android.addTrack;
  nm_setVolume := Android.setVolume;
  nm_setPanning := Android.setPanning;
  nm_play := Android.play;
  nm_pause := Android.pause;
  nm_stop := Android.stop;
  nm_setTimer := Android.setTimer;
  nm_removeTrack := None;
  nm_getTracks := None;
  nm_setMasterVolume := None;
  nm_playTrack := None;
  nm_pauseTrack := None;
  nm_cancelTimer := None;
  nm_loadScene := None
|}.

(** The [RCT_EXTERN_METHOD]s of the iOS module. *)
#[export] Instance ios_module : NativeModule IOS.Engine := {|
  nm_initialize := IOS.initialize;
  nm_addTrack := IOS.addTrack;
  nm_setVolume := IOS.setVolume;
  nm_setPanning := IOS.setPanning;
  nm_play := IOS.play;
  nm_pause := IOS.pause;
  nm_stop := IOS.stop;
  nm_setTimer := IOS.setTimer;
  nm_removeTrack := None;
  nm_getTracks := None;
  nm_setMasterVolume := None;
  nm_playTrack := None;
  nm_pauseTrack := None;
  nm_cancelTimer := None;
  nm_loadScene := None
|}.

Module Bridge.

(** What [emitEvent] is called with (the [message] of an error is left out). *)
Inductive Event : Type :=
| EvError (code : string) (trackId : option string)
| EvVolumeChanged (trackId : string) (volume : Q)
| EvPanningChanged (trackId : string) (pan : Q)
| EvPlaybackStarted
| EvPlaybackPaused
| EvPlaybackStopped
| EvSceneLoaded.

(** How a piece of an [async] function ends: normally, or by a thrown
    error (the message of an [Error], or the code of a rejected native
    promise that was awaited). *)
Inductive Completion (A : Type) : Type :=
| Normal (value : A)
| Throw (error : string).
Arguments Normal {A} value.
Arguments Throw {A} error.

Section WithNative.
Context {N : Type} `{NativeModule N}.

Record State : Type := mkState {
  isInitialized : bool;
  native : N;
  emitted : list Event
}.

Definition M (A : Type) : Type := State -> State * Completion A.

Definition ret {A} (a : A) : M A := fun s => (s, Normal a).
Definition throw {A} (error : string) : M A := fun s => (s, Throw error).
Definition bind {A B} (m : M A) (k : A -> M B) : M B :=
  fun s => match m s with
           | (s', Normal a) => k a s'
           | (s', Throw error) => (s', Throw error)
           end.
Definition try_catch {A} (body : M A) (handler : string -> M A) : M A :=
  fun s => match body s with
           | (s', Normal a) => (s', Normal a)
           | (s', Throw error) => handler error s'
           end.

Notation "x <- m ;; k" := (bind m (fun x => k))
  (at level 100, m at next level, right associativity).
Notation "m ;;; k" := (bind m (fun _ => k))
  (at level 100, right associativity).

(** [await NativeAudioEngine.method(...)] *)
Definition await {A} (method : N -> N * Promise A) : M A :=
  fun s => match method (native s) with
           | (n, Resolve a) => (mkState (isInitialized s) n (emitted s), Normal a)
           | (n, Reject code) => (mkState (isInitialized s) n (emitted s), Throw code)
           end.

Definition emitEvent (ev : Event) : M unit :=
  fun s => (mkState (isInitialized s) (native s) (emitted s ++ [ev]), Normal tt).

Definition set_isInitialized (b : bool) : M unit :=
  fun s => (mkState b (native s) (emitted s), Normal tt).

Definition validateInitialized : M unit :=
  fun s => if negb (isInitialized s) then throw "ENGINE_NOT_INITIALIZED" s else ret tt s.

(** [if (volume < 0 || volume > 1) throw ...], for every JS [number] *)
Definition validateVolume (volume : number) : M unit :=
  if Float.ltb volume (Finite 0) || Float.ltb (Finite 1) volume
  then throw "INVALID_PARAMETER: Volume must be between 0 and 1"
  else ret tt.

(** [if (pan < -1 || pan > 1) throw ...], for every JS [number] *)
Definition validatePan (pan : number) : M unit :=
  if Float.ltb pan (Finite (-1)) || Float.ltb (Finite 1) pan
  then throw "INVALID_PARAMETER: Pan must be between -1 and 1"
  else ret tt.

Definition initialize : M bool :=
  try_catch
    (result <- await nm_initialize ;;
     set_isInitialized result ;;;
     ret result)
    (fun _ => emitEvent (EvError "ENGINE_NOT_INITIALIZED" None) ;;; ret false).

Definition addTrack (trackId audioFile : string) : M bool :=
  validateInitialized ;;;
  try_catch
    (await (nm_addTrack trackId audioFile))
    (fun _ => emitEvent (EvError "TRACK_NOT_FOUND" (Some trackId)) ;;; ret false).

Definition setVolume (trackId : string) (volume : Q) : M bool :=
  validateInitialized ;;;
  validateVolume (Finite volume) ;;;
  try_catch
    (result <- await (nm_setVolume trackId volume) ;;
     emitEvent (EvVolumeChanged trackId volume) ;;;
     ret result)
    (fun _ => emitEvent (EvError "TRACK_NOT_FOUND" (Some trackId)) ;;; ret false).

Definition setPanning (trackId : string) (pan : Q) : M bool :=
  validateInitialized ;;;
  validatePan (Finite pan) ;;;
  try_catch
    (result <- await (nm_setPanning trackId pan) ;;
     emitEvent (EvPanningChanged trackId pan) ;;;
     ret result)
    (fun _ => emitEvent (EvError "TRACK_NOT_FOUND" (Some trackId)) ;;; ret false).

Definition removeTrack (trackId : string) : M bool :=
  try_catch
    (match nm_removeTrack with
     | Some method => await (method trackId)
     | None => setVolume trackId 0
     end)
    (fun _ => ret false).

Definition getTracks : M (list AudioTrack) :=
  try_catch
    (match nm_getTracks with
     | Some method => await method
     | None => ret []
     end)
    (fun _ => ret []).

Definition setMasterVolume (volume : Q) : M bool :=
  validateInitialized ;;;
  validateVolume (Finite volume) ;;;
  try_catch
    (match nm_setMasterVolume with
     | Some method => await (method volume)
     | None => ret true
     end)
    (fun _ => ret false).

Definition play : M bool :=
  validateInitialized ;;;
  try_catch
    (result <- await nm_play ;;
     (if result : bool then emitEvent EvPlaybackStarted else ret tt) ;;;
     ret result)
    (fun _ => emitEvent (EvError "PLAYBACK_FAILED" None) ;;; ret false).

Definition pause : M bool :=
  validateInitialized ;;;
  try_catch
    (result <- await nm_pause ;;
     (if result : bool then emitEvent EvPlaybackPaused else ret tt) ;;;
     ret result)
    (fun _ => ret false).

Definition stop : M bool :=
  validateInitialized ;;;
  try_catch
    (result <- await nm_stop ;;
     (if result : bool then emitEvent EvPlaybackStopped else ret tt) ;;;
     ret result)
    (fun _ => ret false).

Definition playTrack (trackId : string) : M bool :=
  try_catch
    (match nm_playTrack with
     | Some method => await (method trackId)
     | None => setVolume trackId 1
     end)
    (fun _ => ret false).

Definition pauseTrack (trackId : string) : M bool :=
  try_catch
    (match nm_pauseTrack with
     | Some method => await (method trackId)
     | None => setVolume trackId 0
     end)
    (fun _ => ret false).

Definition setTimer (duration : Q) (fadeOut : bool) (fadeOutDuration : Q) : M bool :=
  validateInitialized ;;;
  try_catch
    (await (nm_setTimer duration fadeOut fadeOutDuration))
    (fun _ => ret false).

Definition cancelTimer : M bool :=
  try_catch
    (match nm_cancelTimer with
     | Some method => await method
     | None => ret true
     end)
    (fun _ => ret false).

(** [for (const track of tracks) { await body(track); }] *)
Fixpoint for_of {A} (tracks : list A) (body : A -> M unit) : M unit :=
  match tracks with
  | [] => ret tt
  | track :: rest => body track ;;; for_of rest body
  end.

Definition loadSceneFromObject (scene : AudioScene) : M bool :=
  try_catch
    (currentTracks <- getTracks ;;
     for_of currentTracks (fun track => removeTrack (at_id track) ;;; ret tt) ;;;
     for_of (sc_tracks scene) (fun track =>
       success <- addTrack (at_id track) (at_file track) ;;
       if success : bool
       then setVolume (at_id track) (at_volume track) ;;;
            setPanning (at_id track) (at_pan track) ;;;
            ret tt
       else ret tt) ;;;
     emitEvent EvSceneLoaded ;;;
     ret true)
    (fun _ => ret false).

Definition loadScene (sceneId : string + AudioScene) : M bool :=
  validateInitialized ;;;
  try_catch
    (match sceneId with
     | inl sceneId =>
         match nm_loadScene with
         | Some method =>
             result <- await (method sceneId) ;;
             (if result : bool then emitEvent EvSceneLoaded else ret tt) ;;;
             ret result
         | None => ret false
         end
     | inr scene => loadSceneFromObject scene
     end)
    (fun _ => ret false).

(** *** Vocabulary of the properties *)

(** One call of a method of the native module. *)
Inductive invoked : N -> N -> Prop :=
| invoked_initialize n : invoked n (fst (nm_initialize n))
| invoked_addTrack i f n : invoked n (fst (nm_addTrack i f n))
| invoked_setVolume i v n : invoked n (fst (nm_setVolume i v n))
| invoked_setPanning i p n : invoked n (fst (nm_setPanning i p n))
| invoked_play n : invoked n (fst (nm_play n))
| invoked_pause n : invoked n (fst (nm_pause n))
| invoked_stop n : invoked n (fst (nm_stop n))
| invoked_setTimer d f fd n : invoked n (fst (nm_setTimer d f fd n))
| invoked_removeTrack method i n :
    nm_removeTrack = Some method -> invoked n (fst (method i n))
| invoked_getTracks method n :
    nm_getTracks = Some method -> invoked n (fst (method n))
| invoked_setMasterVolume method v n :
    nm_setMasterVolume = Some method -> invoked n (fst (method v n))
| invoked_playTrack method i n :
    nm_playTrack = Some method -> invoked n (fst (method i n))
| invoked_pauseTrack method i n :
    nm_pauseTrack = Some method -> invoked n (fst (method i n))
| invoked_cancelTimer method n :
    nm_cancelTimer = Some method -> invoked n (fst (method n))
| invoked_loadScene method i n :
    nm_loadScene = Some method -> invoked n (fst (method i n)).

(** A piece of bridge code whose only effect on the native state is a
    sequence of such calls. *)
Definition calls_only {A} (m : M A) : Prop :=
  forall s, rtc invoked (native s) (native (fst (m s))).

End WithNative.

Arguments State N : clear implicits.

End Bridge.

(** * Vocabulary of the scene properties *)

Module Loading.

(** What one round of the second loop of [loadSceneFromObject] asks of the
    Android engine: [addTrack], then [setVolume], then [setPanning]. *)
Definition load_track (track : AudioTrack) (n : Android.Engine) : Android.Engine :=
  fst (Android.setPanning (at_id track) (at_pan track)
         (fst (Android.setVolume (at_id track) (at_volume track)
                 (fst (Android.addTrack (at_id track) (at_file track) n))))).

(** A scene track the engine can load as saved: its file is a playable
    asset, its volume and pan are in their domains. *)
Definition valid_track (n : Android.Engine) (track : AudioTrack) : Prop :=
  is_Some (Android.assets n !! at_file track) /\
  0 <= at_volume track <= 1 /\ -1 <= at_pan track <= 1.

(** The body of the second loop of [loadSceneFromObject]. *)
Definition load_body (track : AudioTrack) : Bridge.M (N := Android.Engine) unit :=
  Bridge.bind (Bridge.addTrack (at_id track) (at_file track)) (fun success =>
    if success : bool
    then Bridge.bind (Bridge.setVolume (at_id track) (at_volume track)) (fun _ =>
         Bridge.bind (Bridge.setPanning (at_id track) (at_pan track)) (fun _ =>
         Bridge.ret tt))
    else Bridge.ret tt).

(** The same for all the tracks of a scene, in order. *)
Definition load_tracks (tracks : list AudioTrack) (n : Android.Engine) : Android.Engine :=
  fold_left (fun n track => load_track track n) tracks n.

End Loading.

(** * Concrete engines used in the examples below *)

Module Scenario.

Definition catalogue : gmap string Z :=
  <["rain.ogg" := 60000%Z]> (<["ocean.ogg" := 45000%Z]> ∅).

Definition android0 : Android.Engine := Android.create 1700000000000 catalogue.

Definition resources : gmap string bool :=
  <["rain.ogg" := true]> (<["ocean.ogg" := true]> ∅).

Definition ios0 : IOS.Engine := IOS.create 0 true resources.

(** iOS: one track at volume 1/2, playing, a ten-second timer whose fade
    window is the whole countdown; the timer fires after 1 s and after 2 s. *)
Definition ios_first_tick : IOS.Engine :=
  IOS.run [IOS.Initialize; IOS.AddTrack "rain" "rain.ogg"; IOS.SetVolume "rain" (1 # 2);
           IOS.Play; IOS.SetTimer (1 # 6) true (1 # 6); IOS.Elapse 1; IOS.TimerFires] ios0.

Definition ios_second_tick : IOS.Engine :=
  IOS.run [IOS.Elapse 1; IOS.TimerFires] ios_first_tick.

(** Android: a playing track, a five-minute timer armed with the given fade
    window (in minutes), one minute goes by and the timer fires. *)
Definition android_armed (fadeOutDuration : Q) : Android.Engine :=
  Android.run [Android.Initialize; Android.AddTrack "rain" "rain.ogg"; Android.Play;
               Android.SetTimer 5 true fadeOutDuration; Android.Elapse 60000;
               Android.TimerFires] android0.

(** Android: a playing track is panned hard left, then its volume is set. *)
Definition android_panned : Android.Engine :=
  Android.run [Android.Initialize; Android.AddTrack "rain" "rain.ogg"; Android.Play;
               Android.SetPanning "rain" (-1)] android0.

(** Android: a track plays for five seconds and is paused. *)
Definition android_paused : Android.Engine :=
  Android.run [Android.Initialize; Android.AddTrack "rain" "rain.ogg"; Android.Play;
               Android.Elapse 5000; Android.Pause] android0.

(** Android: a track is started and then muted. *)
Definition android_muted : Android.Engine :=
  Android.run [Android.Initialize; Android.AddTrack "rain" "rain.ogg"; Android.Play;
               Android.SetVolume "rain" 0] android0.

(** The bridge in front of the Android engine, initialised, with one track;
    and the same with playback started. *)
Definition bridge0 : Bridge.State Android.Engine := Bridge.mkState false android0 [].

Definition bridge_rain : Bridge.State Android.Engine :=
  fst (Bridge.addTrack "rain" "rain.ogg" (fst (Bridge.initialize bridge0))).

Definition bridge_rain_playing : Bridge.State Android.Engine :=
  fst (Bridge.play bridge_rain).

Definition scene_ocean : AudioScene :=
  mkScene "scene_1" "Ocean" [mkAudioTrack "ocean" "Ocean" "ocean.ogg" false (3 # 10) (1 # 5)].

End Scenario.

(** * Vocabulary of the engine invariants *)

Module Invariants.

(** Android: a player and a configuration under the same id belong together:
    the [isPlaying] flag says what the player does, the player loops, and the
    configuration carries the id it is stored under. *)
Definition android_track_ok (trackId : string) (player : option Android.MediaPlayer)
    (config : option Android.TrackConfig) : Prop :=
  match player, config with
  | Some p, Some c =>
      Android.tc_isPlaying c = Android.mp_isPlaying p /\
      Android.mp_looping p = true /\
      Android.tc_id c = trackId
  | None, None => True
  | _, _ => False
  end.

Definition android_consistent (e : Android.Engine) : Prop :=
  (forall trackId,
      android_track_ok trackId (Android.players e !! trackId)
                       (Android.trackConfigs e !! trackId)) /\
  Android.timerRunnable e
  = match Android.timerConfig e with Some _ => true | None => false end.

(** The calls that hand new channel gains to a player (or replace or drop
    the player). *)
Definition android_sets_gains (c : Android.Call) : bool :=
  match c with
  | Android.AddTrack _ _ | Android.SetVolume _ _ | Android.SetPanning _ _
  | Android.TimerFires | Android.Destroy => true
  | _ => false
  end.

(** iOS: node, file and configuration under the same id belong together. *)
Definition ios_track_ok (trackId : string) (player : option IOS.PlayerNode)
    (file : option string) (config : option IOS.TrackConfig) : Prop :=
  match player, file, config with
  | Some p, Some f, Some c =>
      IOS.tc_isPlaying c = IOS.pn_isPlaying p /\
      IOS.tc_audioFile c = f /\ IOS.tc_id c = trackId
  | None, None, None => True
  | _, _, _ => False
  end.

Definition ios_consistent (e : IOS.Engine) : Prop :=
  (forall trackId,
      ios_track_ok trackId (IOS.players e !! trackId) (IOS.audioFiles e !! trackId)
                   (IOS.trackConfigs e !! trackId)) /\
  IOS.playbackTimer e
  = match IOS.timerConfig e with Some _ => true | None => false end /\
  (is_Some (IOS.timerConfig e) <-> is_Some (IOS.timerStartTime e)).

End Invariants.


(** * The rest of the bridge *)

(** ** Sequences of bridge calls *)

Module Session.

Inductive Call : Type :=
| Initialize
| AddTrack (trackId audioFile : string)
| RemoveTrack (trackId : string)
| GetTracks
| SetVolume (trackId : string) (volume : Q)
| SetPanning (trackId : string) (pan : Q)
| SetMasterVolume (volume : Q)
| Play
| Pause
| Stop
| PlayTrack (trackId : string)
| PauseTrack (trackId : string)
| SetTimer (duration : Q) (fadeOut : bool) (fadeOutDuration : Q)
| CancelTimer
| LoadScene (sceneId : string + AudioScene).

Section WithNative.
Context {N : Type} `{NativeModule N}.

(** The state after the call, whatever it resolved to or threw. *)
Definition perform (c : Call) (s : Bridge.State N) : Bridge.State N :=
  match c with
  | Initialize => fst (Bridge.initialize s)
  | AddTrack i f => fst (Bridge.addTrack i f s)
  | RemoveTrack i => fst (Bridge.removeTrack i s)
  | GetTracks => fst (Bridge.getTracks s)
  | SetVolume i v => fst (Bridge.setVolume i v s)
  | SetPanning i p => fst (Bridge.setPanning i p s)
  | SetMasterVolume v => fst (Bridge.setMasterVolume v s)
  | Play => fst (Bridge.play s)
  | Pause => fst (Bridge.pause s)
  | Stop => fst (Bridge.stop s)
  | PlayTrack i => fst (Bridge.playTrack i s)
  | PauseTrack i => fst (Bridge.pauseTrack i s)
  | SetTimer d f fd => fst (Bridge.setTimer d f fd s)
  | CancelTimer => fst (Bridge.cancelTimer s)
  | LoadScene sceneId => fst (Bridge.loadScene sceneId s)
  end.

Definition run (calls : list Call) (s : Bridge.State N) : Bridge.State N :=
  fold_left (fun s c => perform c s) calls s.

End WithNative.

End Session.

(** ** [AudioEngineUtils] and the event names (AmbianceAudioEngine.ts) *)

Module Utils.

(** [volume >= 0.0 && volume <= 1.0], for every JS [number] *)
Definition isValidVolume (volume : number) : bool :=
  Float.leb (Finite 0) volume && Float.leb volume (Finite 1).

(** [pan >= -1.0 && pan <= 1.0], for every JS [number] *)
Definition isValidPan (pan : number) : bool :=
  Float.leb (Finite (-1)) pan && Float.leb pan (Finite 1).

(** The members of the type [AudioEngineEvent]. *)
Definition AudioEngineEvent : list string :=
  ["initialized"; "trackAdded"; "trackRemoved"; "playbackStarted"; "playbackPaused";
   "playbackStopped"; "volumeChanged"; "panningChanged"; "timerExpired"; "sceneLoaded";
   "error"].

End Utils.

(** ** The listener registry of the bridge *)

Module Listeners.

(** [Map<AudioEngineEvent, Set<EventListener>>]: a listener is a function
    object, known by its identity; a JS [Set] keeps its members once each, in
    the order they were first added. *)
Abbreviation Registry := (gmap string (list nat)).

Definition set_add (listener : nat) (listeners : list nat) : list nat :=
  if decide (listener ∈ listeners) then listeners else listeners ++ [listener].

Definition set_delete (listener : nat) (listeners : list nat) : list nat :=
  filter (fun l => l <> listener) listeners.

Definition addEventListener (event : string) (listener : nat) (r : Registry) : Registry :=
  let r1 := match r !! event with
            | None => <[event := []]> r
            | Some _ => r
            end in
  alter (set_add listener) event r1.

Definition removeEventListener (event : string) (listener : nat) (r : Registry)
    : Registry :=
  match r !! event with
  | Some listeners =>
      let listeners := set_delete listener listeners in
      if (length listeners =? 0)%nat then delete event r
      else <[event := listeners]> r
  | None => r
  end.

(** [emitEvent]: the listeners that are called, in order.  Each call sits in
    its own [try], so a throwing listener does not keep the later ones from
    being called. *)
Definition emitEvent (event : string) (r : Registry) : list nat :=
  match r !! event with
  | Some listeners => listeners
  | None => []
  end.

(** [this.eventListeners.clear()] *)
Definition clear (r : Registry) : Registry := ∅.

(** The native event names that [setupEventListeners] subscribes to. *)
Definition nativeEvents : list string :=
  ["onInitialized"; "onTrackAdded"; "onPlaybackStarted"; "onPlaybackPaused";
   "onPlaybackStopped"; "onTimerExpired"; "onError"].

Definition toLowerCaseChar (c : Ascii.ascii) : Ascii.ascii :=
  let n := Ascii.nat_of_ascii c in
  if ((65 <=? n) && (n <=? 90))%nat then Ascii.ascii_of_nat (n + 32) else c.

Fixpoint toLowerCase (s : string) : string :=
  match s with
  | EmptyString => EmptyString
  | String c rest => String (toLowerCaseChar c) (toLowerCase rest)
  end.

(** [eventName.substring(2).toLowerCase()] *)
Definition forwardedName (eventName : string) : string :=
  toLowerCase (String.substring 2 (String.length eventName - 2) eventName).

(** A native event arrives: the handler installed by [setupEventListeners]
    re-emits it under the forwarded name (nothing is subscribed to other
    native events). *)
Definition onNativeEvent (eventName : string) (r : Registry) : list nat :=
  if decide (eventName ∈ nativeEvents) then emitEvent (forwardedName eventName) r
  else [].

Inductive Op : Type :=
| Add (event : string) (listener : nat)
| Remove (event : string) (listener : nat).

Definition apply (op : Op) (r : Registry) : Registry :=
  match op with
  | Add event listener => addEventListener event listener r
  | Remove event listener => removeEventListener event listener r
  end.

Definition run (ops : list Op) (r : Registry) : Registry :=
  fold_left (fun r op => apply op r) ops r.

(** No event is kept with an empty set, and no listener twice. *)
Definition well_formed (r : Registry) : Prop :=
  forall event listeners, r !! event = Some listeners -> listeners <> [] /\ NoDup listeners.

End Listeners.

(** ** [destroy] *)

(** [Platform.OS] *)
Inductive OS : Type := ios | android.

(** What the bridge asks of the platform besides the methods of the engine:
    which platform it runs on, and [NativeAudioEngine.destroy], which it
    tests for before calling; neither native module exports it. *)
Class NativeLifecycle (N : Type) : Type := {
  Platform_OS : OS;
  nm_destroy : option (N -> N * Promise unit)
}.

#[export] Instance android_lifecycle : NativeLifecycle Android.Engine :=
  {| Platform_OS := android; nm_destroy := None |}.

#[export] Instance ios_lifecycle : NativeLifecycle IOS.Engine :=
  {| Platform_OS := ios; nm_destroy := None |}.

Module Host.

Section WithNative.
Context {N : Type} `{NativeModule N} `{NativeLifecycle N}.

(** The bridge object with its listener registry.  On iOS
    [cleanupEventListeners] calls [removeAllListeners()] of React Native's
    [NativeEventEmitter] without an event type; whether that call throws is
    React Native's doing and a parameter here
    ([removeAllListeners_throws]). *)
Record State : Type := mkState {
  bridge : Bridge.State N;
  eventListeners : Listeners.Registry;
  removeAllListeners_throws : bool
}.

(** [cleanupEventListeners]: the registry it leaves, or [None] when the
    call to the emitter throws, which is before the registry is cleared. *)
Definition cleanupEventListeners (h : State) : option Listeners.Registry :=
  match Platform_OS with
  | ios =>
      if removeAllListeners_throws h then None
      else Some (Listeners.clear (eventListeners h))
  | android => Some (Listeners.clear (eventListeners h))
  end.

(** [destroy]: whatever is thrown inside the [try] is caught and logged,
    and the statements after it are skipped. *)
Definition destroy (h : State) : State :=
  let b := bridge h in
  let '(n, settled) := match nm_destroy with
                       | Some method => method (Bridge.native b)
                       | None => (Bridge.native b, Resolve tt)
                       end in
  let caught := mkState (Bridge.mkState (Bridge.isInitialized b) n (Bridge.emitted b))
                        (eventListeners h) (removeAllListeners_throws h) in
  match settled with
  | Reject _ => caught
  | Resolve _ =>
      match cleanupEventListeners h with
      | None => caught
      | Some listeners =>
          mkState (Bridge.mkState false n (Bridge.emitted b)) listeners
                  (removeAllListeners_throws h)
      end
  end.

End WithNative.

Arguments State N : clear implicits.

End Host.

(** ** [saveScene] of the Android module *)

Module Scenes.

(** The [WritableMap] that [saveScene] builds; the preference store keeps
    it (as its string form) under the scene id. *)
Record TrackData : Type := mkTrackData {
  td_audioFile : string;
  td_volume : Q;
  td_pan : Q
}.

Record SceneData : Type := mkSceneData {
  sd_id : string;
  sd_sceneName : string;
  sd_createdAt : Z;
  sd_tracks : gmap string TrackData
}.

(** [Integer.toHexString] of a non-negative [int]. *)
Definition toHexString (n : Z) : string :=
  match n with
  | Zpos p => HexString.Raw.of_pos p ""
  | _ => "0"
  end.

(** ["scene_" + System.currentTimeMillis() + "_" + Integer.toHexString(r)],
    where [r] is [(int)(Math.random() * 0x10000)], drawn by the platform. *)
Definition sceneId (clock r : Z) : string :=
  "scene_" +:+ pretty clock +:+ "_" +:+ toHexString r.

(** The loop over [trackConfigs.entrySet()]. *)
Definition tracksData (configs : gmap string Android.TrackConfig) : gmap string TrackData :=
  map_fold (fun _ config tracks =>
              if Qltb 0 (Android.tc_volume config)
              then <[Android.tc_id config :=
                       mkTrackData (Android.tc_audioFile config) (Android.tc_volume config)
                                   (Android.tc_pan config)]> tracks
              else tracks)
           ∅ configs.

Definition saveScene (sceneName : string) (r : Z) (e : Android.Engine)
    (preferences : gmap string SceneData) : gmap string SceneData * Promise string :=
  let id := sceneId (Android.now e) r in
  let sceneData := mkSceneData id sceneName (Android.now e)
                               (tracksData (Android.trackConfigs e)) in
  (<[id := sceneData]> preferences, Resolve id).

End Scenes.

(** * Properties *)

(** ** Arithmetic of the clamps and of [long] *)

Lemma Qltb_true (x y : Q) : Qltb x y = true <-> x < y.
Proof.
  unfold Qltb. rewrite negb_true_iff. split.
  - intros Hb. apply Qnot_le_lt. intros Hle.
    apply Qle_bool_iff in Hle. congruence.
  - intros Hlt. destruct (Qle_bool y x) eqn:Hb; [|reflexivity].
    apply Qle_bool_iff in Hb. lra.
Qed.

Lemma Qltb_false (x y : Q) : Qltb x y = false <-> y <= x.
Proof.
  unfold Qltb. rewrite negb_false_iff. apply Qle_bool_iff.
Qed.

Lemma clampVolume_range (volume : Q) : 0 <= clampVolume volume <= 1.
Proof.
  unfold clampVolume. split.
  - apply Q.le_max_l.
  - apply Q.max_lub; [lra | apply Q.le_min_l].
Qed.

Lemma clampPan_range (pan : Q) : -1 <= clampPan pan <= 1.
Proof.
  unfold clampPan. split.
  - apply Q.le_max_l.
  - apply Q.max_lub; [lra | apply Q.le_min_l].
Qed.

Lemma clampVolume_id (volume : Q) : 0 <= volume <= 1 -> clampVolume volume == volume.
Proof.
  intros [H0 H1]. unfold clampVolume.
  rewrite (Q.min_r 1 volume) by exact H1. apply Q.max_r. exact H0.
Qed.

Lemma clampPan_id (pan : Q) : -1 <= pan <= 1 -> clampPan pan == pan.
Proof.
  intros [H0 H1]. unfold clampPan.
  rewrite (Q.min_r 1 pan) by exact H1. apply Q.max_r. exact H0.
Qed.

Lemma wrap64_small (z : Z) :
  (Long_MIN_VALUE <= z <= Long_MAX_VALUE)%Z -> wrap64 z = z.
Proof.
  unfold Long_MIN_VALUE, Long_MAX_VALUE, wrap64. intros Hz.
  rewrite Z.mod_small by lia. lia.
Qed.

Lemma double_to_long_range (d : Q) :
  (Long_MIN_VALUE <= double_to_long d <= Long_MAX_VALUE)%Z.
Proof.
  unfold double_to_long, Long_MIN_VALUE, Long_MAX_VALUE. lia.
Qed.

(** ** The pan law *)

(** The channel gains that [setPanning] hands to the player are the pan law
    of the stored volume, the master volume and the clamped pan, and the
    clamped pan is what is stored. *)
Lemma setPanning_applies_panGains (e : Android.Engine) (trackId : string) (pan : Q)
    (player : Android.MediaPlayer) (config : Android.TrackConfig) :
  Android.players e !! trackId = Some player ->
  Android.trackConfigs e !! trackId = Some config ->
  let e' := fst (Android.setPanning trackId pan e) in
  let gains := Android.panGains (Android.tc_volume config * Android.masterVolume e)
                                (clampPan pan) in
  snd (Android.setPanning trackId pan e) = Resolve true /\
  Android.players e' !! trackId
    = Some (Android.mp_setVolume (fst gains) (snd gains) player) /\
  Android.trackConfigs e' !! trackId = Some (Android.tc_with_pan (clampPan pan) config).
Proof.
  intros Hp Hc. unfold Android.setPanning. rewrite Hp, Hc. cbn zeta.
  destruct (Android.panGains _ _) as [l r]. cbn.
  rewrite !lookup_insert_eq. auto.
Qed.

(** The scenario of the design document: rain at volume 4/5, panned half
    left, then started, plays at (4/5, 4/5 * 1/2) with its flag set. *)
Example rain_panned_half_left :
  let e := Android.run [Android.Initialize; Android.AddTrack "rain" "rain.ogg";
                        Android.SetVolume "rain" (4 # 5);
                        Android.SetPanning "rain" (- (1 # 2)); Android.Play]
                       Scenario.android0 in
  exists player c,
    Android.players e !! "rain" = Some player /\
    Android.trackConfigs e !! "rain" = Some c /\
    Android.mp_state player = Android.Started /\ Android.tc_isPlaying c = true /\
    Android.mp_left player == (4 # 5) * Android.masterVolume e /\
    Android.mp_right player == (4 # 5) * Android.masterVolume e * (1 # 2).
Proof.
  eexists _, _.
  split; [vm_compute; reflexivity|].
  split; [vm_compute; reflexivity|].
  split; [vm_compute; reflexivity|].
  split; [vm_compute; reflexivity|].
  split; vm_compute; reflexivity.
Qed.


(** ** What every history preserves *)

Module AndroidFacts.
Import Android.

Lemma android_in_range_new (id name audioFile : string) :
  in_range (newTrackConfig id name audioFile).
Proof. unfold in_range; cbn; lra. Qed.

Lemma android_in_range_isPlaying (b : bool) (c : TrackConfig) :
  in_range c -> in_range (tc_with_isPlaying b c).
Proof. unfold in_range; cbn; auto. Qed.

Lemma android_in_range_volume (v : Q) (c : TrackConfig) :
  in_range c -> in_range (tc_with_volume (clampVolume v) c).
Proof.
  unfold in_range; cbn. intros [_ Hp]. split; [apply clampVolume_range | exact Hp].
Qed.

Lemma android_in_range_pan (p : Q) (c : TrackConfig) :
  in_range c -> in_range (tc_with_pan (clampPan p) c).
Proof.
  unfold in_range; cbn. intros [Hv _]. split; [exact Hv | apply clampPan_range].
Qed.

(** A loop that only rewrites the [isPlaying] flag of some entries. *)
Lemma android_in_range_imap (g : string -> TrackConfig -> TrackConfig) (cs : gmap string TrackConfig) :
  (forall i c, in_range c -> in_range (g i c)) ->
  map_Forall (fun _ c => in_range c) cs ->
  map_Forall (fun _ c => in_range c) (map_imap (fun i c => Some (g i c)) cs).
Proof.
  intros Hg Hcs i c. rewrite map_lookup_imap.
  destruct (cs !! i) as [c0|] eqn:Hi; cbn; [|discriminate].
  intros [= <-]. apply Hg. exact (Hcs i c0 Hi).
Qed.

Lemma android_stop_in_range (e : Engine) : tracks_in_range e -> tracks_in_range (fst (stop e)).
Proof.
  intros He. unfold tracks_in_range, stop. cbn.
  apply (android_in_range_imap (fun i c => match players e !! i with
                                   | Some _ => tc_with_isPlaying false c
                                   | None => c end)); [|exact He].
  intros i c Hc. destruct (players e !! i); [apply android_in_range_isPlaying|]; exact Hc.
Qed.

Lemma android_step_in_range (c : Call) (e : Engine) :
  tracks_in_range e -> tracks_in_range (step c e).
Proof.
  intros He. destruct c; cbn [step].
  - exact He.
  - unfold addTrack. destruct (negb (isInitialized e)); [exact He|].
    destruct (assets e !! audioFile); [|exact He].
    unfold tracks_in_range; cbn. apply map_Forall_insert_2; [apply android_in_range_new | exact He].
  - unfold setVolume. destruct (players e !! trackId); [|exact He].
    unfold tracks_in_range; cbn. intros i c. rewrite lookup_alter.
    destruct (decide (trackId = i)) as [->|_]; [|apply He].
    destruct (trackConfigs e !! i) as [c0|] eqn:Hi; cbn; [|discriminate].
    intros [= <-]. apply android_in_range_volume. exact (He i c0 Hi).
  - unfold setPanning. destruct (players e !! trackId); [|exact He].
    destruct (trackConfigs e !! trackId) as [c0|] eqn:Hi; [|exact He].
    destruct (panGains _ _) as [l r].
    unfold tracks_in_range; cbn.
    apply map_Forall_insert_2; [|exact He]. apply android_in_range_pan. exact (He _ c0 Hi).
  - unfold play. destruct (negb (isInitialized e)); [exact He|].
    unfold tracks_in_range; cbn.
    apply (android_in_range_imap (fun i c => match players e !! i with
                                     | Some player =>
                                         if startable (Some c) player
                                         then tc_with_isPlaying true c else c
                                     | None => c end)); [|exact He].
    intros i c Hc. destruct (players e !! i) as [p|]; [|exact Hc].
    destruct (startable (Some c) p); [apply android_in_range_isPlaying|]; exact Hc.
  - unfold tracks_in_range, pause; cbn.
    apply (android_in_range_imap (fun i c => match players e !! i with
                                     | Some player =>
                                         if mp_isPlaying player
                                         then tc_with_isPlaying false c else c
                                     | None => c end)); [|exact He].
    intros i c Hc. destruct (players e !! i) as [p|]; [|exact Hc].
    destruct (mp_isPlaying p); [apply android_in_range_isPlaying|]; exact Hc.
  - apply android_stop_in_range, He.
  - exact He.
  - unfold timerFires. destruct (timerRunnable e); [|exact He].
    unfold handleTimerTick. destruct (timerConfig e) as [config|]; [|exact He].
    destruct (remainingTime config e <=? 0)%Z.
    + unfold handleTimerExpired. apply android_stop_in_range. exact He.
    + destruct (tm_fadeOut config && _); exact He.
  - exact He.
  - unfold tracks_in_range; cbn. apply map_Forall_empty.
Qed.

Lemma android_run_in_range (calls : list Call) (e : Engine) :
  tracks_in_range e -> tracks_in_range (run calls e).
Proof.
  revert e. induction calls as [|c calls IH]; intros e He; [exact He|].
  cbn. apply IH, android_step_in_range, He.
Qed.

Lemma android_create_in_range (clock : Z) (catalogue : gmap string Z) :
  tracks_in_range (create clock catalogue).
Proof. unfold tracks_in_range; cbn. apply map_Forall_empty. Qed.

(** Nothing assigns [masterVolume]. *)
Lemma android_step_masterVolume (c : Call) (e : Engine) :
  masterVolume (step c e) = masterVolume e.
Proof.
  destruct c; cbn;
    unfold addTrack, setVolume, setPanning, play, timerFires, handleTimerTick,
      handleTimerExpired;
    repeat case_match; reflexivity.
Qed.

Lemma android_run_masterVolume (calls : list Call) (e : Engine) :
  masterVolume (run calls e) = masterVolume e.
Proof.
  revert e. induction calls as [|c calls IH]; intros e; [reflexivity|].
  cbn. rewrite IH. apply android_step_masterVolume.
Qed.

End AndroidFacts.

Module IOSFacts.
Import IOS.








Lemma ios_step_masterVolume (c : Call) (e : Engine) :
  masterVolume (step c e) = masterVolume e.
Proof.
  destruct c; cbn;
    unfold addTrack, setVolume, setPanning, play, timerFires, handleTimerTick,
      handleTimerExpired;
    repeat case_match; reflexivity.
Qed.

Lemma ios_run_masterVolume (calls : list Call) (e : Engine) :
  masterVolume (run calls e) = masterVolume e.
Proof.
  revert e. induction calls as [|c calls IH]; intros e; [reflexivity|].
  cbn. rewrite IH. apply ios_step_masterVolume.
Qed.

End IOSFacts.

(** ** The bridge only ever calls native methods *)

Module BridgeFacts.
Import Bridge.

Section WithNative.
Context {N : Type} `{NativeModule N}.

Lemma calls_only_ret {A} (a : A) : calls_only (ret a).
Proof. intros s. constructor. Qed.

Lemma calls_only_throw {A} (error : string) : calls_only (throw (A := A) error).
Proof. intros s. constructor. Qed.

Lemma calls_only_bind {A B} (m : M A) (k : A -> M B) :
  calls_only m -> (forall a, calls_only (k a)) -> calls_only (bind m k).
Proof.
  intros Hm Hk s. unfold bind. specialize (Hm s).
  destruct (m s) as [s' [a|error]]; cbn in *; [|exact Hm].
  etransitivity; [exact Hm | apply Hk].
Qed.

Lemma calls_only_try_catch {A} (body : M A) (handler : string -> M A) :
  calls_only body -> (forall error, calls_only (handler error)) ->
  calls_only (try_catch body handler).
Proof.
  intros Hm Hk s. unfold try_catch. specialize (Hm s).
  destruct (body s) as [s' [a|error]]; cbn in *; [exact Hm|].
  etransitivity; [exact Hm | apply Hk].
Qed.

Lemma calls_only_await {A} (method : N -> N * Promise A) :
  (forall n, invoked n (fst (method n))) -> calls_only (await method).
Proof.
  intros Hm s. unfold await. specialize (Hm (native s)).
  destruct (method (native s)) as [n [a|code]]; cbn in *; apply rtc_once, Hm.
Qed.

Lemma calls_only_emitEvent (ev : Event) : calls_only (emitEvent ev).
Proof. intros s. constructor. Qed.

Lemma calls_only_set_isInitialized (b : bool) : calls_only (set_isInitialized b).
Proof. intros s. constructor. Qed.

Lemma calls_only_validateInitialized : calls_only validateInitialized.
Proof. intros s. unfold validateInitialized. destruct (negb _); constructor. Qed.

Lemma calls_only_validateVolume (v : number) : calls_only (validateVolume v).
Proof. intros s. unfold validateVolume. destruct (_ || _); constructor. Qed.

Lemma calls_only_validatePan (p : number) : calls_only (validatePan p).
Proof. intros s. unfold validatePan. destruct (_ || _); constructor. Qed.

Lemma calls_only_for_of {A} (l : list A) (body : A -> M unit) :
  (forall a, calls_only (body a)) -> calls_only (for_of l body).
Proof.
  intros Hb. induction l as [|a l IH]; cbn [for_of].
  - apply calls_only_ret.
  - apply calls_only_bind; [apply Hb | intros _; exact IH].
Qed.

Create HintDb bridge discriminated.
#[local] Hint Resolve calls_only_ret calls_only_throw calls_only_emitEvent
  calls_only_set_isInitialized calls_only_validateInitialized
  calls_only_validateVolume calls_only_validatePan : bridge.
#[local] Hint Constructors invoked : bridge.

Ltac calls_only_tac :=
  repeat first
    [ apply calls_only_bind; [|intros ?]
    | apply calls_only_try_catch; [|intros ?]
    | apply calls_only_for_of; intros ?
    | apply calls_only_await; intros ?
    | match goal with |- calls_only (if ?b then _ else _) => destruct b end
    | solve [eauto with bridge] ].

Lemma calls_only_initialize : calls_only initialize.
Proof. unfold initialize. calls_only_tac. Qed.

Lemma calls_only_addTrack i f : calls_only (addTrack i f).
Proof. unfold addTrack. calls_only_tac. Qed.

Lemma calls_only_setVolume i v : calls_only (setVolume i v).
Proof. unfold setVolume. calls_only_tac. Qed.

Lemma calls_only_setPanning i p : calls_only (setPanning i p).
Proof. unfold setPanning. calls_only_tac. Qed.

Lemma calls_only_removeTrack i : calls_only (removeTrack i).
Proof.
  unfold removeTrack. apply calls_only_try_catch; [|intros ?; apply calls_only_ret].
  destruct nm_removeTrack as [method|] eqn:E.
  - apply calls_only_await. intros n. eapply invoked_removeTrack, E.
  - apply calls_only_setVolume.
Qed.

Lemma calls_only_getTracks : calls_only getTracks.
Proof.
  unfold getTracks. apply calls_only_try_catch; [|intros ?; apply calls_only_ret].
  destruct nm_getTracks as [method|] eqn:E.
  - apply calls_only_await. intros n. eapply invoked_getTracks, E.
  - apply calls_only_ret.
Qed.

Lemma calls_only_setMasterVolume v : calls_only (setMasterVolume v).
Proof.
  unfold setMasterVolume.
  apply calls_only_bind; [apply calls_only_validateInitialized | intros _].
  apply calls_only_bind; [apply calls_only_validateVolume | intros _].
  apply calls_only_try_catch; [|intros ?; apply calls_only_ret].
  destruct nm_setMasterVolume as [method|] eqn:E.
  - apply calls_only_await. intros n. eapply invoked_setMasterVolume, E.
  - apply calls_only_ret.
Qed.

Lemma calls_only_play : calls_only play.
Proof. unfold play. calls_only_tac. Qed.

Lemma calls_only_pause : calls_only pause.
Proof. unfold pause. calls_only_tac. Qed.

Lemma calls_only_stop : calls_only stop.
Proof. unfold stop. calls_only_tac. Qed.

Lemma calls_only_setTimer d f fd : calls_only (setTimer d f fd).
Proof. unfold setTimer. calls_only_tac. Qed.

Lemma calls_only_playTrack i : calls_only (playTrack i).
Proof.
  unfold playTrack. apply calls_only_try_catch; [|intros ?; apply calls_only_ret].
  destruct nm_playTrack as [method|] eqn:E.
  - apply calls_only_await. intros n. eapply invoked_playTrack, E.
  - apply calls_only_setVolume.
Qed.

Lemma calls_only_pauseTrack i : calls_only (pauseTrack i).
Proof.
  unfold pauseTrack. apply calls_only_try_catch; [|intros ?; apply calls_only_ret].
  destruct nm_pauseTrack as [method|] eqn:E.
  - apply calls_only_await. intros n. eapply invoked_pauseTrack, E.
  - apply calls_only_setVolume.
Qed.

Lemma calls_only_cancelTimer : calls_only cancelTimer.
Proof.
  unfold cancelTimer. apply calls_only_try_catch; [|intros ?; apply calls_only_ret].
  destruct nm_cancelTimer as [method|] eqn:E.
  - apply calls_only_await. intros n. eapply invoked_cancelTimer, E.
  - apply calls_only_ret.
Qed.

Lemma calls_only_loadSceneFromObject scene : calls_only (loadSceneFromObject scene).
Proof.
  unfold loadSceneFromObject.
  apply calls_only_try_catch; [|intros ?; apply calls_only_ret].
  apply calls_only_bind; [apply calls_only_getTracks | intros currentTracks].
  apply calls_only_bind.
  { apply calls_only_for_of. intros track.
    apply calls_only_bind; [apply calls_only_removeTrack | intros _; apply calls_only_ret]. }
  intros _. apply calls_only_bind.
  { apply calls_only_for_of. intros track.
    apply calls_only_bind; [apply calls_only_addTrack | intros [|]].
    - apply calls_only_bind; [apply calls_only_setVolume | intros _].
      apply calls_only_bind; [apply calls_only_setPanning | intros _].
      apply calls_only_ret.
    - apply calls_only_ret. }
  intros _. apply calls_only_bind; [apply calls_only_emitEvent | intros _].
  apply calls_only_ret.
Qed.

Lemma calls_only_loadScene sceneId : calls_only (loadScene sceneId).
Proof.
  unfold loadScene.
  apply calls_only_bind; [apply calls_only_validateInitialized | intros _].
  apply calls_only_try_catch; [|intros ?; apply calls_only_ret].
  destruct sceneId as [sceneId|scene]; [|apply calls_only_loadSceneFromObject].
  destruct nm_loadScene as [method|] eqn:E; [|apply calls_only_ret].
  apply calls_only_bind.
  { apply calls_only_await. intros n. eapply invoked_loadScene, E. }
  intros result. apply calls_only_bind; [|intros _; apply calls_only_ret].
  destruct result; [apply calls_only_emitEvent | apply calls_only_ret].
Qed.

(** What every native method preserves, the bridge preserves. *)
Lemma calls_only_preserve {A} (P : N -> Prop) (m : M A) (s : State N) :
  (forall n n', invoked n n' -> P n -> P n') ->
  calls_only m -> P (native s) -> P (native (fst (m s))).
Proof.
  intros HP Hm. specialize (Hm s).
  induction Hm as [|n n' n'' Hi _ IH]; [auto|].
  intros Hn. apply IH. exact (HP n n' Hi Hn).
Qed.

End WithNative.

End BridgeFacts.

(** ** The fade of the timer tick *)

(** Android: inside the fade window a tick sets both channels of every track
    whose [isPlaying] flag is set to volume * masterVolume *
    remaining / fadeOutDuration, computed from the stored volume, leaves the
    other players alone and does not touch the stored configuration. *)
Lemma android_fade_tick (e : Android.Engine) (config : Android.TimerConfig) :
  Android.timerConfig e = Some config ->
  Android.tm_fadeOut config = true ->
  (0 < Android.remainingTime config e <= Android.tm_fadeOutDuration config)%Z ->
  let e' := Android.handleTimerTick e in
  let multiplier := inject_Z (Android.remainingTime config e)
                    / inject_Z (Android.tm_fadeOutDuration config) in
  Android.trackConfigs e' = Android.trackConfigs e /\
  (forall trackId player c,
      Android.players e !! trackId = Some player ->
      Android.trackConfigs e !! trackId = Some c ->
      Android.tc_isPlaying c = true ->
      exists player',
        Android.players e' !! trackId = Some player' /\
        Android.mp_left player' == Android.tc_volume c * Android.masterVolume e * multiplier /\
        Android.mp_right player' == Android.tc_volume c * Android.masterVolume e * multiplier /\
        Android.mp_state player' = Android.mp_state player) /\
  (forall trackId player c,
      Android.players e !! trackId = Some player ->
      Android.trackConfigs e !! trackId = Some c ->
      Android.tc_isPlaying c = false ->
      Android.players e' !! trackId = Some player).
Proof.
  intros Hcfg Hfade [Hpos Hwin] e' multiplier. subst e'.
  unfold Android.handleTimerTick. rewrite Hcfg. cbv zeta.
  destruct (Z.leb_spec (Android.remainingTime config e) 0) as [Hle|_]; [lia|].
  rewrite Hfade. cbn [andb].
  destruct (Z.leb_spec (Android.remainingTime config e)
                       (Android.tm_fadeOutDuration config)) as [_|Hgt]; [|lia].
  split; [reflexivity|]. split.
  - intros trackId player c Hp Hc Hplaying. cbn.
    rewrite map_lookup_imap, Hp. cbn. rewrite Hc, Hplaying.
    eexists. split; [reflexivity|]. cbn. unfold Android.targetVolume.
    fold multiplier. repeat split; ring.
  - intros trackId player c Hp Hc Hplaying. cbn.
    rewrite map_lookup_imap, Hp. cbn. rewrite Hc, Hplaying. reflexivity.
Qed.

(** iOS: inside the fade window a tick multiplies the current volume of
    every player node, playing or not, by remaining / fadeOutDuration, and
    does not touch the stored configuration. *)
Lemma ios_fade_tick (e : IOS.Engine) (config : IOS.TimerConfig) (startTime : Q) :
  IOS.timerConfig e = Some config ->
  IOS.timerStartTime e = Some startTime ->
  IOS.tm_fadeOut config = true ->
  0 < IOS.remainingTime config startTime e <= IOS.tm_fadeOutDuration config ->
  let e' := IOS.handleTimerTick e in
  let multiplier := IOS.remainingTime config startTime e / IOS.tm_fadeOutDuration config in
  IOS.trackConfigs e' = IOS.trackConfigs e /\
  (forall trackId player,
      IOS.players e !! trackId = Some player ->
      exists player',
        IOS.players e' !! trackId = Some player' /\
        IOS.pn_volume player' == IOS.pn_volume player * multiplier /\
        IOS.pn_pan player' = IOS.pn_pan player /\
        IOS.pn_isPlaying player' = IOS.pn_isPlaying player).
Proof.
  intros Hcfg Hstart Hfade [Hpos Hwin] e' multiplier. subst e'.
  unfold IOS.handleTimerTick. rewrite Hcfg, Hstart. cbv zeta.
  destruct (Qle_bool (IOS.remainingTime config startTime e) 0) eqn:E.
  { apply Qle_bool_iff in E. lra. }
  rewrite Hfade. cbn [andb].
  apply Qle_bool_iff in Hwin. rewrite Hwin.
  split; [reflexivity|].
  intros trackId player Hp. cbn. rewrite lookup_fmap, Hp. cbn.
  eexists. split; [reflexivity|]. cbn. unfold IOS.targetVolume.
  fold multiplier. repeat split. ring.
Qed.

(** C1. On iOS the tick scales the node's current volume, which the previous
    tick has already scaled: with a stored volume of 1/2 and a ten-second fade
    window, the tick at remaining = 9 s gives 1/2 * 9/10 = 9/20, and the tick
    at remaining = 8 s gives 9/20 * 8/10 = 9/25 instead of 1/2 * 8/10 = 2/5.
    The stored volume stays 1/2 throughout. *)
Theorem ios_fade_compounds :
  exists config c p1 p2,
    IOS.timerConfig Scenario.ios_first_tick = Some config /\
    IOS.timerConfig Scenario.ios_second_tick = Some config /\
    IOS.tm_fadeOut config = true /\ IOS.tm_fadeOutDuration config == 10 /\
    IOS.remainingTime config 0 Scenario.ios_first_tick == 9 /\
    IOS.remainingTime config 0 Scenario.ios_second_tick == 8 /\
    IOS.trackConfigs Scenario.ios_second_tick !! "rain" = Some c /\
    IOS.tc_volume c == 1 # 2 /\ IOS.tc_isPlaying c = true /\
    IOS.players Scenario.ios_first_tick !! "rain" = Some p1 /\
    IOS.pn_volume p1 == 9 # 20 /\
    IOS.players Scenario.ios_second_tick !! "rain" = Some p2 /\
    IOS.pn_volume p2 == 9 # 25 /\
    ~ IOS.pn_volume p2
      == IOS.tc_volume c * IOS.masterVolume Scenario.ios_second_tick * (8 / 10).
Proof.
  eexists _, _, _, _.
  split; [vm_compute; reflexivity|].
  do 12 (split; [vm_compute; reflexivity|]).
  vm_compute. discriminate.
Qed.

(** ** The pan under a fade *)

(** C6 (what the code does).  On Android [setPanning] follows the pan law
    at a fade multiplier of 1, with base = volume * masterVolume: for the
    clamped pan p the player gets (base, base * (1 + p)) when p < 0 and
    (base * (1 - p), base) when p >= 0, so (base, 0) at -1, (0, base) at 1
    and (base, base) at 0, both gains in [0,1], and p is stored.  A fade
    does not: the tick of the timer hands base * fadeMultiplier to both
    channels of a playing track, whatever the stored pan, so that for a
    track panned to the left the right channel, and for a track panned to
    the right the left channel, is above the pan law of
    base * fadeMultiplier. *)
Theorem android_fade_tick_drops_the_pan (e : Android.Engine) (trackId : string) (pan : Q)
    (player : Android.MediaPlayer) (c : Android.TrackConfig)
    (config : Android.TimerConfig) :
  Android.players e !! trackId = Some player ->
  Android.trackConfigs e !! trackId = Some c ->
  Android.tc_isPlaying c = true ->
  0 <= Android.tc_volume c <= 1 -> 0 <= Android.masterVolume e <= 1 ->
  Android.timerConfig e = Some config ->
  Android.tm_fadeOut config = true ->
  (0 < Android.remainingTime config e <= Android.tm_fadeOutDuration config)%Z ->
  let p := clampPan pan in
  let base := Android.tc_volume c * Android.masterVolume e in
  let fadeMultiplier := inject_Z (Android.remainingTime config e)
                        / inject_Z (Android.tm_fadeOutDuration config) in
  let e1 := fst (Android.setPanning trackId pan e) in
  let e2 := Android.handleTimerTick e1 in
  (exists player1 c1,
      Android.players e1 !! trackId = Some player1 /\
      Android.trackConfigs e1 !! trackId = Some c1 /\
      Android.tc_pan c1 = p /\ Android.tc_volume c1 = Android.tc_volume c /\
      (p < 0 -> Android.mp_left player1 == base /\
                Android.mp_right player1 == base * (1 + p)) /\
      (0 <= p -> Android.mp_left player1 == base * (1 - p) /\
                 Android.mp_right player1 == base) /\
      (p == -1 -> Android.mp_left player1 == base /\ Android.mp_right player1 == 0) /\
      (p == 1 -> Android.mp_left player1 == 0 /\ Android.mp_right player1 == base) /\
      (p == 0 -> Android.mp_left player1 == base /\ Android.mp_right player1 == base) /\
      0 <= Android.mp_left player1 <= 1 /\ 0 <= Android.mp_right player1 <= 1) /\
  (exists player2 c2,
      Android.players e2 !! trackId = Some player2 /\
      Android.trackConfigs e2 !! trackId = Some c2 /\
      Android.tc_pan c2 = p /\ Android.tc_volume c2 = Android.tc_volume c /\
      0 < fadeMultiplier <= 1 /\
      Android.mp_left player2 == base * fadeMultiplier /\
      Android.mp_right player2 == base * fadeMultiplier /\
      (p < 0 -> 0 < base ->
         ~ Android.mp_right player2 == base * fadeMultiplier * (1 + p)) /\
      (0 < p -> 0 < base ->
         ~ Android.mp_left player2 == base * fadeMultiplier * (1 - p))).
Proof.
  intros Hp Hc Hplaying Hv Hm Hcfg Hfade Hwin p base fadeMultiplier e1 e2.
  destruct (setPanning_applies_panGains e trackId pan player c Hp Hc)
    as (_ & Hp1 & Hc1).
  fold e1 p in Hp1, Hc1. cbv zeta in Hp1. fold base p in Hp1.
  assert (Hrange : -1 <= p <= 1) by apply clampPan_range.
  assert (Hb : 0 <= base <= 1) by (unfold base; nra).
  assert (Hgains :
    let gains := Android.panGains base p in
    (p < 0 -> fst gains == base /\ snd gains == base * (1 + p)) /\
    (0 <= p -> fst gains == base * (1 - p) /\ snd gains == base) /\
    0 <= fst gains <= 1 /\ 0 <= snd gains <= 1).
  { clearbody base p. unfold Android.panGains.
    destruct (Qltb p 0) eqn:E; cbn.
    - apply Qltb_true in E. repeat split; try (intros; nra).
    - apply Qltb_false in E. repeat split; try (intros; nra). }
  cbv zeta in Hgains. destruct Hgains as (Hneg & Hnonneg & Hl & Hr).
  split.
  - eexists _, _. split; [exact Hp1|]. split; [exact Hc1|]. cbn.
    split; [reflexivity|]. split; [reflexivity|].
    split; [exact Hneg|]. split; [exact Hnonneg|].
    clearbody base p.
    split; [|split; [|split; [|split; [exact Hl | exact Hr]]]].
    + intros Hleft. destruct Hneg as [Hl1 Hr1]; [lra|].
      split; [exact Hl1 | rewrite Hr1; nra].
    + intros Hright. destruct Hnonneg as [Hl1 Hr1]; [lra|].
      split; [rewrite Hl1; nra | exact Hr1].
    + intros Hcentre. destruct Hnonneg as [Hl1 Hr1]; [lra|].
      split; [rewrite Hl1; nra | exact Hr1].
  - assert (Hcfg1 : Android.timerConfig e1 = Some config).
    { subst e1. unfold Android.setPanning. rewrite Hp, Hc. cbv zeta.
      destruct (Android.panGains _ _). exact Hcfg. }
    assert (Hrem : Android.remainingTime config e1 = Android.remainingTime config e).
    { subst e1. unfold Android.setPanning. rewrite Hp, Hc. cbv zeta.
      destruct (Android.panGains _ _). reflexivity. }
    assert (Hmaster : Android.masterVolume e1 = Android.masterVolume e).
    { subst e1. unfold Android.setPanning. rewrite Hp, Hc. cbv zeta.
      destruct (Android.panGains _ _). reflexivity. }
    assert (Hwin1 : (0 < Android.remainingTime config e1
                     <= Android.tm_fadeOutDuration config)%Z) by (rewrite Hrem; exact Hwin).
    destruct (android_fade_tick e1 config Hcfg1 Hfade Hwin1) as (Hcs & Hflagged & _).
    fold e2 in Hcs, Hflagged. cbv zeta in Hflagged.
    destruct (Hflagged trackId _ _ Hp1 Hc1 Hplaying) as (player2 & Hp2 & Hl2 & Hr2 & _).
    rewrite Hrem, Hmaster in Hl2, Hr2. cbn in Hl2, Hr2.
    fold base fadeMultiplier in Hl2, Hr2.
    assert (Hf : 0 < fadeMultiplier <= 1).
    { subst fadeMultiplier. destruct Hwin as [Hpos Hle].
      set (r := Android.remainingTime config e) in *.
      set (d := Android.tm_fadeOutDuration config) in *.
      assert (Hd : inject_Z 0 < inject_Z d) by (rewrite <- Zlt_Qlt; lia).
      change (inject_Z 0) with 0 in Hd.
      assert (Hr0 : inject_Z 0 < inject_Z r) by (rewrite <- Zlt_Qlt; lia).
      change (inject_Z 0) with 0 in Hr0.
      assert (Hrd : inject_Z r <= inject_Z d) by (rewrite <- Zle_Qle; lia).
      assert (Hk : 0 < / inject_Z d) by (apply Qinv_lt_0_compat, Hd).
      assert (Hdk : inject_Z d * / inject_Z d == 1) by (apply Qmult_inv_r; lra).
      unfold Qdiv. set (k := / inject_Z d) in *. split; nra. }
    exists player2, (Android.tc_with_pan p c).
    split; [exact Hp2|]. split; [rewrite Hcs; exact Hc1|]. cbn.
    split; [reflexivity|]. split; [reflexivity|]. split; [exact Hf|].
    split; [exact Hl2|]. split; [exact Hr2|].
    clearbody base fadeMultiplier p. split.
    + intros Hneg' Hbase Heq. rewrite Hr2 in Heq.
      assert (Hbf : 0 < base * fadeMultiplier) by nra.
      set (bf := base * fadeMultiplier) in *. nra.
    + intros Hpos' Hbase Heq. rewrite Hl2 in Heq.
      assert (Hbf : 0 < base * fadeMultiplier) by nra.
      set (bf := base * fadeMultiplier) in *. nra.
Qed.

(** A track at volume 1/2 panned hard left, four of ten minutes of fade
    remaining: [setPanning] gives (1/2, 0), the next tick (1/5, 1/5), where
    the pan law gives (1/5, 0). *)
Lemma android_fade_tick_drops_the_pan_witness :
  let e := Android.run [Android.Initialize; Android.AddTrack "rain" "rain.ogg";
                        Android.Play; Android.SetTimer 5 true 10; Android.Elapse 60000]
                       Scenario.android0 in
  exists player1 player2,
    Android.players (fst (Android.setPanning "rain" (-1) e)) !! "rain" = Some player1 /\
    Android.mp_left player1 == 1 # 2 /\ Android.mp_right player1 == 0 /\
    Android.players (Android.handleTimerTick (fst (Android.setPanning "rain" (-1) e)))
      !! "rain" = Some player2 /\
    Android.mp_left player2 == 1 # 5 /\ Android.mp_right player2 == 1 # 5 /\
    ~ Android.mp_right player2 == 0.
Proof.
  intros e.
  destruct (android_fade_tick_drops_the_pan e "rain" (-1)
              (Android.mp_start (Android.mp_new 60000))
              (Android.tc_with_isPlaying true
                 (Android.newTrackConfig "rain" "rain.ogg" "rain.ogg"))
              (Android.mkTimer 300000 true 600000))
    as ((player1 & c1 & Hp1 & _ & _ & _ & _ & _ & Hleft & _) &
        (player2 & c2 & Hp2 & _ & _ & _ & _ & Hl2 & Hr2 & _)).
  - vm_compute. reflexivity.
  - vm_compute. reflexivity.
  - reflexivity.
  - vm_compute. split; discriminate.
  - vm_compute. split; discriminate.
  - vm_compute. reflexivity.
  - reflexivity.
  - vm_compute. split; [reflexivity | discriminate].
  - destruct Hleft as [Hl1 Hr1]; [vm_compute; reflexivity|].
    exists player1, player2.
    split; [exact Hp1|].
    split; [rewrite Hl1; vm_compute; reflexivity|].
    split; [rewrite Hr1; reflexivity|].
    split; [exact Hp2|].
    split; [rewrite Hl2; vm_compute; reflexivity|].
    split; [rewrite Hr2; vm_compute; reflexivity|].
    rewrite Hr2. vm_compute. discriminate.
Defined.

(** ** Arming the timer *)

(** X1. The remaining time is computed from the start time that [setTimer]
    recorded: [dt] milliseconds after arming it is the armed duration minus
    [dt] (for clock values and differences that fit a [long]). *)
Lemma android_remainingTime_after_arming (e : Android.Engine) (duration : Q)
    (fadeOut : bool) (fadeOutDuration : Q) (dt : Z) :
  (0 <= Android.now e)%Z -> (0 <= dt)%Z ->
  (Android.now e + dt <= Long_MAX_VALUE)%Z ->
  (Long_MIN_VALUE <= double_to_long (duration * 60 * 1000) - dt)%Z ->
  let e' := Android.elapse dt (fst (Android.setTimer duration fadeOut fadeOutDuration e)) in
  exists config,
    Android.timerConfig e' = Some config /\
    Android.tm_duration config = double_to_long (duration * 60 * 1000) /\
    Android.remainingTime config e' = (double_to_long (duration * 60 * 1000) - dt)%Z.
Proof.
  intros Hnow Hdt Hmax Hmin. cbn. eexists. split; [reflexivity|]. split; [reflexivity|].
  unfold Android.remainingTime, Android.elapsedTime. cbn.
  pose proof (double_to_long_range (duration * 60 * 1000)) as [Hlo Hhi].
  unfold Long_MIN_VALUE, Long_MAX_VALUE in *.
  replace (Android.now e + dt - Android.now e)%Z with dt by lia.
  rewrite (wrap64_small dt) by (unfold Long_MIN_VALUE, Long_MAX_VALUE; lia).
  apply wrap64_small. unfold Long_MIN_VALUE, Long_MAX_VALUE. lia.
Qed.

(** Arming {5 min, fade 10 min} against {5 min, fade 5 min}: the stored fade
    windows differ, and at the tick with four minutes remaining the playing
    track (volume 1/2) is at 1/2 * 4/10 = 1/5 in the first case and at
    1/2 * 4/5 = 2/5 in the second. *)
Lemma setTimer_does_not_clamp :
  exists ca cb pa pb,
    Android.timerConfig (Scenario.android_armed 10) = Some ca /\
    Android.timerConfig (Scenario.android_armed 5) = Some cb /\
    Android.tm_duration ca = 300000%Z /\ Android.tm_duration cb = 300000%Z /\
    Android.tm_fadeOutDuration ca = 600000%Z /\
    Android.tm_fadeOutDuration cb = 300000%Z /\
    Android.players (Scenario.android_armed 10) !! "rain" = Some pa /\
    Android.players (Scenario.android_armed 5) !! "rain" = Some pb /\
    Android.mp_left pa == 1 # 5 /\ Android.mp_left pb == 2 # 5 /\
    ~ Android.mp_left pa == Android.mp_left pb.
Proof.
  eexists _, _, _, _.
  split; [vm_compute; reflexivity|].
  repeat (split; [vm_compute; reflexivity|]).
  vm_compute. discriminate.
Qed.

(** C2 (as the code has it).  [setTimer] arms the timer with the fade window
    exactly as supplied, converted to the platform's unit and not clamped to
    the total duration; and when the stored fade window is at least the
    total duration, every tick of the countdown with a positive remaining time
    fades each playing track by remaining / fadeOutDuration, the window as
    supplied. *)
Theorem setTimer_stores_fade_window_unclamped :
  (forall (e : Android.Engine) (duration : Q) (fadeOut : bool) (fadeOutDuration : Q),
      let e' := fst (Android.setTimer duration fadeOut fadeOutDuration e) in
      snd (Android.setTimer duration fadeOut fadeOutDuration e) = Resolve true /\
      Android.timerRunnable e' = true /\
      Android.timerStartTime e' = Android.now e /\
      Android.timerConfig e'
        = Some (Android.mkTimer (double_to_long (duration * 60 * 1000)) fadeOut
                                (double_to_long (fadeOutDuration * 60 * 1000)))) /\
  (forall (e : IOS.Engine) (duration : Q) (fadeOut : bool) (fadeOutDuration : Q),
      let e' := fst (IOS.setTimer duration fadeOut fadeOutDuration e) in
      snd (IOS.setTimer duration fadeOut fadeOutDuration e) = Resolve true /\
      IOS.playbackTimer e' = true /\
      IOS.timerStartTime e' = Some (IOS.now e) /\
      IOS.timerConfig e'
        = Some (IOS.mkTimer (duration * 60) fadeOut (fadeOutDuration * 60))) /\
  (forall (e : Android.Engine) (config : Android.TimerConfig),
      Android.timerConfig e = Some config ->
      Android.tm_fadeOut config = true ->
      (Android.tm_duration config <= Android.tm_fadeOutDuration config)%Z ->
      (0 < Android.remainingTime config e <= Android.tm_duration config)%Z ->
      forall trackId player c,
        Android.players e !! trackId = Some player ->
        Android.trackConfigs e !! trackId = Some c ->
        Android.tc_isPlaying c = true ->
        exists player',
          Android.players (Android.handleTimerTick e) !! trackId = Some player' /\
          Android.mp_left player'
            == Android.tc_volume c * Android.masterVolume e
               * (inject_Z (Android.remainingTime config e)
                  / inject_Z (Android.tm_fadeOutDuration config))).
Proof.
  split; [|split].
  - intros e duration fadeOut fadeOutDuration. cbn. auto.
  - intros e duration fadeOut fadeOutDuration. cbn. auto.
  - intros e config Hcfg Hfade Hlong Hrem trackId player c Hp Hc Hplaying.
    destruct (android_fade_tick e config Hcfg Hfade) as (_ & Hon & _); [lia|].
    destruct (Hon trackId player c Hp Hc Hplaying) as (player' & Hp' & Hl & _).
    exists player'. split; [exact Hp' | exact Hl].
Qed.

(** A timer armed for 5 minutes with a 10-minute fade window: with four
    minutes remaining the playing track is at 1/2 * 1 * 240000 / 600000. *)
Lemma setTimer_stores_fade_window_unclamped_witness :
  exists player',
    Android.players (Android.handleTimerTick
      (Android.run [Android.Initialize; Android.AddTrack "rain" "rain.ogg"; Android.Play;
                    Android.SetTimer 5 true 10; Android.Elapse 60000] Scenario.android0))
      !! "rain" = Some player' /\
    Android.mp_left player' == (1 # 2) * 1 * (inject_Z 240000 / inject_Z 600000).
Proof.
  destruct setTimer_stores_fade_window_unclamped as (_ & _ & Htick).
  exact (Htick
    (Android.run [Android.Initialize; Android.AddTrack "rain" "rain.ogg"; Android.Play;
                  Android.SetTimer 5 true 10; Android.Elapse 60000] Scenario.android0)
    (Android.mkTimer 300000 true 600000) eq_refl eq_refl
    ltac:(vm_compute; discriminate)
    ltac:(vm_compute; split; [reflexivity | discriminate])
    "rain"
    (Android.mkPlayer Android.Started 0 60000 true 1 1)
    (Android.mkTrack "rain" "rain.ogg" "rain.ogg" (1 # 2) 0 true)
    eq_refl eq_refl eq_refl).
Defined.

(** ** Setting the volume of a track *)

(** What the Android [setVolume] does to a track that is present: it resolves
    to [true], stores the clamped volume, hands clamped volume * masterVolume
    to both channels of the player, and touches nothing else. *)
Lemma android_setVolume_present (e : Android.Engine) (trackId : string) (volume : Q)
    (player : Android.MediaPlayer) :
  Android.players e !! trackId = Some player ->
  let e' := fst (Android.setVolume trackId volume e) in
  let gain := clampVolume volume * Android.masterVolume e in
  snd (Android.setVolume trackId volume e) = Resolve true /\
  Android.players e' !! trackId = Some (Android.mp_setVolume gain gain player) /\
  Android.trackConfigs e' !! trackId
    = Android.tc_with_volume (clampVolume volume) <$> Android.trackConfigs e !! trackId /\
  (forall other, other <> trackId ->
      Android.players e' !! other = Android.players e !! other /\
      Android.trackConfigs e' !! other = Android.trackConfigs e !! other) /\
  Android.released e' = Android.released e /\
  Android.isPlaying e' = Android.isPlaying e /\
  Android.timerConfig e' = Android.timerConfig e.
Proof.
  intros Hp. unfold Android.setVolume. rewrite Hp. cbn.
  rewrite lookup_insert_eq, lookup_alter, decide_True by reflexivity.
  repeat split; try reflexivity.
  - rewrite lookup_insert_ne by congruence. reflexivity.
  - rewrite lookup_alter, decide_False by congruence. reflexivity.
Qed.

Lemma android_setVolume_absent (e : Android.Engine) (trackId : string) (volume : Q) :
  Android.players e !! trackId = None ->
  Android.setVolume trackId volume e = (e, Reject "TRACK_NOT_FOUND").
Proof. intros Hp. unfold Android.setVolume. rewrite Hp. reflexivity. Qed.

(** C7. On Android, [setVolume] on a playing track that is panned hard left
    sets both channels to the new volume: after [setPanning(rain, -1)] the
    player is at (1/2, 0); after [setVolume(rain, 4/5)] it is at (4/5, 4/5)
    while the stored pan is still -1, for which the pan law gives (4/5, 0). *)
Theorem android_setVolume_ignores_pan :
  let e := fst (Android.setVolume "rain" (4 # 5) Scenario.android_panned) in
  exists p0 p c,
    Android.players Scenario.android_panned !! "rain" = Some p0 /\
    Android.mp_state p0 = Android.Started /\
    Android.mp_left p0 == 1 # 2 /\ Android.mp_right p0 == 0 /\
    Android.players e !! "rain" = Some p /\
    Android.trackConfigs e !! "rain" = Some c /\
    Android.tc_isPlaying c = true /\
    Android.tc_volume c == 4 # 5 /\ Android.tc_pan c == -1 /\
    Android.mp_left p == 4 # 5 /\ Android.mp_right p == 4 # 5 /\
    snd (Android.panGains (Android.tc_volume c * Android.masterVolume e)
                          (Android.tc_pan c)) == 0 /\
    ~ Android.mp_right p
      == snd (Android.panGains (Android.tc_volume c * Android.masterVolume e)
                               (Android.tc_pan c)).
Proof.
  eexists _, _, _.
  split; [vm_compute; reflexivity|].
  repeat (split; [vm_compute; reflexivity|]).
  vm_compute. discriminate.
Qed.

(** ** Stopping *)

Lemma android_stop_effects (e : Android.Engine) :
  let e' := fst (Android.stop e) in
  snd (Android.stop e) = Resolve true /\
  Android.isPlaying e' = false /\
  Android.timerConfig e' = None /\ Android.timerRunnable e' = false /\
  (forall trackId player,
      Android.players e !! trackId = Some player ->
      Android.players e' !! trackId
        = Some (if Android.mp_isPlaying player
                then Android.mp_stop_prepare player else player)) /\
  (forall trackId player, Android.players e' !! trackId = Some player ->
      Android.mp_isPlaying player = false) /\
  (forall trackId player c,
      Android.players e !! trackId = Some player ->
      Android.trackConfigs e !! trackId = Some c ->
      Android.trackConfigs e' !! trackId = Some (Android.tc_with_isPlaying false c)).
Proof.
  cbn. repeat split.
  - intros trackId player Hp. rewrite lookup_fmap, Hp. reflexivity.
  - intros trackId player. rewrite lookup_fmap.
    destruct (Android.players e !! trackId) as [p|]; cbn; [|discriminate].
    intros [= <-]. destruct (Android.mp_isPlaying p) eqn:E; [reflexivity | exact E].
  - intros trackId player c Hp Hc. rewrite map_lookup_imap, Hc. cbn.
    rewrite Hp. reflexivity.
Qed.

(** Two engines with the same fields are the same engine. *)
Lemma android_engine_eq (e e' : Android.Engine) :
  Android.players e = Android.players e' ->
  Android.trackConfigs e = Android.trackConfigs e' ->
  Android.isInitialized e = Android.isInitialized e' ->
  Android.isPlaying e = Android.isPlaying e' ->
  Android.masterVolume e = Android.masterVolume e' ->
  Android.timerRunnable e = Android.timerRunnable e' ->
  Android.timerConfig e = Android.timerConfig e' ->
  Android.timerStartTime e = Android.timerStartTime e' ->
  Android.now e = Android.now e' ->
  Android.assets e = Android.assets e' ->
  Android.released e = Android.released e' ->
  e = e'.
Proof. destruct e, e'; cbn; intros; subst; reflexivity. Qed.

Lemma ios_engine_eq (e e' : IOS.Engine) :
  IOS.players e = IOS.players e' ->
  IOS.audioFiles e = IOS.audioFiles e' ->
  IOS.trackConfigs e = IOS.trackConfigs e' ->
  IOS.isInitialized e = IOS.isInitialized e' ->
  IOS.isPlaying e = IOS.isPlaying e' ->
  IOS.masterVolume e = IOS.masterVolume e' ->
  IOS.playbackTimer e = IOS.playbackTimer e' ->
  IOS.timerConfig e = IOS.timerConfig e' ->
  IOS.timerStartTime e = IOS.timerStartTime e' ->
  IOS.engineRunning e = IOS.engineRunning e' ->
  IOS.outputAvailable e = IOS.outputAvailable e' ->
  IOS.now e = IOS.now e' ->
  IOS.bundle e = IOS.bundle e' ->
  e = e'.
Proof. destruct e, e'; cbn; intros; subst; reflexivity. Qed.

(** [stop] twice is [stop] once, on both platforms. *)
Lemma android_stop_idempotent (e : Android.Engine) :
  Android.stop (fst (Android.stop e)) = Android.stop e.
Proof.
  apply (f_equal2 pair); [|reflexivity].
  apply android_engine_eq; cbn; try reflexivity.
  - apply map_eq. intros i. rewrite !lookup_fmap.
    destruct (Android.players e !! i) as [p|]; cbn; [|reflexivity].
    destruct (Android.mp_isPlaying p) eqn:E; cbn; [reflexivity|].
    rewrite E. reflexivity.
  - apply map_eq. intros i. rewrite !map_lookup_imap, lookup_fmap.
    destruct (Android.trackConfigs e !! i) as [c|]; cbn; [|reflexivity].
    destruct (Android.players e !! i) as [p|]; cbn; reflexivity.
Qed.

Lemma ios_stop_idempotent (e : IOS.Engine) :
  IOS.stop (fst (IOS.stop e)) = IOS.stop e.
Proof.
  apply (f_equal2 pair); [|reflexivity].
  apply ios_engine_eq; cbn; try reflexivity.
  - apply map_eq. intros i. rewrite !lookup_fmap.
    destruct (IOS.players e !! i) as [p|]; cbn; reflexivity.
  - apply map_eq. intros i. rewrite !map_lookup_imap, lookup_fmap.
    destruct (IOS.trackConfigs e !! i) as [c|]; cbn; [|reflexivity].
    destruct (IOS.players e !! i) as [p|]; cbn; reflexivity.
Qed.

(** C8. On Android, [stop] rewinds only the players that are playing.  A track
    that played for five seconds and was paused is still paused at 5000 ms
    after [stop] (which does clear the flags and the timer), and the next
    [play] resumes it from 5000 ms. *)
Theorem android_stop_skips_paused_players :
  let e := fst (Android.stop Scenario.android_paused) in
  let e' := fst (Android.play e) in
  exists p c p',
    Android.players e !! "rain" = Some p /\
    Android.trackConfigs e !! "rain" = Some c /\
    Android.tc_isPlaying c = false /\
    Android.isPlaying e = false /\ Android.timerConfig e = None /\
    Android.mp_state p = Android.Paused /\ Android.mp_position p = 5000%Z /\
    Android.players e' !! "rain" = Some p' /\
    Android.mp_state p' = Android.Started /\ Android.mp_position p' = 5000%Z.
Proof.
  eexists _, _, _.
  split; [vm_compute; reflexivity|].
  repeat (split; [vm_compute; reflexivity|]).
  vm_compute; reflexivity.
Qed.

(** ** Starting playback *)

(** A track that was started and then muted has volume 0 when [play] is
    called again, and is playing with [isPlaying = true] afterwards. *)
Lemma play_keeps_muted_track_playing :
  let e := fst (Android.play Scenario.android_muted) in
  exists c0 c p,
    Android.isInitialized Scenario.android_muted = true /\
    Android.trackConfigs Scenario.android_muted !! "rain" = Some c0 /\
    Android.tc_volume c0 == 0 /\
    Android.trackConfigs e !! "rain" = Some c /\
    Android.tc_volume c == 0 /\ Android.tc_isPlaying c = true /\
    Android.players e !! "rain" = Some p /\
    Android.mp_state p = Android.Started.
Proof.
  eexists _, _, _.
  split; [vm_compute; reflexivity|].
  repeat (split; [vm_compute; reflexivity|]).
  vm_compute; reflexivity.
Qed.

(** C5 (as the code has it).  On an initialised engine [play] resolves to
    [true] and sets the engine's [isPlaying]; it starts exactly the tracks
    whose volume is greater than 0 and whose player is not playing, and sets
    their [isPlaying] flag; every other track, in particular every track with
    volume 0, keeps its player state and its [isPlaying] flag as they were.
    (On iOS a track with positive volume that is already playing gets one more
    looping buffer scheduled, and is otherwise left alone.) *)
Theorem play_starts_audible_idle_tracks :
  (forall e : Android.Engine,
      Android.isInitialized e = true ->
      let e' := fst (Android.play e) in
      snd (Android.play e) = Resolve true /\ Android.isPlaying e' = true /\
      forall trackId player c,
        Android.players e !! trackId = Some player ->
        Android.trackConfigs e !! trackId = Some c ->
        (0 < Android.tc_volume c -> Android.mp_isPlaying player = false ->
           Android.players e' !! trackId = Some (Android.mp_start player) /\
           Android.trackConfigs e' !! trackId = Some (Android.tc_with_isPlaying true c)) /\
        (Android.tc_volume c <= 0 \/ Android.mp_isPlaying player = true ->
           Android.players e' !! trackId = Some player /\
           Android.trackConfigs e' !! trackId = Some c)) /\
  (forall e : IOS.Engine,
      IOS.isInitialized e = true ->
      IOS.engineRunning e = true \/ IOS.outputAvailable e = true ->
      let e' := fst (IOS.play e) in
      snd (IOS.play e) = Resolve true /\ IOS.isPlaying e' = true /\
      forall trackId player file c,
        IOS.players e !! trackId = Some player ->
        IOS.audioFiles e !! trackId = Some file ->
        IOS.trackConfigs e !! trackId = Some c ->
        (0 < IOS.tc_volume c -> IOS.pn_isPlaying player = false ->
           IOS.players e' !! trackId = Some (IOS.pn_play (IOS.pn_scheduleBuffer player)) /\
           IOS.trackConfigs e' !! trackId = Some (IOS.tc_with_isPlaying true c)) /\
        (0 < IOS.tc_volume c -> IOS.pn_isPlaying player = true ->
           IOS.players e' !! trackId = Some (IOS.pn_scheduleBuffer player) /\
           IOS.trackConfigs e' !! trackId = Some c) /\
        (IOS.tc_volume c <= 0 ->
           IOS.players e' !! trackId = Some player /\
           IOS.trackConfigs e' !! trackId = Some c)).
Proof.
  split.
  - intros e Hinit e'. subst e'. unfold Android.play. rewrite Hinit. cbn.
    split; [reflexivity|]. split; [reflexivity|].
    intros trackId player c Hp Hc.
    rewrite !map_lookup_imap, Hp, Hc. cbn. rewrite ?Hp, ?Hc. cbn. split.
    + intros Hvol Hidle. apply Qltb_true in Hvol. rewrite Hvol, Hidle. cbn. auto.
    + intros [Hvol|Hbusy].
      * apply Qltb_false in Hvol. rewrite Hvol. cbn. auto.
      * rewrite Hbusy, andb_false_r. auto.
  - intros e Hinit Hout e'. subst e'. unfold IOS.play. rewrite Hinit. cbn.
    assert (Hgo : negb (IOS.engineRunning e) && negb (IOS.outputAvailable e) = false).
    { destruct Hout as [-> | ->]; cbn; [reflexivity | apply andb_false_r]. }
    rewrite Hgo. cbn. split; [reflexivity|]. split; [reflexivity|].
    intros trackId player file c Hp Hf Hc.
    rewrite !map_lookup_imap, Hp, Hc. cbn. rewrite ?Hp, ?Hf, ?Hc. cbn.
    split; [|split].
    + intros Hvol Hidle. apply Qltb_true in Hvol. rewrite Hvol, Hidle. cbn. auto.
    + intros Hvol Hbusy. apply Qltb_true in Hvol. rewrite Hvol, Hbusy. cbn. auto.
    + intros Hvol. apply Qltb_false in Hvol. rewrite Hvol. cbn. auto.
Qed.

(** The freshly added track of [Scenario.bridge_rain] (volume 1/2, idle) is
    started by [play]. *)
Lemma play_starts_audible_idle_tracks_witness :
  let e := Android.run [Android.Initialize; Android.AddTrack "rain" "rain.ogg"]
                       Scenario.android0 in
  Android.players (fst (Android.play e)) !! "rain"
    = Some (Android.mp_start (Android.mp_new 60000)) /\
  Android.trackConfigs (fst (Android.play e)) !! "rain"
    = Some (Android.tc_with_isPlaying true
              (Android.newTrackConfig "rain" "rain.ogg" "rain.ogg")).
Proof.
  intros e.
  destruct play_starts_audible_idle_tracks as [Handroid _].
  destruct (Handroid e eq_refl) as (_ & _ & Htracks).
  destruct (Htracks "rain" (Android.mp_new 60000)
              (Android.newTrackConfig "rain" "rain.ogg" "rain.ogg") eq_refl eq_refl)
    as [Hstart _].
  apply Hstart; reflexivity.
Defined.

(** ** The bridge in front of the Android engine *)

Lemma validateVolume_ok {N : Type} (volume : Q) (s : Bridge.State N) :
  0 <= volume <= 1 -> Bridge.validateVolume (Finite volume) s = (s, Bridge.Normal tt).
Proof.
  intros [H0 H1]. unfold Bridge.validateVolume, Float.ltb.
  apply Qltb_false in H0. apply Qltb_false in H1. rewrite H0, H1. reflexivity.
Qed.



(** The bridge's [setVolume] with a valid volume on an initialised bridge:
    the native call, then the event. *)
Lemma bridge_setVolume_valid (s : Bridge.State Android.Engine) (trackId : string)
    (volume : Q) :
  Bridge.isInitialized s = true -> 0 <= volume <= 1 ->
  Bridge.setVolume trackId volume s
  = match Android.setVolume trackId volume (Bridge.native s) with
    | (n, Resolve result) =>
        (Bridge.mkState true n (Bridge.emitted s ++ [Bridge.EvVolumeChanged trackId volume]),
         Bridge.Normal result)
    | (n, Reject _) =>
        (Bridge.mkState true n
           (Bridge.emitted s ++ [Bridge.EvError "TRACK_NOT_FOUND" (Some trackId)]),
         Bridge.Normal false)
    end.
Proof.
  intros Hinit Hv. destruct s as [init n ev]. cbn in Hinit. subst init.
  unfold Bridge.setVolume, Bridge.bind at 1. cbn.
  unfold Bridge.bind at 1. rewrite validateVolume_ok by exact Hv.
  unfold Bridge.try_catch, Bridge.bind, Bridge.await. cbn.
  destruct (Android.setVolume trackId volume n) as [n' [result|code]]; reflexivity.
Qed.

(** Removing the playing track of [Scenario.bridge_rain_playing]: the call
    resolves to [true], and the track is still there, still playing, with
    its player not released. *)
Lemma removeTrack_keeps_the_track :
  let s := fst (Bridge.removeTrack "rain" Scenario.bridge_rain_playing) in
  exists p0 p c,
    Android.players (Bridge.native Scenario.bridge_rain_playing) !! "rain" = Some p0 /\
    Android.mp_state p0 = Android.Started /\
    snd (Bridge.removeTrack "rain" Scenario.bridge_rain_playing) = Bridge.Normal true /\
    Android.players (Bridge.native s) !! "rain" = Some p /\
    Android.mp_state p = Android.Started /\
    Android.trackConfigs (Bridge.native s) !! "rain" = Some c /\
    Android.tc_isPlaying c = true /\
    Android.released (Bridge.native s) = [].
Proof.
  eexists _, _, _.
  split; [vm_compute; reflexivity|].
  repeat (split; [vm_compute; reflexivity|]).
  vm_compute; reflexivity.
Qed.

(** C9 (as the code has it).  Neither native module has a [removeTrack], so
    the bridge's [removeTrack(id)] is [setVolume(id, 0)].  On an initialised
    bridge: when no track has that id the call resolves to [false] after an
    error event with code TRACK_NOT_FOUND; when the track is present the call
    resolves to [true], the track stays in the track set with its player in
    the state it was in (playing if it was playing) and not released, its
    stored volume and both its channel gains become 0, and every other track's
    player and configuration are unchanged. *)
Theorem removeTrack_mutes_the_track (s : Bridge.State Android.Engine) (trackId : string) :
  Bridge.isInitialized s = true ->
  (@nm_removeTrack Android.Engine _ = None /\ @nm_removeTrack IOS.Engine _ = None) /\
  (Android.players (Bridge.native s) !! trackId = None ->
     Bridge.removeTrack trackId s
     = (Bridge.mkState true (Bridge.native s)
          (Bridge.emitted s ++ [Bridge.EvError "TRACK_NOT_FOUND" (Some trackId)]),
        Bridge.Normal false)) /\
  (forall player,
     Android.players (Bridge.native s) !! trackId = Some player ->
     let n := Bridge.native s in
     let n' := Bridge.native (fst (Bridge.removeTrack trackId s)) in
     snd (Bridge.removeTrack trackId s) = Bridge.Normal true /\
     (exists player',
        Android.players n' !! trackId = Some player' /\
        Android.mp_state player' = Android.mp_state player /\
        Android.mp_position player' = Android.mp_position player /\
        Android.mp_left player' == 0 /\ Android.mp_right player' == 0) /\
     (forall c, Android.trackConfigs n !! trackId = Some c ->
        exists c', Android.trackConfigs n' !! trackId = Some c' /\
                   Android.tc_volume c' == 0 /\
                   Android.tc_isPlaying c' = Android.tc_isPlaying c) /\
     Android.released n' = Android.released n /\
     (forall other, other <> trackId ->
        Android.players n' !! other = Android.players n !! other /\
        Android.trackConfigs n' !! other = Android.trackConfigs n !! other)).
Proof.
  intros Hinit. split; [split; reflexivity|].
  assert (Hrm : Bridge.removeTrack trackId s
                = Bridge.try_catch (Bridge.setVolume trackId 0)
                    (fun _ => Bridge.ret false) s) by reflexivity.
  assert (H0 : 0 <= 0 <= 1) by lra.
  pose proof (bridge_setVolume_valid s trackId 0 Hinit H0) as Hset.
  split.
  - intros Habsent. rewrite Hrm. unfold Bridge.try_catch. rewrite Hset.
    rewrite android_setVolume_absent by exact Habsent. reflexivity.
  - intros player Hp n n'. subst n n'. rewrite Hrm. unfold Bridge.try_catch.
    rewrite Hset.
    destruct (android_setVolume_present (Bridge.native s) trackId 0 player Hp)
      as (Hres & Hp' & Hc' & Hother & Hrel & _).
    destruct (Android.setVolume trackId 0 (Bridge.native s)) as [n' result].
    cbn in Hres, Hp', Hc', Hother, Hrel. subst result. cbn.
    split; [reflexivity|]. split; [|split; [|split]].
    + eexists. split; [exact Hp'|]. cbn. repeat split; try reflexivity; ring.
    + intros c Hc. rewrite Hc in Hc'. cbn in Hc'.
      eexists. split; [exact Hc'|]. cbn. split; reflexivity.
    + exact Hrel.
    + exact Hother.
Qed.

Lemma removeTrack_mutes_the_track_witness :
  snd (Bridge.removeTrack "rain" Scenario.bridge_rain_playing) = Bridge.Normal true /\
  Android.released
    (Bridge.native (fst (Bridge.removeTrack "rain" Scenario.bridge_rain_playing))) = [].
Proof.
  destruct (removeTrack_mutes_the_track Scenario.bridge_rain_playing "rain" eq_refl)
    as (_ & _ & Hpresent).
  destruct (Hpresent (Android.mp_start (Android.mp_new 60000)) eq_refl)
    as (Hres & _ & _ & Hrel & _).
  split; [exact Hres | exact Hrel].
Defined.

(** Every call the bridge makes into the Android module is a step of the
    engine, and no step that the bridge can cause removes a track. *)
Lemma android_invoked_step (n n' : Android.Engine) :
  Bridge.invoked n n' -> exists c, n' = Android.step c n.
Proof.
  intros Hi. inversion Hi; subst; try discriminate.
  - exists Android.Initialize; reflexivity.
  - exists (Android.AddTrack i f); reflexivity.
  - exists (Android.SetVolume i v); reflexivity.
  - exists (Android.SetPanning i p); reflexivity.
  - exists Android.Play; reflexivity.
  - exists Android.Pause; reflexivity.
  - exists Android.Stop; reflexivity.
  - exists (Android.SetTimer d f fd); reflexivity.
Qed.

Lemma ios_invoked_step (n n' : IOS.Engine) :
  Bridge.invoked n n' -> exists c, n' = IOS.step c n.
Proof.
  intros Hi. inversion Hi; subst; try discriminate.
  - exists IOS.Initialize; reflexivity.
  - exists (IOS.AddTrack i f); reflexivity.
  - exists (IOS.SetVolume i v); reflexivity.
  - exists (IOS.SetPanning i p); reflexivity.
  - exists IOS.Play; reflexivity.
  - exists IOS.Pause; reflexivity.
  - exists IOS.Stop; reflexivity.
  - exists (IOS.SetTimer d f fd); reflexivity.
Qed.

Lemma android_invoked_keeps_tracks (n n' : Android.Engine) :
  Bridge.invoked n n' -> Android.keeps_tracks n n'.
Proof.
  intros Hi i. inversion Hi; subst; try discriminate; cbn.
  - auto.
  - unfold Android.addTrack. destruct (negb _); [auto|].
    destruct (Android.assets n !! f); [|auto]. cbn.
    split; intros Hs; rewrite lookup_insert; case_decide; eauto.
  - unfold Android.setVolume. destruct (Android.players n !! i0) eqn:E; [|auto]. cbn.
    split; intros Hs.
    + rewrite lookup_insert; case_decide; eauto.
    + rewrite lookup_alter. case_decide; [subst|exact Hs].
      destruct Hs as [c ->]. cbn. eauto.
  - unfold Android.setPanning. destruct (Android.players n !! i0) eqn:E; [|auto].
    destruct (Android.trackConfigs n !! i0) eqn:E'; [|auto].
    destruct (Android.panGains _ _). cbn.
    split; intros Hs; rewrite lookup_insert; case_decide; eauto.
  - unfold Android.play. destruct (negb _); [auto|]. cbn.
    split; intros [x Hx]; rewrite map_lookup_imap, Hx; cbn; eauto.
  - split; intros [x Hx].
    + rewrite lookup_fmap, Hx. cbn. eauto.
    + rewrite map_lookup_imap, Hx. cbn. eauto.
  - split; intros [x Hx].
    + rewrite lookup_fmap, Hx. cbn. eauto.
    + rewrite map_lookup_imap, Hx. cbn. eauto.
  - auto.
Qed.

(** No function of the bridge removes a track from the Android engine. *)
Lemma bridge_keeps_tracks {A} (m : Bridge.M A) (s : Bridge.State Android.Engine) :
  Bridge.calls_only m ->
  Android.keeps_tracks (Bridge.native s) (Bridge.native (fst (m s))).
Proof.
  intros Hm.
  apply (BridgeFacts.calls_only_preserve (Android.keeps_tracks (Bridge.native s)) m s).
  - intros n n' Hi Hn i. destruct (Hn i) as [Hp Hc].
    destruct (android_invoked_keeps_tracks n n' Hi i) as [Hp' Hc']. split; auto.
  - exact Hm.
  - intros i. auto.
Qed.

Lemma loadScene_keeps_old_tracks (s : Bridge.State Android.Engine)
    (sceneId : string + AudioScene) (i : string) :
  is_Some (Android.trackConfigs (Bridge.native s) !! i) ->
  is_Some (Android.trackConfigs (Bridge.native (fst (Bridge.loadScene sceneId s))) !! i).
Proof.
  apply (bridge_keeps_tracks (Bridge.loadScene sceneId) s).
  apply BridgeFacts.calls_only_loadScene.
Qed.

(** ** Loading a scene *)

(** C3. Loading the one-track scene "ocean" (volume 3/10, pan 1/5) on a
    bridge whose engine holds the track "rain": the call resolves to [true],
    "ocean" is added with the saved volume and pan and is not started, and
    "rain" is still in the track set with its volume of 1/2: [getTracks]
    returns the empty list, so the clearing loop never runs. *)
Theorem loadScene_leaves_old_tracks :
  let s := fst (Bridge.loadScene (inr Scenario.scene_ocean) Scenario.bridge_rain) in
  exists ocean player rain,
    snd (Bridge.getTracks Scenario.bridge_rain) = Bridge.Normal [] /\
    snd (Bridge.loadScene (inr Scenario.scene_ocean) Scenario.bridge_rain)
      = Bridge.Normal true /\
    Android.trackConfigs (Bridge.native s) !! "ocean" = Some ocean /\
    Android.tc_volume ocean == 3 # 10 /\ Android.tc_pan ocean == 1 # 5 /\
    Android.tc_isPlaying ocean = false /\
    Android.players (Bridge.native s) !! "ocean" = Some player /\
    Android.mp_state player = Android.Prepared /\
    Android.isPlaying (Bridge.native s) = false /\
    Android.trackConfigs (Bridge.native s) !! "rain" = Some rain /\
    Android.tc_volume rain == 1 # 2 /\
    dom (Android.trackConfigs (Bridge.native s)) = {["ocean"; "rain"]} /\
    dom (Android.trackConfigs (Bridge.native s)) <> {["ocean"]}.
Proof.
  eexists _, _, _.
  split; [vm_compute; reflexivity|].
  repeat (split; [vm_compute; reflexivity|]).
  intros Heq.
  assert (Hin : "rain" ∈ dom (Android.trackConfigs
            (Bridge.native (fst (Bridge.loadScene (inr Scenario.scene_ocean)
                                   Scenario.bridge_rain)))))
    by (apply elem_of_dom; vm_compute; eauto).
  rewrite Heq in Hin. set_solver.
Qed.

(** *** What does hold: loading into an engine without tracks *)

Lemma validatePan_ok {N : Type} (pan : Q) (s : Bridge.State N) :
  -1 <= pan <= 1 -> Bridge.validatePan (Finite pan) s = (s, Bridge.Normal tt).
Proof.
  intros [H0 H1]. unfold Bridge.validatePan, Float.ltb.
  apply Qltb_false in H0. apply Qltb_false in H1. rewrite H0, H1. reflexivity.
Qed.

Lemma load_track_effect (track : AudioTrack) (n : Android.Engine) (len : Z) :
  Android.isInitialized n = true ->
  Android.assets n !! at_file track = Some len ->
  let n' := Loading.load_track track n in
  Android.isInitialized n' = true /\ Android.assets n' = Android.assets n /\
  Android.isPlaying n' = Android.isPlaying n /\
  Android.trackConfigs n' !! at_id track
    = Some (Android.mkTrack (at_id track) (at_file track) (at_file track)
              (clampVolume (at_volume track)) (clampPan (at_pan track)) false) /\
  (exists player, Android.players n' !! at_id track = Some player /\
                  Android.mp_state player = Android.Prepared) /\
  (forall other, other <> at_id track ->
     Android.players n' !! other = Android.players n !! other /\
     Android.trackConfigs n' !! other = Android.trackConfigs n !! other).
Proof.
  intros Hinit Hasset. unfold Loading.load_track.
  unfold Android.addTrack. rewrite Hinit, Hasset. cbn [negb fst].
  unfold Android.setVolume. cbn [Android.players Android.with_tracks].
  rewrite lookup_insert_eq. cbn [fst].
  unfold Android.setPanning. cbn [Android.players Android.trackConfigs Android.with_tracks].
  rewrite lookup_insert_eq, lookup_alter, decide_True, lookup_insert_eq by reflexivity.
  cbn [fmap option_fmap option_map].
  destruct (Android.panGains _ _) as [l r]. cbn.
  rewrite !lookup_insert_eq.
  repeat split; eauto.
  - rewrite !lookup_insert_ne by congruence. reflexivity.
  - rewrite lookup_insert_ne, lookup_alter, decide_False, lookup_insert_ne by congruence.
    reflexivity.
Qed.

Lemma bridge_addTrack_run (s : Bridge.State Android.Engine) (trackId audioFile : string) :
  Bridge.isInitialized s = true ->
  Bridge.addTrack trackId audioFile s
  = match Android.addTrack trackId audioFile (Bridge.native s) with
    | (n, Resolve result) =>
        (Bridge.mkState true n (Bridge.emitted s), Bridge.Normal result)
    | (n, Reject _) =>
        (Bridge.mkState true n
           (Bridge.emitted s ++ [Bridge.EvError "TRACK_NOT_FOUND" (Some trackId)]),
         Bridge.Normal false)
    end.
Proof.
  intros Hinit. destruct s as [init n ev]. cbn in Hinit. subst init.
  unfold Bridge.addTrack, Bridge.bind at 1. cbn.
  unfold Bridge.try_catch, Bridge.await. cbn.
  destruct (Android.addTrack trackId audioFile n) as [n' [result|code]]; reflexivity.
Qed.

Lemma bridge_setPanning_valid (s : Bridge.State Android.Engine) (trackId : string)
    (pan : Q) :
  Bridge.isInitialized s = true -> -1 <= pan <= 1 ->
  Bridge.setPanning trackId pan s
  = match Android.setPanning trackId pan (Bridge.native s) with
    | (n, Resolve result) =>
        (Bridge.mkState true n (Bridge.emitted s ++ [Bridge.EvPanningChanged trackId pan]),
         Bridge.Normal result)
    | (n, Reject _) =>
        (Bridge.mkState true n
           (Bridge.emitted s ++ [Bridge.EvError "TRACK_NOT_FOUND" (Some trackId)]),
         Bridge.Normal false)
    end.
Proof.
  intros Hinit Hv. destruct s as [init n ev]. cbn in Hinit. subst init.
  unfold Bridge.setPanning, Bridge.bind at 1. cbn.
  unfold Bridge.bind at 1. rewrite validatePan_ok by exact Hv.
  unfold Bridge.try_catch, Bridge.bind, Bridge.await. cbn.
  destruct (Android.setPanning trackId pan n) as [n' [result|code]]; reflexivity.
Qed.

Lemma load_body_valid (track : AudioTrack) (s : Bridge.State Android.Engine) :
  Bridge.isInitialized s = true ->
  Android.isInitialized (Bridge.native s) = true ->
  Loading.valid_track (Bridge.native s) track ->
  exists ev,
    Loading.load_body track s
    = (Bridge.mkState true (Loading.load_track track (Bridge.native s)) ev, Bridge.Normal tt).
Proof.
  intros Hinit Hninit ([len Hasset] & Hv & Hp).
  unfold Loading.load_body, Loading.load_track.
  unfold Bridge.bind at 1. rewrite bridge_addTrack_run by exact Hinit.
  unfold Android.addTrack. rewrite Hninit, Hasset. cbn [negb fst].
  unfold Bridge.bind at 1. rewrite bridge_setVolume_valid by (cbn; auto).
  cbn [Bridge.native].
  unfold Android.setVolume. cbn [Android.players Android.with_tracks].
  rewrite lookup_insert_eq. cbn [fst].
  unfold Bridge.bind at 1. rewrite bridge_setPanning_valid by (cbn; auto).
  cbn [Bridge.native].
  unfold Android.setPanning. cbn [Android.players Android.trackConfigs Android.with_tracks].
  rewrite lookup_insert_eq, lookup_alter, decide_True, lookup_insert_eq by reflexivity.
  cbn [fmap option_fmap option_map].
  destruct (Android.panGains _ _) as [l r]. cbn.
  eexists. reflexivity.
Qed.

Lemma valid_track_assets (n n' : Android.Engine) (track : AudioTrack) :
  Android.assets n' = Android.assets n -> Loading.valid_track n track -> Loading.valid_track n' track.
Proof. unfold Loading.valid_track. intros ->. auto. Qed.

Lemma load_loop_valid (tracks : list AudioTrack) (s : Bridge.State Android.Engine) :
  Bridge.isInitialized s = true ->
  Android.isInitialized (Bridge.native s) = true ->
  Forall (Loading.valid_track (Bridge.native s)) tracks ->
  exists ev,
    Bridge.for_of tracks Loading.load_body s
    = (Bridge.mkState true (Loading.load_tracks tracks (Bridge.native s)) ev, Bridge.Normal tt).
Proof.
  revert s. induction tracks as [|track tracks IH]; intros s Hinit Hninit Hvalid.
  - destruct s as [init n ev]. cbn in Hinit. subst init. exists ev. reflexivity.
  - inversion Hvalid as [|? ? Htrack Hrest]; subst.
    destruct (load_body_valid track s Hinit Hninit Htrack) as [ev Hbody].
    destruct Htrack as ([len Hasset] & _).
    destruct (load_track_effect track (Bridge.native s) len Hninit Hasset)
      as (Hninit' & Hassets' & _).
    cbn [Bridge.for_of]. unfold Bridge.bind at 1. rewrite Hbody.
    destruct (IH (Bridge.mkState true (Loading.load_track track (Bridge.native s)) ev))
      as [ev' Hloop]; [reflexivity | exact Hninit' | |].
    { cbn [Bridge.native]. eapply Forall_impl; [exact Hrest|].
      intros t. apply valid_track_assets. exact Hassets'. }
    exists ev'. exact Hloop.
Qed.

Lemma load_tracks_spec (tracks : list AudioTrack) (n : Android.Engine) :
  Android.isInitialized n = true ->
  Forall (Loading.valid_track n) tracks ->
  NoDup (at_id <$> tracks) ->
  let n' := Loading.load_tracks tracks n in
  Android.isInitialized n' = true /\ Android.assets n' = Android.assets n /\
  Android.isPlaying n' = Android.isPlaying n /\
  (forall track, track ∈ tracks ->
     Android.trackConfigs n' !! at_id track
       = Some (Android.mkTrack (at_id track) (at_file track) (at_file track)
                 (clampVolume (at_volume track)) (clampPan (at_pan track)) false) /\
     exists player, Android.players n' !! at_id track = Some player /\
                    Android.mp_state player = Android.Prepared) /\
  (forall i, i ∉ at_id <$> tracks ->
     Android.players n' !! i = Android.players n !! i /\
     Android.trackConfigs n' !! i = Android.trackConfigs n !! i).
Proof.
  revert n. induction tracks as [|track tracks IH]; intros n Hinit Hvalid Hnodup.
  - cbn. split; [exact Hinit|]. split; [reflexivity|]. split; [reflexivity|]. split.
    + intros t Hin. inversion Hin.
    + intros i _. auto.
  - inversion Hvalid as [|? ? Htrack Hrest]; subst.
    apply NoDup_cons in Hnodup as [Hfresh Hnodup].
    destruct Htrack as ([len Hasset] & _).
    destruct (load_track_effect track n len Hinit Hasset)
      as (Hinit1 & Hassets1 & Hplaying1 & Hconfig1 & Hplayer1 & Hframe1).
    assert (Hrest1 : Forall (Loading.valid_track (Loading.load_track track n)) tracks).
    { eapply Forall_impl; [exact Hrest|].
      intros t. apply valid_track_assets. exact Hassets1. }
    destruct (IH (Loading.load_track track n) Hinit1 Hrest1 Hnodup)
      as (Hinit' & Hassets' & Hplaying' & Hloaded & Hframe).
    cbn [Loading.load_tracks fold_left]. fold (Loading.load_tracks tracks (Loading.load_track track n)).
    split; [exact Hinit'|]. split; [congruence|]. split; [congruence|]. split.
    + intros t Hin. apply elem_of_cons in Hin as [->|Hin]; [|apply Hloaded, Hin].
      destruct (Hframe (at_id track) Hfresh) as [Hp Hc]. rewrite Hp, Hc. auto.
    + intros i Hi. rewrite fmap_cons in Hi. apply not_elem_of_cons in Hi as [Hne Hi].
      destruct (Hframe i Hi) as [Hp Hc]. destruct (Hframe1 i Hne) as [Hp1 Hc1].
      split; congruence.
Qed.

Lemma loadSceneFromObject_valid (scene : AudioScene) (s : Bridge.State Android.Engine) :
  Bridge.isInitialized s = true ->
  Android.isInitialized (Bridge.native s) = true ->
  Forall (Loading.valid_track (Bridge.native s)) (sc_tracks scene) ->
  exists ev,
    Bridge.loadScene (inr scene) s
    = (Bridge.mkState true (Loading.load_tracks (sc_tracks scene) (Bridge.native s)) ev,
       Bridge.Normal true).
Proof.
  intros Hinit Hninit Hvalid.
  destruct (load_loop_valid (sc_tracks scene) s Hinit Hninit Hvalid) as [ev Hloop].
  exists (ev ++ [Bridge.EvSceneLoaded]).
  unfold Bridge.loadScene, Bridge.bind at 1, Bridge.validateInitialized.
  rewrite Hinit. cbn [negb]. unfold Bridge.ret at 1.
  unfold Bridge.try_catch at 1, Bridge.loadSceneFromObject, Bridge.try_catch at 1.
  unfold Bridge.bind at 1, Bridge.getTracks, Bridge.try_catch at 1. cbn [nm_getTracks android_module].
  unfold Bridge.ret at 1. cbn [Bridge.for_of].
  unfold Bridge.bind at 1, Bridge.ret at 1.
  unfold Bridge.bind at 1.
  change (Bridge.for_of (sc_tracks scene) _ s) with (Bridge.for_of (sc_tracks scene) Loading.load_body s).
  rewrite Hloop. reflexivity.
Qed.

(** X2. Loading a scene into an engine without tracks, when every track of the
    scene names a playable asset, has its volume and pan in their domains and
    the ids are distinct: the call resolves to [true], nothing is started,
    and the track set is exactly the scene's ids with the saved volume and
    pan. *)
Lemma loadScene_into_empty_engine (scene : AudioScene) (s : Bridge.State Android.Engine) :
  Bridge.isInitialized s = true ->
  Android.isInitialized (Bridge.native s) = true ->
  Android.players (Bridge.native s) = ∅ ->
  Android.trackConfigs (Bridge.native s) = ∅ ->
  Forall (Loading.valid_track (Bridge.native s)) (sc_tracks scene) ->
  NoDup (at_id <$> sc_tracks scene) ->
  let n' := Bridge.native (fst (Bridge.loadScene (inr scene) s)) in
  snd (Bridge.loadScene (inr scene) s) = Bridge.Normal true /\
  Android.isPlaying n' = Android.isPlaying (Bridge.native s) /\
  (forall track, track ∈ sc_tracks scene ->
     exists c player,
       Android.trackConfigs n' !! at_id track = Some c /\
       Android.tc_volume c == at_volume track /\ Android.tc_pan c == at_pan track /\
       Android.tc_isPlaying c = false /\
       Android.players n' !! at_id track = Some player /\
       Android.mp_state player = Android.Prepared) /\
  (forall i, is_Some (Android.trackConfigs n' !! i) -> i ∈ at_id <$> sc_tracks scene).
Proof.
  intros Hinit Hninit Hplayers Hconfigs Hvalid Hnodup n'. subst n'.
  destruct (loadSceneFromObject_valid scene s Hinit Hninit Hvalid) as [ev ->].
  cbn [fst snd Bridge.native].
  destruct (load_tracks_spec (sc_tracks scene) (Bridge.native s) Hninit Hvalid Hnodup)
    as (_ & _ & Hplaying & Hloaded & Hframe).
  split; [reflexivity|]. split; [exact Hplaying|]. split.
  - intros track Hin. destruct (Hloaded track Hin) as (Hc & player & Hp & Hstate).
    rewrite Forall_forall in Hvalid. destruct (Hvalid track Hin) as (_ & Hv & Hpan).
    eexists _, player. split; [exact Hc|]. cbn.
    split; [apply clampVolume_id, Hv|]. split; [apply clampPan_id, Hpan|]. auto.
  - intros i Hsome.
    destruct (decide (i ∈ at_id <$> sc_tracks scene)) as [Hin|Hout]; [exact Hin|].
    destruct (Hframe i Hout) as [_ Hc]. rewrite Hc, Hconfigs, lookup_empty in Hsome.
    destruct Hsome; discriminate.
Qed.

(** ** Stored volume and pan stay in their domains *)

(** The guards of the bridge on every number: they throw for the numbers
    below and above the domain, the infinities included, and for nothing
    else; NaN fails both comparisons and passes. *)
Lemma validateVolume_passes {N : Type} (x : number) (s : Bridge.State N) :
  Bridge.validateVolume x s = (s, Bridge.Normal tt)
  <-> x = NaN \/ exists q, x = Finite q /\ 0 <= q <= 1.
Proof.
  destruct x as [q| | |]; cbn.
  - unfold Bridge.validateVolume, Float.ltb. split.
    + destruct (Qltb q 0) eqn:E0; [discriminate|].
      destruct (Qltb 1 q) eqn:E1; [discriminate|].
      apply Qltb_false in E0. apply Qltb_false in E1. eauto.
    + intros [[=]|(q' & [= <-] & H0 & H1)].
      assert (E0 : Qltb q 0 = false) by (apply Qltb_false; exact H0).
      assert (E1 : Qltb 1 q = false) by (apply Qltb_false; exact H1).
      rewrite E0, E1. reflexivity.
  - split; [discriminate | intros [[=]|(q & [=] & _)]].
  - split; [discriminate | intros [[=]|(q & [=] & _)]].
  - split; [auto | reflexivity].
Qed.

Lemma validatePan_passes {N : Type} (x : number) (s : Bridge.State N) :
  Bridge.validatePan x s = (s, Bridge.Normal tt)
  <-> x = NaN \/ exists q, x = Finite q /\ -1 <= q <= 1.
Proof.
  destruct x as [q| | |]; cbn.
  - unfold Bridge.validatePan, Float.ltb. split.
    + destruct (Qltb q (-1)) eqn:E0; [discriminate|].
      destruct (Qltb 1 q) eqn:E1; [discriminate|].
      apply Qltb_false in E0. apply Qltb_false in E1. eauto.
    + intros [[=]|(q' & [= <-] & H0 & H1)].
      assert (E0 : Qltb q (-1) = false) by (apply Qltb_false; exact H0).
      assert (E1 : Qltb 1 q = false) by (apply Qltb_false; exact H1).
      rewrite E0, E1. reflexivity.
  - split; [discriminate | intros [[=]|(q & [=] & _)]].
  - split; [discriminate | intros [[=]|(q & [=] & _)]].
  - split; [auto | reflexivity].
Qed.






(** ** The master volume *)

(** C10. For a volume in [0,1] on an initialised bridge, [setMasterVolume]
    resolves to [true] and returns the whole state as it was, native engine
    included, in front of either native module; neither module has a
    [setMasterVolume]; and the [masterVolume] of either engine is 1 after
    every history. *)
Theorem setMasterVolume_changes_nothing (volume : Q) :
  0 <= volume <= 1 ->
  (forall s : Bridge.State Android.Engine,
      Bridge.isInitialized s = true ->
      Bridge.setMasterVolume volume s = (s, Bridge.Normal true)) /\
  (forall s : Bridge.State IOS.Engine,
      Bridge.isInitialized s = true ->
      Bridge.setMasterVolume volume s = (s, Bridge.Normal true)) /\
  (@nm_setMasterVolume Android.Engine _ = None /\
   @nm_setMasterVolume IOS.Engine _ = None) /\
  (forall calls clock catalogue,
      Android.masterVolume (Android.run calls (Android.create clock catalogue)) = 1) /\
  (forall calls clock output resources,
      IOS.masterVolume (IOS.run calls (IOS.create clock output resources)) = 1).
Proof.
  intros Hv. split; [|split; [|split; [|split]]].
  - intros [init n ev] Hinit. cbn in Hinit. subst init.
    unfold Bridge.setMasterVolume, Bridge.bind at 1. cbn.
    unfold Bridge.bind at 1. rewrite validateVolume_ok by exact Hv. reflexivity.
  - intros [init n ev] Hinit. cbn in Hinit. subst init.
    unfold Bridge.setMasterVolume, Bridge.bind at 1. cbn.
    unfold Bridge.bind at 1. rewrite validateVolume_ok by exact Hv. reflexivity.
  - split; reflexivity.
  - intros calls clock catalogue. apply AndroidFacts.android_run_masterVolume.
  - intros calls clock output resources. apply IOSFacts.ios_run_masterVolume.
Qed.

Lemma setMasterVolume_changes_nothing_witness :
  Bridge.setMasterVolume (4 # 5) Scenario.bridge_rain_playing
  = (Scenario.bridge_rain_playing, Bridge.Normal true).
Proof.
  destruct (setMasterVolume_changes_nothing (4 # 5)) as (Handroid & _); [lra|].
  apply Handroid. reflexivity.
Defined.


(** * Further properties of the engines *)

(** ** Android: what every history keeps *)

Lemma android_step_consistent (c : Android.Call) (e : Android.Engine) :
  Invariants.android_consistent e -> Invariants.android_consistent (Android.step c e).
Proof.
  intros He. pose proof He as [Htracks Htimer].
  assert (Hstop : forall e0, Invariants.android_consistent e0 ->
                    Invariants.android_consistent (fst (Android.stop e0))).
  { intros e0 [Ht0 _]. split; [|reflexivity]. intros i. specialize (Ht0 i). cbn.
    rewrite lookup_fmap, map_lookup_imap.
    destruct (Android.players e0 !! i) as [p|], (Android.trackConfigs e0 !! i) as [c0|];
      cbn in *; try rewrite ?Hp; auto.
    destruct Ht0 as (Hflag & Hloop & Hid).
    destruct p as [[] pos dur loop l r]; cbn in *; auto. }
  destruct c; cbn [Android.step].
  - split; [exact Htracks | exact Htimer].
  - unfold Android.addTrack. destruct (negb _); [exact He|].
    destruct (Android.assets e !! audioFile); [|exact He].
    split; [|exact Htimer]. intros i. specialize (Htracks i). cbn.
    rewrite !lookup_insert. case_decide; [subst; cbn; auto | exact Htracks].
  - unfold Android.setVolume.
    destruct (Android.players e !! trackId) as [p|] eqn:Hp; [|exact He].
    split; [|exact Htimer]. intros i. pose proof (Htracks i) as Hi. cbn.
    rewrite lookup_insert, lookup_alter. case_decide; [subst|exact Hi].
    rewrite Hp in Hi. destruct (Android.trackConfigs e !! i); cbn in *; auto.
  - unfold Android.setPanning.
    destruct (Android.players e !! trackId) as [p|] eqn:Hp; [|exact He].
    destruct (Android.trackConfigs e !! trackId) as [c0|] eqn:Hc; [|exact He].
    destruct (Android.panGains _ _) as [l r].
    split; [|exact Htimer]. intros i. pose proof (Htracks i) as Hi. cbn.
    rewrite !lookup_insert. case_decide; [subst|exact Hi].
    rewrite Hp, Hc in Hi. cbn in *. auto.
  - unfold Android.play. destruct (negb _); [exact He|].
    split; [|exact Htimer]. intros i. specialize (Htracks i). cbn.
    rewrite !map_lookup_imap.
    destruct (Android.players e !! i) as [p|], (Android.trackConfigs e !! i) as [c0|];
      cbn in *; auto.
    destruct Htracks as (Hflag & Hloop & Hid).
    destruct (Qltb 0 (Android.tc_volume c0) && negb (Android.mp_isPlaying p));
      cbn; auto.
  - split; [|exact Htimer]. intros i. specialize (Htracks i). cbn.
    rewrite lookup_fmap, map_lookup_imap.
    destruct (Android.players e !! i) as [p|], (Android.trackConfigs e !! i) as [c0|];
      cbn in *; auto.
    destruct Htracks as (Hflag & Hloop & Hid).
    destruct p as [[] pos dur loop l r]; cbn in *; auto.
  - apply Hstop. split; assumption.
  - split; [exact Htracks | reflexivity].
  - unfold Android.timerFires. destruct (Android.timerRunnable e); [|exact He].
    unfold Android.handleTimerTick.
    destruct (Android.timerConfig e) as [config|] eqn:Hcfg; [|exact He].
    destruct (_ <=? 0)%Z.
    + unfold Android.handleTimerExpired. apply Hstop. split; [exact Htracks | reflexivity].
    + destruct (Android.tm_fadeOut config && _); [|exact He].
      split; [|exact (proj2 He)]. intros i. specialize (Htracks i). cbn.
      rewrite map_lookup_imap.
      destruct (Android.players e !! i) as [p|], (Android.trackConfigs e !! i) as [c0|];
        cbn in *; auto.
      destruct (Android.tc_isPlaying c0); cbn; auto.
  - split; [|exact Htimer]. intros i. specialize (Htracks i). cbn.
    rewrite lookup_fmap.
    destruct (Android.players e !! i) as [p|], (Android.trackConfigs e !! i) as [c0|];
      cbn in *; auto.
    destruct Htracks as (Hflag & Hloop & Hid).
    unfold Android.mp_advance. destruct p as [[] pos dur loop l r]; cbn in *; auto.
  - split; [|reflexivity]. intros i. cbn. rewrite !lookup_empty. exact I.
Qed.

Lemma android_run_consistent (calls : list Android.Call) (e : Android.Engine) :
  Invariants.android_consistent e -> Invariants.android_consistent (Android.run calls e).
Proof.
  revert e. induction calls as [|c calls IH]; intros e He; [exact He|].
  cbn. apply IH, android_step_consistent, He.
Qed.

(** X3. After every history from a fresh module: the players and the
    configurations have the same ids; every [isPlaying] flag is true exactly
    when its player is playing; every player loops (so its completion
    listener never runs); every configuration carries the id it is stored
    under; and the timer runnable is registered exactly when a timer
    configuration is present. *)
Theorem android_history_consistent (calls : list Android.Call) (clock : Z)
    (catalogue : gmap string Z) :
  let e := Android.run calls (Android.create clock catalogue) in
  (forall trackId,
      is_Some (Android.players e !! trackId)
      <-> is_Some (Android.trackConfigs e !! trackId)) /\
  (forall trackId player config,
      Android.players e !! trackId = Some player ->
      Android.trackConfigs e !! trackId = Some config ->
      Android.tc_isPlaying config = Android.mp_isPlaying player /\
      Android.mp_looping player = true /\
      Android.tc_id config = trackId) /\
  (Android.timerRunnable e = true <-> is_Some (Android.timerConfig e)).
Proof.
  intros e.
  assert (He : Invariants.android_consistent e).
  { apply android_run_consistent. split; [|reflexivity].
    intros i. cbn. rewrite !lookup_empty. exact I. }
  destruct He as [Htracks Htimer]. split; [|split].
  - intros i. specialize (Htracks i).
    destruct (Android.players e !! i), (Android.trackConfigs e !! i); cbn in *;
      split; intros [? ?]; try discriminate; try contradiction; eauto.
  - intros i p c0 Hp Hc. specialize (Htracks i). rewrite Hp, Hc in Htracks. exact Htracks.
  - rewrite Htimer. destruct (Android.timerConfig e); split; intros H;
      try discriminate; eauto. destruct H; discriminate.
Qed.


(** ** Android: the timer tick *)

(** X4. Inside the fade window an Android tick hands volume * masterVolume *
    remaining / fadeOutDuration, computed from the stored volume, to both
    channels of every track whose flag is set (whatever its pan), leaves
    every other player as it is, and leaves the stored configuration,
    the timer and the transport flag untouched. *)
Theorem android_tick_fades_from_stored_volume (e : Android.Engine)
    (config : Android.TimerConfig) :
  Android.timerConfig e = Some config ->
  Android.tm_fadeOut config = true ->
  (0 < Android.remainingTime config e <= Android.tm_fadeOutDuration config)%Z ->
  let e' := Android.handleTimerTick e in
  let gain (c : Android.TrackConfig) :=
    Android.tc_volume c * Android.masterVolume e
    * (inject_Z (Android.remainingTime config e)
       / inject_Z (Android.tm_fadeOutDuration config)) in
  Android.trackConfigs e' = Android.trackConfigs e /\
  Android.timerConfig e' = Some config /\
  Android.isPlaying e' = Android.isPlaying e /\
  forall trackId player c,
    Android.players e !! trackId = Some player ->
    Android.trackConfigs e !! trackId = Some c ->
    if Android.tc_isPlaying c
    then exists player',
           Android.players e' !! trackId = Some player' /\
           Android.mp_left player' == gain c /\ Android.mp_right player' == gain c /\
           Android.mp_state player' = Android.mp_state player /\
           Android.mp_position player' = Android.mp_position player
    else Android.players e' !! trackId = Some player.
Proof.
  intros Hcfg Hfade [Hpos Hwin] e' gain. subst e'.
  unfold Android.handleTimerTick. rewrite Hcfg. cbv zeta.
  destruct (Z.leb_spec (Android.remainingTime config e) 0) as [Hle|_]; [lia|].
  rewrite Hfade. cbn [andb].
  destruct (Z.leb_spec (Android.remainingTime config e)
                       (Android.tm_fadeOutDuration config)) as [_|Hgt]; [|lia].
  split; [reflexivity|]. split; [exact Hcfg|]. split; [reflexivity|].
  intros trackId player c Hp Hc. cbn.
  rewrite map_lookup_imap, Hp. cbn. rewrite Hc.
  destruct (Android.tc_isPlaying c); [|reflexivity].
  eexists. split; [reflexivity|]. cbn. unfold gain, Android.targetVolume.
  repeat split; ring.
Qed.

Lemma android_tick_fades_from_stored_volume_witness :
  exists player',
    Android.players (Scenario.android_armed 10) !! "rain" = Some player' /\
    Android.mp_left player' == (1 # 2) * 1 * (inject_Z 240000 / inject_Z 600000).
Proof.
  pose proof (android_tick_fades_from_stored_volume
    (Android.run [Android.Initialize; Android.AddTrack "rain" "rain.ogg"; Android.Play;
                  Android.SetTimer 5 true 10; Android.Elapse 60000] Scenario.android0)
    (Android.mkTimer 300000 true 600000) eq_refl eq_refl
    ltac:(vm_compute; split; [reflexivity | discriminate])) as (_ & _ & _ & Htracks).
  destruct (Htracks "rain"
    (Android.mkPlayer Android.Started 0 60000 true 1 1)
    (Android.mkTrack "rain" "rain.ogg" "rain.ogg" (1 # 2) 0 true) eq_refl eq_refl)
    as (player' & Hp & Hl & _).
  exists player'. split; [exact Hp | exact Hl].
Defined.

(** X5. The fade multiplier of the Android tick, inside the window: it is
    remaining / fadeOutDuration, lies in (0, 1], equals 1 when the window
    opens, and a later tick (less remaining) never gets a larger one. *)
Theorem android_fade_multiplier_monotone (config : Android.TimerConfig) (r1 r2 : Z) :
  (0 < r2 <= r1)%Z -> (r1 <= Android.tm_fadeOutDuration config)%Z ->
  Android.targetVolume config r1
    == inject_Z r1 / inject_Z (Android.tm_fadeOutDuration config) /\
  0 < Android.targetVolume config r2 /\
  Android.targetVolume config r2 <= Android.targetVolume config r1 /\
  Android.targetVolume config r1 <= 1 /\
  Android.targetVolume config (Android.tm_fadeOutDuration config) == 1.
Proof.
  intros [H2 H21] H1. unfold Android.targetVolume.
  set (f := Android.tm_fadeOutDuration config) in *.
  assert (Hf : inject_Z 0 < inject_Z f) by (rewrite <- Zlt_Qlt; lia).
  change (inject_Z 0) with 0 in Hf.
  assert (Hq2 : inject_Z 0 < inject_Z r2) by (rewrite <- Zlt_Qlt; lia).
  change (inject_Z 0) with 0 in Hq2.
  assert (Hq21 : inject_Z r2 <= inject_Z r1) by (rewrite <- Zle_Qle; lia).
  assert (Hq1 : inject_Z r1 <= inject_Z f) by (rewrite <- Zle_Qle; lia).
  assert (Hk : 0 < / inject_Z f) by (apply Qinv_lt_0_compat, Hf).
  assert (Hfk : inject_Z f * / inject_Z f == 1) by (apply Qmult_inv_r; lra).
  unfold Qdiv. set (k := / inject_Z f) in *.
  repeat split; try ring.
  - nra.
  - nra.
  - nra.
  - rewrite <- Hfk. ring.
Qed.

Lemma android_fade_multiplier_monotone_witness :
  Android.targetVolume (Android.mkTimer 600000 true 120000) 60000
  <= Android.targetVolume (Android.mkTimer 600000 true 120000) 120000.
Proof.
  destruct (android_fade_multiplier_monotone (Android.mkTimer 600000 true 120000)
              120000 60000) as (_ & _ & Hmono & _).
  - lia.
  - cbn. lia.
  - exact Hmono.
Defined.

(** X6. When the remaining time is used up, the Android tick stops the
    playback for good: no player is playing, every flag of a track with a
    player is cleared, the transport flag is cleared, the timer is torn
    down, and the timer firing again changes nothing. *)
Theorem android_tick_expires_once (e : Android.Engine) (config : Android.TimerConfig) :
  Android.timerConfig e = Some config ->
  (Android.remainingTime config e <= 0)%Z ->
  let e' := Android.handleTimerTick e in
  Android.timerConfig e' = None /\ Android.timerRunnable e' = false /\
  Android.isPlaying e' = false /\
  (forall trackId player,
      Android.players e' !! trackId = Some player -> Android.mp_isPlaying player = false) /\
  (forall trackId player c,
      Android.players e' !! trackId = Some player ->
      Android.trackConfigs e' !! trackId = Some c -> Android.tc_isPlaying c = false) /\
  Android.handleTimerTick e' = e' /\ Android.timerFires e' = e'.
Proof.
  intros Hcfg Hrem e'.
  assert (Heq : e' = fst (Android.stop (Android.cancelTimer e))).
  { subst e'. unfold Android.handleTimerTick. rewrite Hcfg. cbv zeta.
    destruct (Z.leb_spec (Android.remainingTime config e) 0) as [_|Hgt]; [|lia].
    reflexivity. }
  clearbody e'. subst e'.
  destruct (android_stop_effects (Android.cancelTimer e))
    as (_ & Hplaying & Hconfig & Hrunnable & Hplayers & Hidle & Hflags).
  split; [exact Hconfig|]. split; [exact Hrunnable|]. split; [exact Hplaying|].
  split; [exact Hidle|]. split.
  - intros trackId player c Hp Hc. cbn in Hp, Hc.
    rewrite lookup_fmap in Hp. rewrite map_lookup_imap in Hc.
    destruct (Android.players e !! trackId) as [p0|]; [|discriminate].
    destruct (Android.trackConfigs e !! trackId) as [c0|]; [|discriminate].
    cbn in Hc. injection Hc as <-. reflexivity.
  - unfold Android.timerFires, Android.handleTimerTick. rewrite Hconfig, Hrunnable. auto.
Qed.

Lemma android_tick_expires_once_witness :
  Android.timerConfig
    (Android.handleTimerTick
       (Android.run [Android.Initialize; Android.AddTrack "rain" "rain.ogg"; Android.Play;
                     Android.SetTimer 5 true 2; Android.Elapse 300000] Scenario.android0))
  = None.
Proof.
  exact (proj1 (android_tick_expires_once
    (Android.run [Android.Initialize; Android.AddTrack "rain" "rain.ogg"; Android.Play;
                  Android.SetTimer 5 true 2; Android.Elapse 300000] Scenario.android0)
    (Android.mkTimer 300000 true 120000) eq_refl ltac:(vm_compute; discriminate))).
Defined.

(** X7. Before the fade window opens, or with the fade switched off, an
    Android tick with time remaining changes nothing at all; nor does a tick
    without an armed timer. *)
Theorem android_tick_outside_window (e : Android.Engine) :
  (Android.timerConfig e = None -> Android.handleTimerTick e = e) /\
  (forall config,
      Android.timerConfig e = Some config ->
      (0 < Android.remainingTime config e)%Z ->
      Android.tm_fadeOut config = false
      \/ (Android.tm_fadeOutDuration config < Android.remainingTime config e)%Z ->
      Android.handleTimerTick e = e).
Proof.
  split.
  - intros Hnone. unfold Android.handleTimerTick. rewrite Hnone. reflexivity.
  - intros config Hcfg Hpos Hout. unfold Android.handleTimerTick. rewrite Hcfg. cbv zeta.
    destruct (Z.leb_spec (Android.remainingTime config e) 0) as [Hle|_]; [lia|].
    destruct Hout as [Hoff|Hearly].
    + rewrite Hoff. reflexivity.
    + destruct (Z.leb_spec (Android.remainingTime config e)
                           (Android.tm_fadeOutDuration config)) as [Hle|_]; [lia|].
      rewrite andb_false_r. reflexivity.
Qed.

Lemma android_tick_outside_window_witness :
  let e := Android.run [Android.Initialize; Android.AddTrack "rain" "rain.ogg"; Android.Play;
                        Android.SetTimer 5 true 2; Android.Elapse 60000] Scenario.android0 in
  Android.handleTimerTick e = e.
Proof.
  intros e.
  apply (proj2 (android_tick_outside_window e) (Android.mkTimer 300000 true 120000)).
  - reflexivity.
  - vm_compute. reflexivity.
  - right. vm_compute. reflexivity.
Defined.


(** ** Android: transport *)

Lemma android_remainingTime_after_arming_witness :
  exists config,
    Android.timerConfig
      (Android.elapse 60000 (fst (Android.setTimer 5 true 2 Scenario.android0)))
    = Some config /\
    Android.remainingTime config
      (Android.elapse 60000 (fst (Android.setTimer 5 true 2 Scenario.android0)))
    = 240000%Z.
Proof.
  destruct (android_remainingTime_after_arming Scenario.android0 5 true 2 60000)
    as (config & Hcfg & _ & Hrem).
  - vm_compute. discriminate.
  - lia.
  - vm_compute. discriminate.
  - vm_compute. discriminate.
  - exists config. split; [exact Hcfg | exact Hrem].
Defined.

(** X8. Stopping twice is stopping once, on both platforms: the second
    [stop] resolves like the first and leaves the engine, its players, flags
    and timer exactly as the first left them. *)
Theorem stop_idempotent_on_both_platforms :
  (forall e : Android.Engine, Android.stop (fst (Android.stop e)) = Android.stop e) /\
  (forall e : IOS.Engine, IOS.stop (fst (IOS.stop e)) = IOS.stop e).
Proof. split; [exact android_stop_idempotent | exact ios_stop_idempotent]. Qed.

(** X9. Pausing twice is pausing once, on Android. *)
Theorem android_pause_idempotent (e : Android.Engine) :
  Android.pause (fst (Android.pause e)) = Android.pause e.
Proof.
  apply (f_equal2 pair); [|reflexivity].
  apply android_engine_eq; cbn; try reflexivity.
  - apply map_eq. intros i. rewrite !lookup_fmap.
    destruct (Android.players e !! i) as [[[] pos dur loop l r]|]; reflexivity.
  - apply map_eq. intros i. rewrite !map_lookup_imap, lookup_fmap.
    destruct (Android.trackConfigs e !! i) as [c|]; cbn; [|reflexivity].
    destruct (Android.players e !! i) as [[[] pos dur loop l r]|]; reflexivity.
Qed.

(** X10. [pause] then [play] on an initialised Android engine: a playing
    track with a positive volume is back exactly as it was, at the position
    where it was paused; a playing track whose volume is 0 stays paused with
    its flag cleared. *)
Theorem android_pause_then_play_resumes (e : Android.Engine) (trackId : string)
    (player : Android.MediaPlayer) (c : Android.TrackConfig) :
  Android.isInitialized e = true ->
  Android.players e !! trackId = Some player ->
  Android.trackConfigs e !! trackId = Some c ->
  Android.mp_isPlaying player = true ->
  let e' := fst (Android.play (fst (Android.pause e))) in
  (0 < Android.tc_volume c ->
     Android.players e' !! trackId = Some player /\
     Android.trackConfigs e' !! trackId = Some (Android.tc_with_isPlaying true c)) /\
  (Android.tc_volume c <= 0 ->
     Android.players e' !! trackId = Some (Android.mp_pause player) /\
     Android.trackConfigs e' !! trackId = Some (Android.tc_with_isPlaying false c)).
Proof.
  intros Hinit Hp Hc Hplaying e'. subst e'.
  set (e1 := fst (Android.pause e)).
  assert (Hinit1 : Android.isInitialized e1 = true) by exact Hinit.
  assert (Hp1 : Android.players e1 !! trackId = Some (Android.mp_pause player)).
  { subst e1. cbn. rewrite lookup_fmap, Hp. cbn. rewrite Hplaying. reflexivity. }
  assert (Hc1 : Android.trackConfigs e1 !! trackId
                = Some (Android.tc_with_isPlaying false c)).
  { subst e1. cbn. rewrite map_lookup_imap, Hc. cbn. rewrite Hp, Hplaying. reflexivity. }
  clearbody e1. unfold Android.play. rewrite Hinit1. cbn.
  rewrite !map_lookup_imap, Hp1, Hc1. cbn. rewrite ?Hp1, ?Hc1. cbn.
  destruct player as [[] pos dur loop l r]; try discriminate. cbn.
  split.
  - intros Hvol. apply Qltb_true in Hvol. rewrite Hvol. cbn. auto.
  - intros Hvol. apply Qltb_false in Hvol. rewrite Hvol. cbn. auto.
Qed.

Lemma android_pause_then_play_resumes_witness :
  let e := Android.run [Android.Initialize; Android.AddTrack "rain" "rain.ogg"; Android.Play;
                        Android.Elapse 5000] Scenario.android0 in
  Android.players (fst (Android.play (fst (Android.pause e)))) !! "rain"
  = Some (Android.mkPlayer Android.Started 5000 60000 true 1 1).
Proof.
  intros e.
  destruct (android_pause_then_play_resumes e "rain"
              (Android.mkPlayer Android.Started 5000 60000 true 1 1)
              (Android.mkTrack "rain" "rain.ogg" "rain.ogg" (1 # 2) 0 true)
              eq_refl eq_refl eq_refl eq_refl) as [Hresume _].
  apply Hresume. reflexivity.
Defined.

Lemma android_step_keeps_gains (c : Android.Call) (e : Android.Engine) (trackId : string)
    (player : Android.MediaPlayer) :
  Invariants.android_sets_gains c = false ->
  Android.players e !! trackId = Some player ->
  exists player',
    Android.players (Android.step c e) !! trackId = Some player' /\
    Android.mp_left player' = Android.mp_left player /\
    Android.mp_right player' = Android.mp_right player.
Proof.
  intros Hc Hp. destruct c; try discriminate; cbn [Android.step].
  - exists player. auto.
  - unfold Android.play. destruct (negb _); [exists player; auto|]. cbn.
    rewrite map_lookup_imap, Hp. cbn.
    destruct (Android.startable _ _); eexists; split; try reflexivity; auto.
  - cbn. rewrite lookup_fmap, Hp. cbn.
    destruct (Android.mp_isPlaying player); eexists; split; try reflexivity; auto.
  - cbn. rewrite lookup_fmap, Hp. cbn.
    destruct (Android.mp_isPlaying player); eexists; split; try reflexivity; auto.
  - exists player. auto.
  - cbn. rewrite lookup_fmap, Hp. cbn. unfold Android.mp_advance.
    destruct (Android.mp_isPlaying player); eexists; split; try reflexivity; auto.
Qed.

(** X11. On Android only [addTrack], [setVolume], [setPanning], the timer tick
    and the teardown give a player new channel gains: through any sequence
    of [initialize], [play], [pause], [stop], [setTimer] and passing time
    every player keeps the gains it had.  (So gains lowered by a fade stay
    lowered after the timer has stopped the playback and it is started
    again.) *)
Theorem android_transport_keeps_gains (calls : list Android.Call) (e : Android.Engine)
    (trackId : string) (player : Android.MediaPlayer) :
  forallb (fun c => negb (Invariants.android_sets_gains c)) calls = true ->
  Android.players e !! trackId = Some player ->
  exists player',
    Android.players (Android.run calls e) !! trackId = Some player' /\
    Android.mp_left player' = Android.mp_left player /\
    Android.mp_right player' = Android.mp_right player.
Proof.
  revert e player. induction calls as [|c calls IH]; intros e player Hcalls Hp.
  - exists player. auto.
  - cbn in Hcalls. apply andb_true_iff in Hcalls as [Hc Hcalls].
    apply negb_true_iff in Hc.
    destruct (android_step_keeps_gains c e trackId player Hc Hp) as (p1 & Hp1 & Hl1 & Hr1).
    destruct (IH (Android.step c e) p1 Hcalls Hp1) as (p2 & Hp2 & Hl2 & Hr2).
    exists p2. cbn. split; [exact Hp2|]. split; congruence.
Qed.

(** After the fade tick of [Scenario.android_armed 10], [stop] and [play]:
    the gains are those of the fade. *)
Lemma android_transport_keeps_gains_witness :
  exists player player',
    Android.players (Scenario.android_armed 10) !! "rain" = Some player /\
    Android.players (Android.run [Android.Stop; Android.Play] (Scenario.android_armed 10))
      !! "rain" = Some player' /\
    Android.mp_left player' = Android.mp_left player /\
    Android.mp_right player' = Android.mp_right player.
Proof.
  eexists. 
  destruct (android_transport_keeps_gains [Android.Stop; Android.Play]
              (Scenario.android_armed 10) "rain" _ eq_refl
              ltac:(vm_compute; reflexivity)) as (player' & Hp & Hl & Hr).
  exists player'. split; [vm_compute; reflexivity|]. split; [exact Hp|]. split; assumption.
Defined.

(** X12. [setVolume] followed by [setPanning] on an Android track: both values
    are stored clamped, and the player gets the pan law of the new volume
    and the new pan. *)
Theorem android_setVolume_then_setPanning (e : Android.Engine) (trackId : string)
    (volume pan : Q) (player : Android.MediaPlayer) (c : Android.TrackConfig) :
  Android.players e !! trackId = Some player ->
  Android.trackConfigs e !! trackId = Some c ->
  let e' := fst (Android.setPanning trackId pan
                   (fst (Android.setVolume trackId volume e))) in
  let gains := Android.panGains (clampVolume volume * Android.masterVolume e)
                                (clampPan pan) in
  exists player' c',
    Android.players e' !! trackId = Some player' /\
    Android.trackConfigs e' !! trackId = Some c' /\
    Android.tc_volume c' = clampVolume volume /\ Android.tc_pan c' = clampPan pan /\
    Android.mp_left player' = fst gains /\ Android.mp_right player' = snd gains /\
    Android.mp_state player' = Android.mp_state player /\
    Android.tc_isPlaying c' = Android.tc_isPlaying c.
Proof.
  intros Hp Hc e' gains. subst e' gains.
  destruct (android_setVolume_present e trackId volume player Hp)
    as (_ & Hp1 & Hc1 & _).
  cbv zeta in Hp1, Hc1. rewrite Hc in Hc1. cbn in Hc1.
  destruct (setPanning_applies_panGains _ trackId pan _ _ Hp1 Hc1) as (_ & Hp2 & Hc2).
  cbv zeta in Hp2, Hc2.
  assert (Hmv : Android.masterVolume (fst (Android.setVolume trackId volume e))
                = Android.masterVolume e).
  { unfold Android.setVolume. rewrite Hp. reflexivity. }
  rewrite Hmv in Hp2. cbn [Android.tc_volume Android.tc_with_volume] in Hp2.
  eexists _, _. split; [exact Hp2|]. split; [exact Hc2|]. cbn. auto 10.
Qed.

Lemma android_setVolume_then_setPanning_witness :
  let e := Android.run [Android.Initialize; Android.AddTrack "rain" "rain.ogg"]
                       Scenario.android0 in
  exists player' c',
    Android.players (fst (Android.setPanning "rain" (- (1 # 2))
                            (fst (Android.setVolume "rain" (4 # 5) e)))) !! "rain"
    = Some player' /\
    Android.trackConfigs (fst (Android.setPanning "rain" (- (1 # 2))
                            (fst (Android.setVolume "rain" (4 # 5) e)))) !! "rain"
    = Some c' /\
    Android.tc_volume c' = clampVolume (4 # 5).
Proof.
  intros e.
  destruct (android_setVolume_then_setPanning e "rain" (4 # 5) (- (1 # 2))
              (Android.mp_new 60000)
              (Android.newTrackConfig "rain" "rain.ogg" "rain.ogg") eq_refl eq_refl)
    as (player' & c' & Hp & Hc & Hv & _).
  exists player', c'. auto.
Defined.

(** X13. The Android teardown gives back every player it holds exactly once,
    forgets all tracks, tears the timer down, and a second teardown gives
    nothing back any more. *)
Theorem android_destroy_releases_once (e : Android.Engine) :
  let e' := Android.onCatalystInstanceDestroy e in
  (exists ids,
      Android.released e' = Android.released e ++ ids /\ NoDup ids /\
      forall trackId, trackId ∈ ids <-> is_Some (Android.players e !! trackId)) /\
  Android.players e' = ∅ /\ Android.trackConfigs e' = ∅ /\
  Android.timerConfig e' = None /\ Android.timerRunnable e' = false /\
  Android.released (Android.onCatalystInstanceDestroy e') = Android.released e'.
Proof.
  cbn. split; [|repeat split].
  - exists ((map_to_list (Android.players e)).*1). split; [reflexivity|].
    split; [apply NoDup_fst_map_to_list|].
    intros trackId. rewrite list_elem_of_fmap. split.
    + intros [[i p] [-> Hin]]. apply elem_of_map_to_list in Hin. cbn. eauto.
    + intros [p Hp]. exists (trackId, p). split; [reflexivity|].
      apply elem_of_map_to_list. exact Hp.
  - rewrite map_to_list_empty. cbn. apply app_nil_r.
Qed.


(** ** iOS *)

Lemma ios_step_consistent (c : IOS.Call) (e : IOS.Engine) :
  Invariants.ios_consistent e -> Invariants.ios_consistent (IOS.step c e).
Proof.
  intros He. pose proof He as (Htracks & Htimer & Hstart).
  assert (Hstop : forall e0, Invariants.ios_consistent e0 ->
                    Invariants.ios_consistent (fst (IOS.stop e0))).
  { intros e0 (Ht0 & _ & _). split; [|split; [reflexivity|]].
    - intros i. specialize (Ht0 i). cbn. rewrite lookup_fmap, map_lookup_imap.
      destruct (IOS.players e0 !! i) as [p|], (IOS.audioFiles e0 !! i) as [f|],
        (IOS.trackConfigs e0 !! i) as [c0|]; cbn in *; try tauto.
    - cbn. split; intros [? ?]; discriminate. }
  destruct c; cbn [IOS.step].
  - exact He.
  - unfold IOS.addTrack. destruct (negb _); [exact He|].
    destruct (IOS.bundle e !! audioFile) as [[|]|]; try exact He.
    split; [|split; assumption]. intros i. specialize (Htracks i). cbn.
    rewrite !lookup_insert. case_decide; [subst; cbn; auto | exact Htracks].
  - unfold IOS.setVolume.
    destruct (IOS.players e !! trackId) as [p|] eqn:Hp; [|exact He].
    split; [|split; assumption]. intros i. pose proof (Htracks i) as Hi. cbn.
    rewrite lookup_insert, lookup_alter. case_decide; [subst|exact Hi].
    rewrite Hp in Hi.
    destruct (IOS.audioFiles e !! i), (IOS.trackConfigs e !! i); cbn in *; auto.
  - unfold IOS.setPanning.
    destruct (IOS.players e !! trackId) as [p|] eqn:Hp; [|exact He].
    split; [|split; assumption]. intros i. pose proof (Htracks i) as Hi. cbn.
    rewrite lookup_insert, lookup_alter. case_decide; [subst|exact Hi].
    rewrite Hp in Hi.
    destruct (IOS.audioFiles e !! i), (IOS.trackConfigs e !! i); cbn in *; auto.
  - unfold IOS.play. destruct (negb _); [exact He|].
    destruct (_ && _); [exact He|].
    split; [|split; assumption]. intros i. specialize (Htracks i). cbn.
    rewrite !map_lookup_imap.
    destruct (IOS.players e !! i) as [p|], (IOS.audioFiles e !! i) as [f|],
      (IOS.trackConfigs e !! i) as [c0|]; cbn in *; try tauto.
    destruct Htracks as (Hflag & Hfile & Hid).
    destruct (Qltb 0 (IOS.tc_volume c0)); cbn; auto.
    destruct (IOS.pn_isPlaying p) eqn:E; cbn; rewrite ?E; auto.
  - split; [|split; assumption]. intros i. specialize (Htracks i). cbn.
    rewrite lookup_fmap, map_lookup_imap.
    destruct (IOS.players e !! i) as [p|], (IOS.audioFiles e !! i) as [f|],
      (IOS.trackConfigs e !! i) as [c0|]; cbn in *; try tauto.
  - apply Hstop, He.
  - split; [exact Htracks|]. split; [reflexivity|]. cbn. split; eauto.
  - unfold IOS.timerFires. destruct (IOS.playbackTimer e); [|exact He].
    unfold IOS.handleTimerTick.
    destruct (IOS.timerConfig e) as [config|] eqn:Hcfg; [|exact He].
    destruct (IOS.timerStartTime e) as [startTime|] eqn:Hst; [|exact He].
    destruct (Qle_bool _ 0).
    + unfold IOS.handleTimerExpired. apply Hstop.
      split; [exact Htracks|]. split; [reflexivity|]. cbn. split; intros [? ?]; discriminate.
    + destruct (IOS.tm_fadeOut config && _); [|exact He].
      split; [|exact (proj2 He)]. intros i. specialize (Htracks i). cbn.
      rewrite lookup_fmap.
      destruct (IOS.players e !! i) as [p|], (IOS.audioFiles e !! i) as [f|],
        (IOS.trackConfigs e !! i) as [c0|]; cbn in *; try tauto.
  - exact He.
Qed.

Lemma ios_run_consistent (calls : list IOS.Call) (e : IOS.Engine) :
  Invariants.ios_consistent e -> Invariants.ios_consistent (IOS.run calls e).
Proof.
  revert e. induction calls as [|c calls IH]; intros e He; [exact He|].
  cbn. apply IH, ios_step_consistent, He.
Qed.

(** X14. After every history from a fresh iOS engine: player nodes, audio
    files and configurations have the same ids; every [isPlaying] flag is
    true exactly when its node is playing; and the timer, its configuration
    and its start time are present together or absent together. *)
Theorem ios_history_consistent (calls : list IOS.Call) (clock : Q) (output : bool)
    (resources : gmap string bool) :
  let e := IOS.run calls (IOS.create clock output resources) in
  (forall trackId,
      (is_Some (IOS.players e !! trackId) <-> is_Some (IOS.trackConfigs e !! trackId)) /\
      (is_Some (IOS.players e !! trackId) <-> is_Some (IOS.audioFiles e !! trackId))) /\
  (forall trackId player config,
      IOS.players e !! trackId = Some player ->
      IOS.trackConfigs e !! trackId = Some config ->
      IOS.tc_isPlaying config = IOS.pn_isPlaying player /\ IOS.tc_id config = trackId) /\
  (IOS.playbackTimer e = true <-> is_Some (IOS.timerConfig e)) /\
  (is_Some (IOS.timerConfig e) <-> is_Some (IOS.timerStartTime e)).
Proof.
  intros e.
  assert (He : Invariants.ios_consistent e).
  { apply ios_run_consistent. split; [|split; [reflexivity|]].
    - intros i. cbn. rewrite !lookup_empty. exact I.
    - cbn. split; intros [? ?]; discriminate. }
  destruct He as (Htracks & Htimer & Hstart). split; [|split; [|split]].
  - intros i. specialize (Htracks i).
    destruct (IOS.players e !! i), (IOS.audioFiles e !! i), (IOS.trackConfigs e !! i);
      cbn in *; try contradiction;
      split; split; intros [? ?]; try discriminate; eauto.
  - intros i p c0 Hp Hc. specialize (Htracks i). rewrite Hp, Hc in Htracks.
    destruct (IOS.audioFiles e !! i); cbn in *; [tauto | contradiction].
  - rewrite Htimer. destruct (IOS.timerConfig e); split; intros H;
      try discriminate; eauto. destruct H; discriminate.
  - exact Hstart.
Qed.

(** X15. On iOS the volume and the pan of a track are independent: [setVolume]
    leaves the node's pan and [setPanning] the node's volume as they are,
    and the two calls give the same engine in either order. *)
Theorem ios_setVolume_setPanning_commute (e : IOS.Engine) (trackId : string)
    (volume pan : Q) :
  fst (IOS.setPanning trackId pan (fst (IOS.setVolume trackId volume e)))
  = fst (IOS.setVolume trackId volume (fst (IOS.setPanning trackId pan e))) /\
  (forall player,
      IOS.players e !! trackId = Some player ->
      IOS.players (fst (IOS.setVolume trackId volume e)) !! trackId
      = Some (IOS.mkNode (clampVolume volume) (IOS.pn_pan player)
                         (IOS.pn_isPlaying player) (IOS.pn_scheduled player)) /\
      IOS.players (fst (IOS.setPanning trackId pan e)) !! trackId
      = Some (IOS.mkNode (IOS.pn_volume player) (clampPan pan)
                         (IOS.pn_isPlaying player) (IOS.pn_scheduled player))).
Proof.
  split.
  - unfold IOS.setVolume, IOS.setPanning.
    destruct (IOS.players e !! trackId) as [p|] eqn:Hp; cbn; [|rewrite Hp; reflexivity].
    rewrite !lookup_insert_eq. cbn.
    apply ios_engine_eq; cbn; try reflexivity.
    + rewrite !insert_insert_eq. reflexivity.
    + apply map_eq. intros i. rewrite !lookup_alter.
      repeat case_decide; try congruence.
      destruct (IOS.trackConfigs e !! trackId); reflexivity.
  - intros player Hp. unfold IOS.setVolume, IOS.setPanning. rewrite Hp. cbn.
    rewrite !lookup_insert_eq. auto.
Qed.

(** X16. When the remaining time is used up, the iOS tick stops every node,
    clears every flag of a track with a node, stops the audio engine, tears
    the timer down, and the timer firing again changes nothing. *)
Theorem ios_tick_expires_once (e : IOS.Engine) (config : IOS.TimerConfig)
    (startTime : Q) :
  IOS.timerConfig e = Some config ->
  IOS.timerStartTime e = Some startTime ->
  IOS.remainingTime config startTime e <= 0 ->
  let e' := IOS.handleTimerTick e in
  IOS.timerConfig e' = None /\ IOS.timerStartTime e' = None /\
  IOS.playbackTimer e' = false /\
  IOS.isPlaying e' = false /\ IOS.engineRunning e' = false /\
  (forall trackId player,
      IOS.players e' !! trackId = Some player ->
      IOS.pn_isPlaying player = false /\ IOS.pn_scheduled player = 0%nat) /\
  (forall trackId player c,
      IOS.players e' !! trackId = Some player ->
      IOS.trackConfigs e' !! trackId = Some c -> IOS.tc_isPlaying c = false) /\
  IOS.handleTimerTick e' = e' /\ IOS.timerFires e' = e'.
Proof.
  intros Hcfg Hst Hrem e'.
  assert (Heq : e' = fst (IOS.stop (IOS.cancelTimer e))).
  { subst e'. unfold IOS.handleTimerTick. rewrite Hcfg, Hst. cbv zeta.
    apply Qle_bool_iff in Hrem. rewrite Hrem. reflexivity. }
  clearbody e'. subst e'. cbn.
  repeat split.
  - rewrite lookup_fmap in H. destruct (IOS.players e !! trackId); [|discriminate].
    cbn in H. injection H as <-. reflexivity.
  - rewrite lookup_fmap in H. destruct (IOS.players e !! trackId); [|discriminate].
    cbn in H. injection H as <-. reflexivity.
  - intros trackId player c Hp Hc.
    rewrite lookup_fmap in Hp. rewrite map_lookup_imap in Hc.
    destruct (IOS.players e !! trackId) as [p0|]; [|discriminate].
    destruct (IOS.trackConfigs e !! trackId) as [c0|]; [|discriminate].
    cbn in Hc. injection Hc as <-. reflexivity.
Qed.

Lemma ios_tick_expires_once_witness :
  IOS.timerConfig
    (IOS.handleTimerTick
       (IOS.run [IOS.Initialize; IOS.AddTrack "rain" "rain.ogg"; IOS.Play;
                 IOS.SetTimer (1 # 6) true (1 # 6); IOS.Elapse 10] Scenario.ios0))
  = None.
Proof.
  refine (proj1 (ios_tick_expires_once
    (IOS.run [IOS.Initialize; IOS.AddTrack "rain" "rain.ogg"; IOS.Play;
              IOS.SetTimer (1 # 6) true (1 # 6); IOS.Elapse 10] Scenario.ios0)
    (IOS.mkTimer ((1 # 6) * 60) true ((1 # 6) * 60)) 0 eq_refl eq_refl _)).
  vm_compute. discriminate.
Defined.


(** ** The bridge: guards and failures *)

Section BridgeGuards.
Context {N : Type} `{NativeModule N}.

Lemma validateInitialized_rejects {A} (k : unit -> Bridge.M A) (s : Bridge.State N) :
  Bridge.isInitialized s = false ->
  Bridge.bind Bridge.validateInitialized k s = (s, Bridge.Throw "ENGINE_NOT_INITIALIZED").
Proof.
  intros Hinit. unfold Bridge.bind, Bridge.validateInitialized. rewrite Hinit. reflexivity.
Qed.

Lemma bridge_setVolume_uninitialized (s : Bridge.State N) (trackId : string) (volume : Q) :
  Bridge.isInitialized s = false ->
  Bridge.setVolume trackId volume s = (s, Bridge.Throw "ENGINE_NOT_INITIALIZED").
Proof. apply validateInitialized_rejects. Qed.

(** A session without [initialize] on a bridge that is not initialised, in
    front of a module that lacks the optional methods. *)
Lemma session_uninitialized (calls : list Session.Call) (s : Bridge.State N) :
  nm_removeTrack = None -> nm_getTracks = None -> nm_playTrack = None ->
  nm_pauseTrack = None -> nm_cancelTimer = None ->
  Bridge.isInitialized s = false ->
  Session.Initialize ∉ calls ->
  Session.run calls s = s.
Proof.
  intros Hrm Hget Hplay Hpause Hcancel. revert s.
  induction calls as [|c calls IH]; intros s Hinit Hcalls; [reflexivity|].
  apply not_elem_of_cons in Hcalls as [Hc Hcalls].
  assert (Hstep : Session.perform c s = s).
  { destruct c; try congruence; cbn [Session.perform].
    - unfold Bridge.addTrack. rewrite validateInitialized_rejects by exact Hinit. reflexivity.
    - unfold Bridge.removeTrack. rewrite Hrm. unfold Bridge.try_catch.
      rewrite bridge_setVolume_uninitialized by exact Hinit. reflexivity.
    - unfold Bridge.getTracks. rewrite Hget. reflexivity.
    - rewrite bridge_setVolume_uninitialized by exact Hinit. reflexivity.
    - unfold Bridge.setPanning. rewrite validateInitialized_rejects by exact Hinit. reflexivity.
    - unfold Bridge.setMasterVolume.
      rewrite validateInitialized_rejects by exact Hinit. reflexivity.
    - unfold Bridge.play. rewrite validateInitialized_rejects by exact Hinit. reflexivity.
    - unfold Bridge.pause. rewrite validateInitialized_rejects by exact Hinit. reflexivity.
    - unfold Bridge.stop. rewrite validateInitialized_rejects by exact Hinit. reflexivity.
    - unfold Bridge.playTrack. rewrite Hplay. unfold Bridge.try_catch.
      rewrite bridge_setVolume_uninitialized by exact Hinit. reflexivity.
    - unfold Bridge.pauseTrack. rewrite Hpause. unfold Bridge.try_catch.
      rewrite bridge_setVolume_uninitialized by exact Hinit. reflexivity.
    - unfold Bridge.setTimer. rewrite validateInitialized_rejects by exact Hinit. reflexivity.
    - unfold Bridge.cancelTimer. rewrite Hcancel. reflexivity.
    - unfold Bridge.loadScene. rewrite validateInitialized_rejects by exact Hinit. reflexivity. }
  cbn. rewrite Hstep. apply IH; assumption.
Qed.

End BridgeGuards.



(** X18. When the native [addTrack] fails (on Android the file is not a
    playable asset; on iOS it is missing from the bundle or unreadable), the
    bridge's [addTrack] on an initialised bridge resolves to [false], emits
    one error event with the code TRACK_NOT_FOUND for that id, and the
    native engine is exactly as before. *)
Theorem bridge_addTrack_failure :
  (forall (s : Bridge.State Android.Engine) trackId audioFile,
      Bridge.isInitialized s = true ->
      Android.assets (Bridge.native s) !! audioFile = None ->
      Bridge.addTrack trackId audioFile s
      = (Bridge.mkState true (Bridge.native s)
           (Bridge.emitted s ++ [Bridge.EvError "TRACK_NOT_FOUND" (Some trackId)]),
         Bridge.Normal false)) /\
  (forall (s : Bridge.State IOS.Engine) trackId audioFile,
      Bridge.isInitialized s = true ->
      IOS.bundle (Bridge.native s) !! audioFile <> Some true ->
      Bridge.addTrack trackId audioFile s
      = (Bridge.mkState true (Bridge.native s)
           (Bridge.emitted s ++ [Bridge.EvError "TRACK_NOT_FOUND" (Some trackId)]),
         Bridge.Normal false)).
Proof.
  split.
  - intros s trackId audioFile Hinit Hasset.
    rewrite bridge_addTrack_run by exact Hinit.
    unfold Android.addTrack. rewrite Hasset.
    destruct (negb (Android.isInitialized (Bridge.native s))); reflexivity.
  - intros [init n ev] trackId audioFile Hinit Hres. cbn in Hinit, Hres. subst init.
    unfold Bridge.addTrack, Bridge.bind. cbn.
    unfold Bridge.try_catch, Bridge.await. cbn. unfold IOS.addTrack.
    destruct (negb (IOS.isInitialized n)); [reflexivity|].
    destruct (IOS.bundle n !! audioFile) as [[|]|]; try reflexivity. congruence.
Qed.

Lemma bridge_addTrack_failure_witness :
  Bridge.addTrack "wind" "wind.ogg" Scenario.bridge_rain
  = (Bridge.mkState true (Bridge.native Scenario.bridge_rain)
       (Bridge.emitted Scenario.bridge_rain
          ++ [Bridge.EvError "TRACK_NOT_FOUND" (Some "wind")]),
     Bridge.Normal false).
Proof.
  destruct bridge_addTrack_failure as [Handroid _].
  apply Handroid; reflexivity.
Defined.

(** X19. On an initialised bridge in front of the Android engine, setting a
    valid volume and then a valid pan on a track that is present: both calls
    resolve to [true], the events [volumeChanged] and [panningChanged] are
    emitted with the values given, the values are stored unchanged, and the
    player gets the pan law of the two. *)
Theorem bridge_set_then_read (s : Bridge.State Android.Engine) (trackId : string)
    (volume pan : Q) (player : Android.MediaPlayer) (c : Android.TrackConfig) :
  Bridge.isInitialized s = true ->
  Android.players (Bridge.native s) !! trackId = Some player ->
  Android.trackConfigs (Bridge.native s) !! trackId = Some c ->
  0 <= volume <= 1 -> -1 <= pan <= 1 ->
  let r1 := Bridge.setVolume trackId volume s in
  let r2 := Bridge.setPanning trackId pan (fst r1) in
  let gains := Android.panGains (volume * Android.masterVolume (Bridge.native s)) pan in
  snd r1 = Bridge.Normal true /\ snd r2 = Bridge.Normal true /\
  Bridge.emitted (fst r2)
  = Bridge.emitted s ++ [Bridge.EvVolumeChanged trackId volume]
                     ++ [Bridge.EvPanningChanged trackId pan] /\
  exists player' c',
    Android.players (Bridge.native (fst r2)) !! trackId = Some player' /\
    Android.trackConfigs (Bridge.native (fst r2)) !! trackId = Some c' /\
    Android.tc_volume c' == volume /\ Android.tc_pan c' == pan /\
    Android.mp_left player' == fst gains /\ Android.mp_right player' == snd gains.
Proof.
  intros Hinit Hp Hc Hv Hpan r1 r2 gains. subst r1 r2 gains.
  destruct (android_setVolume_present (Bridge.native s) trackId volume player Hp)
    as (Hres1 & Hp1 & Hc1 & _).
  cbv zeta in Hp1, Hc1. rewrite Hc in Hc1. cbn in Hc1.
  rewrite (bridge_setVolume_valid s trackId volume Hinit Hv).
  destruct (Android.setVolume trackId volume (Bridge.native s)) as [n1 res1] eqn:E1.
  cbn in Hres1, Hp1, Hc1. subst res1. cbn [fst snd].
  assert (Hmv : Android.masterVolume n1 = Android.masterVolume (Bridge.native s)).
  { unfold Android.setVolume in E1. rewrite Hp in E1. injection E1 as <-. reflexivity. }
  destruct (setPanning_applies_panGains n1 trackId pan _ _ Hp1 Hc1) as (Hres2 & Hp2 & Hc2).
  cbv zeta in Hp2, Hc2.
  rewrite bridge_setPanning_valid by (cbn; auto). cbn [Bridge.native Bridge.emitted].
  destruct (Android.setPanning trackId pan n1) as [n2 res2].
  cbn in Hres2, Hp2, Hc2. subst res2. cbn [fst snd Bridge.native Bridge.emitted].
  split; [reflexivity|]. split; [reflexivity|].
  split; [rewrite <- app_assoc; reflexivity|].
  eexists _, _. split; [exact Hp2|]. split; [exact Hc2|]. cbn.
  rewrite Hmv.
  pose proof (clampVolume_id volume Hv) as Hcv. pose proof (clampPan_id pan Hpan) as Hcp.
  split; [exact Hcv|]. split; [exact Hcp|].
  unfold Android.panGains.
  assert (Hb : Qltb (clampPan pan) 0 = Qltb pan 0).
  { unfold Qltb. f_equal. rewrite Hcp. reflexivity. }
  rewrite Hb. destruct (Qltb pan 0); cbn; rewrite ?Hcv, ?Hcp; split; reflexivity.
Qed.

Lemma bridge_set_then_read_witness :
  snd (Bridge.setVolume "rain" (4 # 5) Scenario.bridge_rain) = Bridge.Normal true.
Proof.
  refine (proj1 (bridge_set_then_read Scenario.bridge_rain "rain" (4 # 5) (- (1 # 2))
            (Android.mp_new 60000)
            (Android.newTrackConfig "rain" "rain.ogg" "rain.ogg")
            eq_refl eq_refl eq_refl _ _)); lra.
Defined.


(** ** The bridge: what its fallbacks do *)

Lemma session_calls_only {N : Type} `{NativeModule N} (calls : list Session.Call)
    (s : Bridge.State N) :
  rtc Bridge.invoked (Bridge.native s) (Bridge.native (Session.run calls s)).
Proof.
  revert s. induction calls as [|c calls IH]; intros s; [constructor|].
  cbn. etransitivity; [|apply IH].
  destruct c; cbn [Session.perform].
  - apply BridgeFacts.calls_only_initialize.
  - apply BridgeFacts.calls_only_addTrack.
  - apply BridgeFacts.calls_only_removeTrack.
  - apply BridgeFacts.calls_only_getTracks.
  - apply BridgeFacts.calls_only_setVolume.
  - apply BridgeFacts.calls_only_setPanning.
  - apply BridgeFacts.calls_only_setMasterVolume.
  - apply BridgeFacts.calls_only_play.
  - apply BridgeFacts.calls_only_pause.
  - apply BridgeFacts.calls_only_stop.
  - apply BridgeFacts.calls_only_playTrack.
  - apply BridgeFacts.calls_only_pauseTrack.
  - apply BridgeFacts.calls_only_setTimer.
  - apply BridgeFacts.calls_only_cancelTimer.
  - apply BridgeFacts.calls_only_loadScene.
Qed.

(** X20. No sequence of bridge calls ever takes a track out of the Android
    engine: a track that has a player (a configuration) before the sequence
    has one after it, [removeTrack] and [loadScene] included; and no player
    is released. *)
Theorem bridge_session_never_removes (calls : list Session.Call)
    (s : Bridge.State Android.Engine) (trackId : string) :
  (is_Some (Android.players (Bridge.native s) !! trackId) ->
   is_Some (Android.players (Bridge.native (Session.run calls s)) !! trackId)) /\
  (is_Some (Android.trackConfigs (Bridge.native s) !! trackId) ->
   is_Some (Android.trackConfigs (Bridge.native (Session.run calls s)) !! trackId)) /\
  Android.released (Bridge.native (Session.run calls s))
  = Android.released (Bridge.native s).
Proof.
  pose proof (session_calls_only calls s) as Hrtc.
  induction Hrtc as [n|n n' n'' Hi _ IH].
  - auto.
  - destruct (android_invoked_keeps_tracks n n' Hi trackId) as [Hp Hc].
    destruct IH as (Hp' & Hc' & Hrel').
    split; [auto|]. split; [auto|]. rewrite Hrel'.
    destruct (android_invoked_step n n' Hi) as [c ->].
    inversion Hi; subst; try discriminate; cbn;
      unfold Android.addTrack, Android.setVolume, Android.setPanning, Android.play;
      repeat case_match; reflexivity.
Qed.

Lemma bridge_session_never_removes_witness :
  is_Some (Android.players
             (Bridge.native (Session.run [Session.RemoveTrack "rain";
                                          Session.LoadScene (inr Scenario.scene_ocean)]
                                         Scenario.bridge_rain)) !! "rain").
Proof.
  apply (proj1 (bridge_session_never_removes
                  [Session.RemoveTrack "rain"; Session.LoadScene (inr Scenario.scene_ocean)]
                  Scenario.bridge_rain "rain")).
  vm_compute. eauto.
Defined.

Lemma loadScene_into_empty_engine_witness :
  snd (Bridge.loadScene (inr Scenario.scene_ocean)
         (fst (Bridge.initialize Scenario.bridge0))) = Bridge.Normal true.
Proof.
  refine (proj1 (loadScene_into_empty_engine Scenario.scene_ocean
            (fst (Bridge.initialize Scenario.bridge0)) eq_refl eq_refl eq_refl eq_refl _ _)).
  - repeat constructor; cbn; try lra. vm_compute. eauto.
  - cbn. repeat constructor. intros Hin. inversion Hin.
Defined.

(** X21. The bridge's [cancelTimer] cancels nothing: neither native module
    has a [cancelTimer], the call resolves to [true] and the whole state is
    as before, the armed timer included; when the time is up, the Android
    timer still stops the playback. *)
Theorem bridge_cancelTimer_keeps_timer :
  (forall s : Bridge.State Android.Engine, Bridge.cancelTimer s = (s, Bridge.Normal true)) /\
  (forall s : Bridge.State IOS.Engine, Bridge.cancelTimer s = (s, Bridge.Normal true)) /\
  (forall (s : Bridge.State Android.Engine) config,
      Android.timerConfig (Bridge.native s) = Some config ->
      Android.timerRunnable (Bridge.native s) = true ->
      (Android.remainingTime config (Bridge.native s) <= 0)%Z ->
      let n' := Android.timerFires (Bridge.native (fst (Bridge.cancelTimer s))) in
      Android.isPlaying n' = false /\
      forall trackId player,
        Android.players n' !! trackId = Some player -> Android.mp_isPlaying player = false).
Proof.
  split; [reflexivity|]. split; [reflexivity|].
  intros s config Hcfg Hrun Hrem n'. subst n'. cbn [Bridge.cancelTimer fst].
  change (Bridge.native (fst (Bridge.cancelTimer s))) with (Bridge.native s).
  unfold Android.timerFires. rewrite Hrun.
  assert (Heq : Android.handleTimerTick (Bridge.native s)
                = fst (Android.stop (Android.cancelTimer (Bridge.native s)))).
  { unfold Android.handleTimerTick. rewrite Hcfg. cbv zeta.
    destruct (Z.leb_spec (Android.remainingTime config (Bridge.native s)) 0) as [_|Hgt];
      [reflexivity | lia]. }
  rewrite Heq.
  destruct (android_stop_effects (Android.cancelTimer (Bridge.native s)))
    as (_ & Hplaying & _ & _ & _ & Hidle & _).
  split; [exact Hplaying | exact Hidle].
Qed.

Lemma bridge_cancelTimer_keeps_timer_witness :
  let s := Bridge.mkState true
             (Android.run [Android.Initialize; Android.AddTrack "rain" "rain.ogg";
                           Android.Play; Android.SetTimer 5 true 2; Android.Elapse 300000]
                          Scenario.android0) [] in
  Android.isPlaying (Android.timerFires (Bridge.native (fst (Bridge.cancelTimer s)))) = false.
Proof.
  intros s.
  destruct bridge_cancelTimer_keeps_timer as (_ & _ & Hexpire).
  apply (Hexpire s (Android.mkTimer 300000 true 120000)).
  - reflexivity.
  - reflexivity.
  - vm_compute. discriminate.
Defined.

(** X22. [pauseTrack] is [setVolume(id, 0)] and [playTrack] is
    [setVolume(id, 1)], since neither native module has them.  On an
    initialised bridge in front of the Android engine, pausing and then
    playing a track that is present resolves to [true] twice and leaves the
    track with a stored volume of 1, whatever its volume was, with both
    channels at the master volume; its player is neither paused nor started:
    state and position are as before. *)
Theorem bridge_pauseTrack_then_playTrack (s : Bridge.State Android.Engine)
    (trackId : string) (player : Android.MediaPlayer) (c : Android.TrackConfig) :
  Bridge.isInitialized s = true ->
  Android.players (Bridge.native s) !! trackId = Some player ->
  Android.trackConfigs (Bridge.native s) !! trackId = Some c ->
  let r1 := Bridge.pauseTrack trackId s in
  let r2 := Bridge.playTrack trackId (fst r1) in
  snd r1 = Bridge.Normal true /\ snd r2 = Bridge.Normal true /\
  (exists c1, Android.trackConfigs (Bridge.native (fst r1)) !! trackId = Some c1 /\
              Android.tc_volume c1 == 0 /\
              Android.tc_isPlaying c1 = Android.tc_isPlaying c) /\
  exists player' c',
    Android.players (Bridge.native (fst r2)) !! trackId = Some player' /\
    Android.trackConfigs (Bridge.native (fst r2)) !! trackId = Some c' /\
    Android.tc_volume c' == 1 /\ Android.tc_pan c' = Android.tc_pan c /\
    Android.tc_isPlaying c' = Android.tc_isPlaying c /\
    Android.mp_state player' = Android.mp_state player /\
    Android.mp_position player' = Android.mp_position player /\
    Android.mp_left player' == Android.masterVolume (Bridge.native s) /\
    Android.mp_right player' == Android.masterVolume (Bridge.native s).
Proof.
  intros Hinit Hp Hc r1 r2.
  assert (H0 : 0 <= 0 <= 1) by lra. assert (H1 : 0 <= 1 <= 1) by lra.
  destruct (android_setVolume_present (Bridge.native s) trackId 0 player Hp)
    as (Hres1 & Hp1 & Hc1 & _).
  cbv zeta in Hp1, Hc1. rewrite Hc in Hc1. cbn in Hc1.
  destruct (Android.setVolume trackId 0 (Bridge.native s)) as [n1 res1] eqn:E1.
  cbn in Hres1, Hp1, Hc1. subst res1.
  assert (Hmv : Android.masterVolume n1 = Android.masterVolume (Bridge.native s)).
  { unfold Android.setVolume in E1. rewrite Hp in E1. injection E1 as <-. reflexivity. }
  set (s1 := Bridge.mkState true n1
               (Bridge.emitted s ++ [Bridge.EvVolumeChanged trackId 0])).
  assert (Er1 : r1 = (s1, Bridge.Normal true)).
  { subst r1. change (Bridge.pauseTrack trackId s)
      with (Bridge.try_catch (Bridge.setVolume trackId 0) (fun _ => Bridge.ret false) s).
    unfold Bridge.try_catch.
    rewrite (bridge_setVolume_valid s trackId 0 Hinit H0), E1. reflexivity. }
  destruct (android_setVolume_present n1 trackId 1 _ Hp1) as (Hres2 & Hp2 & Hc2 & _).
  cbv zeta in Hp2, Hc2. rewrite Hc1 in Hc2. cbn in Hc2.
  destruct (Android.setVolume trackId 1 n1) as [n2 res2] eqn:E2.
  cbn in Hres2, Hp2, Hc2. subst res2.
  assert (Er2 : r2 = (Bridge.mkState true n2
                        (Bridge.emitted s1 ++ [Bridge.EvVolumeChanged trackId 1]),
                      Bridge.Normal true)).
  { subst r2. rewrite Er1. cbn [fst].
    change (Bridge.playTrack trackId s1)
      with (Bridge.try_catch (Bridge.setVolume trackId 1) (fun _ => Bridge.ret false) s1).
    unfold Bridge.try_catch.
    rewrite (bridge_setVolume_valid s1 trackId 1 eq_refl H1). cbn [Bridge.native s1].
    rewrite E2. reflexivity. }
  rewrite Er2, Er1. cbn [fst snd Bridge.native s1].
  split; [reflexivity|]. split; [reflexivity|]. split.
  - eexists. split; [exact Hc1|]. cbn. split; reflexivity.
  - eexists _, _. split; [exact Hp2|]. split; [exact Hc2|]. cbn. rewrite Hmv.
    repeat split; try reflexivity.
    + change (clampVolume 1) with 1. ring.
    + change (clampVolume 1) with 1. ring.
Qed.

Lemma bridge_pauseTrack_then_playTrack_witness :
  snd (Bridge.playTrack "rain" (fst (Bridge.pauseTrack "rain" Scenario.bridge_rain_playing)))
  = Bridge.Normal true.
Proof.
  destruct (bridge_pauseTrack_then_playTrack Scenario.bridge_rain_playing "rain"
              (Android.mp_start (Android.mp_new 60000))
              (Android.tc_with_isPlaying true
                 (Android.newTrackConfig "rain" "rain.ogg" "rain.ogg"))
              eq_refl eq_refl eq_refl) as (_ & Hres & _).
  exact Hres.
Defined.

(** X23. On iOS, when the audio engine is not running and cannot be started,
    the native [play] rejects with PLAYBACK_FAILED before any node is
    touched, and the bridge's [play] on an initialised bridge resolves to
    [false] after one error event with the code PLAYBACK_FAILED; the native
    engine is exactly as before and no [playbackStarted] is emitted. *)
Theorem ios_play_failure (s : Bridge.State IOS.Engine) :
  Bridge.isInitialized s = true ->
  IOS.isInitialized (Bridge.native s) = true ->
  IOS.engineRunning (Bridge.native s) = false ->
  IOS.outputAvailable (Bridge.native s) = false ->
  IOS.play (Bridge.native s) = (Bridge.native s, Reject "PLAYBACK_FAILED") /\
  Bridge.play s
  = (Bridge.mkState true (Bridge.native s)
       (Bridge.emitted s ++ [Bridge.EvError "PLAYBACK_FAILED" None]),
     Bridge.Normal false).
Proof.
  intros Hinit Hninit Hrun Hout.
  assert (Hplay : IOS.play (Bridge.native s) = (Bridge.native s, Reject "PLAYBACK_FAILED")).
  { unfold IOS.play. rewrite Hninit, Hrun, Hout. reflexivity. }
  split; [exact Hplay|].
  destruct s as [init n ev]. cbn in *. subst init.
  unfold Bridge.play, Bridge.bind at 1. cbn.
  unfold Bridge.try_catch, Bridge.bind, Bridge.await. cbn. rewrite Hplay. reflexivity.
Qed.

Lemma ios_play_failure_witness :
  let s := Bridge.mkState true
             (IOS.run [IOS.Initialize; IOS.AddTrack "rain" "rain.ogg"]
                      (IOS.create 0 false Scenario.resources)) [] in
  Bridge.play s
  = (Bridge.mkState true (Bridge.native s) [Bridge.EvError "PLAYBACK_FAILED" None],
     Bridge.Normal false).
Proof.
  intros s. apply (proj2 (ios_play_failure s eq_refl eq_refl eq_refl eq_refl)).
Defined.


(** ** The listener registry *)

Lemma listeners_apply_well_formed (op : Listeners.Op) (r : Listeners.Registry) :
  Listeners.well_formed r -> Listeners.well_formed (Listeners.apply op r).
Proof.
  unfold Listeners.well_formed. intros Hr.
  destruct op as [event listener|event listener]; cbn [Listeners.apply].
  - unfold Listeners.addEventListener. cbv zeta.
    intros ev ls. rewrite lookup_alter. case_decide as Hev; [subst ev|].
    + destruct (r !! event) as [ls0|] eqn:E.
      * rewrite E. cbn. intros [= <-]. destruct (Hr event ls0 E) as [Hne Hnd].
        unfold Listeners.set_add. case_decide; [auto|]. split.
        -- destruct ls0; discriminate.
        -- apply NoDup_app. repeat split; [exact Hnd | | apply NoDup_singleton].
           intros x Hx Hx'. apply list_elem_of_singleton in Hx'. subst. contradiction.
      * rewrite lookup_insert_eq. cbn. intros [= <-]. unfold Listeners.set_add.
        case_decide as Hin; [inversion Hin|]. cbn. split; [discriminate|].
        apply NoDup_singleton.
    + destruct (r !! event); [apply Hr|]. rewrite lookup_insert_ne by exact Hev. apply Hr.
  - unfold Listeners.removeEventListener.
    destruct (r !! event) as [ls0|] eqn:E; [|exact Hr].
    destruct (Nat.eqb_spec (length (Listeners.set_delete listener ls0)) 0) as [Hlen|Hlen].
    + intros ev ls Hev. apply lookup_delete_Some in Hev as [_ Hev]. exact (Hr ev ls Hev).
    + intros ev ls. rewrite lookup_insert. case_decide; [|apply Hr].
      intros [= <-]. split.
      * intros Hnil. rewrite Hnil in Hlen. contradiction.
      * unfold Listeners.set_delete. apply NoDup_filter, (Hr event ls0 E).
Qed.

Lemma listeners_run_well_formed (ops : list Listeners.Op) (r : Listeners.Registry) :
  Listeners.well_formed r -> Listeners.well_formed (Listeners.run ops r).
Proof.
  revert r. induction ops as [|op ops IH]; intros r Hr; [exact Hr|].
  cbn. apply IH, listeners_apply_well_formed, Hr.
Qed.

Lemma set_delete_not_elem (listener : nat) (listeners : list nat) :
  listener ∉ Listeners.set_delete listener listeners.
Proof.
  unfold Listeners.set_delete. rewrite list_elem_of_filter. intros [Hne _]. congruence.
Qed.

Lemma set_delete_absent (listener : nat) (listeners : list nat) :
  listener ∉ listeners -> Listeners.set_delete listener listeners = listeners.
Proof.
  unfold Listeners.set_delete. induction listeners as [|x xs IH]; intros Hnot; [reflexivity|].
  apply not_elem_of_cons in Hnot as [Hne Hnot].
  rewrite filter_cons_True by congruence. rewrite IH by exact Hnot. reflexivity.
Qed.

Lemma set_delete_added (listener : nat) (listeners : list nat) :
  listener ∉ listeners ->
  Listeners.set_delete listener (listeners ++ [listener]) = listeners.
Proof.
  intros Hnew. unfold Listeners.set_delete. rewrite filter_app.
  rewrite (filter_cons_False _ listener []) by (intros Hne; apply Hne; reflexivity).
  rewrite filter_nil, app_nil_r. apply set_delete_absent, Hnew.
Qed.

(** X24. In every registry built by [addEventListener] and
    [removeEventListener]: after adding a listener for an event, emitting
    that event calls it, and calls no listener twice; after removing it,
    emitting that event does not call it; and neither changes who is called
    for any other event. *)
Theorem listeners_delivery (ops : list Listeners.Op) (event : string) (listener : nat) :
  let r := Listeners.run ops ∅ in
  (listener ∈ Listeners.emitEvent event (Listeners.addEventListener event listener r)) /\
  NoDup (Listeners.emitEvent event (Listeners.addEventListener event listener r)) /\
  (listener ∉ Listeners.emitEvent event (Listeners.removeEventListener event listener r)) /\
  forall other, other <> event ->
    Listeners.emitEvent other (Listeners.addEventListener event listener r)
    = Listeners.emitEvent other r /\
    Listeners.emitEvent other (Listeners.removeEventListener event listener r)
    = Listeners.emitEvent other r.
Proof.
  intros r.
  assert (Hr : Listeners.well_formed r).
  { apply listeners_run_well_formed. intros ev ls Hev. rewrite lookup_empty in Hev.
    discriminate. }
  pose proof (listeners_apply_well_formed (Listeners.Add event listener) r Hr) as Hadd.
  cbn in Hadd. split; [|split; [|split]].
  - unfold Listeners.emitEvent, Listeners.addEventListener.
    rewrite lookup_alter, decide_True by reflexivity.
    destruct (r !! event) as [ls0|] eqn:E.
    + rewrite E. cbn. unfold Listeners.set_add. case_decide; [assumption|].
      apply elem_of_app. right. apply list_elem_of_singleton. reflexivity.
    + rewrite lookup_insert_eq. cbn. unfold Listeners.set_add.
      case_decide; [assumption|]. apply list_elem_of_singleton. reflexivity.
  - unfold Listeners.emitEvent.
    destruct (Listeners.addEventListener event listener r !! event) as [ls|] eqn:E;
      [apply (Hadd event ls E) | apply NoDup_nil_2].
  - unfold Listeners.emitEvent, Listeners.removeEventListener.
    destruct (r !! event) as [ls0|] eqn:E; [|rewrite E; apply not_elem_of_nil].
    destruct (length _ =? 0)%nat.
    + rewrite lookup_delete_eq. apply not_elem_of_nil.
    + rewrite lookup_insert_eq. apply set_delete_not_elem.
  - intros other Hother. unfold Listeners.emitEvent. split.
    + unfold Listeners.addEventListener. cbv zeta.
      rewrite lookup_alter, decide_False by congruence.
      destruct (r !! event); [reflexivity|]. rewrite lookup_insert_ne by congruence.
      reflexivity.
    + unfold Listeners.removeEventListener.
      destruct (r !! event) as [ls0|]; [|reflexivity].
      destruct (length _ =? 0)%nat.
      * rewrite lookup_delete_ne by congruence. reflexivity.
      * rewrite lookup_insert_ne by congruence. reflexivity.
Qed.

(** X25. In every registry built by [addEventListener] and
    [removeEventListener], adding a listener that is not registered for the
    event and removing it again gives the registry back as it was. *)
Theorem listeners_add_remove_round_trip (ops : list Listeners.Op) (event : string)
    (listener : nat) :
  let r := Listeners.run ops ∅ in
  listener ∉ Listeners.emitEvent event r ->
  Listeners.removeEventListener event listener
    (Listeners.addEventListener event listener r) = r.
Proof.
  intros r Hnew.
  assert (Hr : Listeners.well_formed r).
  { apply listeners_run_well_formed. intros ev ls Hev. rewrite lookup_empty in Hev.
    discriminate. }
  clearbody r. unfold Listeners.emitEvent in Hnew.
  unfold Listeners.removeEventListener, Listeners.addEventListener. cbv zeta.
  rewrite lookup_alter, decide_True by reflexivity.
  destruct (r !! event) as [ls0|] eqn:E.
  - rewrite E. cbn [fmap option_fmap option_map]. unfold Listeners.set_add.
    rewrite decide_False by exact Hnew.
    rewrite (set_delete_added listener ls0 Hnew). destruct (Hr event ls0 E) as [Hne _].
    destruct ls0 as [|x xs]; [contradiction|]. cbn [length Nat.eqb].
    apply map_eq. intros ev. rewrite lookup_insert, lookup_alter.
    case_decide; [subst; rewrite E; reflexivity | reflexivity].
  - rewrite lookup_insert_eq. cbn [fmap option_fmap option_map]. unfold Listeners.set_add.
    rewrite decide_False by apply not_elem_of_nil.
    rewrite (set_delete_added listener [] (not_elem_of_nil _)). cbn [length Nat.eqb].
    apply map_eq. intros ev. rewrite lookup_delete, lookup_alter.
    case_decide; [subst; rewrite E; reflexivity|].
    rewrite lookup_insert_ne by assumption. reflexivity.
Qed.

Lemma listeners_add_remove_round_trip_witness :
  let r := Listeners.run [Listeners.Add "error" 1%nat; Listeners.Add "timerExpired" 2%nat] ∅ in
  Listeners.removeEventListener "error" 3%nat (Listeners.addEventListener "error" 3%nat r) = r.
Proof.
  intros r.
  apply (listeners_add_remove_round_trip
           [Listeners.Add "error" 1%nat; Listeners.Add "timerExpired" 2%nat] "error" 3%nat).
  vm_compute. intros Hin. apply list_elem_of_In in Hin. cbn in Hin.
  destruct Hin as [Hin|[]]. discriminate.
Defined.

(** X26. The handlers of [setupEventListeners] re-emit a native event under
    its name without the leading "on", in lower case.  Of the seven native
    events only onInitialized and onError come out under the name of an
    [AudioEngineEvent]; so in a registry whose events are all
    [AudioEngineEvent]s, the arrival of any other native event
    (onTimerExpired, onPlaybackStopped, ...) calls no listener. *)
Theorem native_events_reach_only_two (r : Listeners.Registry) (eventName : string) :
  (forall event, is_Some (r !! event) -> event ∈ Utils.AudioEngineEvent) ->
  Listeners.onNativeEvent eventName r <> [] ->
  (eventName = "onInitialized" /\ Listeners.forwardedName eventName = "initialized") \/
  (eventName = "onError" /\ Listeners.forwardedName eventName = "error").
Proof.
  intros Htyped Hcalled. unfold Listeners.onNativeEvent in Hcalled.
  destruct (decide (eventName ∈ Listeners.nativeEvents)) as [Hin|_]; [|congruence].
  assert (Hkey : Listeners.forwardedName eventName ∈ Utils.AudioEngineEvent).
  { apply Htyped. unfold Listeners.emitEvent in Hcalled.
    destruct (r !! Listeners.forwardedName eventName); [eauto | congruence]. }
  unfold Listeners.nativeEvents in Hin.
  repeat (apply elem_of_cons in Hin as [->|Hin]);
    try (left; split; reflexivity); try (right; split; reflexivity);
    try (exfalso;
         match type of Hkey with
         | Listeners.forwardedName ?s ∈ _ =>
             let v := eval vm_compute in (Listeners.forwardedName s) in
             change (Listeners.forwardedName s) with v in Hkey
         end;
         unfold Utils.AudioEngineEvent in Hkey;
         repeat (apply elem_of_cons in Hkey as [Hkey|Hkey]; [discriminate|]);
         exact (not_elem_of_nil _ Hkey)).
  exfalso. eapply not_elem_of_nil. eassumption.
Qed.

Lemma native_events_reach_only_two_witness :
  let r := Listeners.run [Listeners.Add "initialized" 1%nat;
                          Listeners.Add "timerExpired" 2%nat] ∅ in
  Listeners.onNativeEvent "onTimerExpired" r = [] /\
  Listeners.onNativeEvent "onInitialized" r = [1%nat].
Proof.
  intros r. split; [|vm_compute; reflexivity].
  assert (Htyped : forall event, is_Some (r !! event) -> event ∈ Utils.AudioEngineEvent).
  { assert (Hr : r = <["timerExpired" := [2%nat]]> (<["initialized" := [1%nat]]> ∅))
      by (vm_compute; reflexivity).
    intros event [ls' Hev]. rewrite Hr in Hev.
    rewrite lookup_insert in Hev. case_decide.
    { subst. apply list_elem_of_In. cbn. tauto. }
    rewrite lookup_insert in Hev. case_decide.
    { subst. apply list_elem_of_In. cbn. tauto. }
    rewrite lookup_empty in Hev. discriminate. }
  destruct (Listeners.onNativeEvent "onTimerExpired" r) as [|l ls] eqn:E; [reflexivity|].
  assert (Hcalled : Listeners.onNativeEvent "onTimerExpired" r <> [])
    by (rewrite E; discriminate).
  destruct (native_events_reach_only_two r "onTimerExpired" Htyped Hcalled)
    as [[Hn _]|[Hn _]]; discriminate.
Defined.


(** ** Validity of volume and pan *)

(** X27. On every number but NaN, [isValidVolume] and [isValidPan] decide
    what the bridge's [validateVolume] and [validatePan] decide: they accept
    the finite values of the domain, which are the finite values that the
    native clamps leave as they are, and nothing else.  At NaN they part:
    [isValidVolume] and [isValidPan] answer [false], [validateVolume] and
    [validatePan] do not throw. *)
Theorem validity_checks_agree_except_at_NaN (x : number) :
  (Utils.isValidVolume x = true <-> exists q, x = Finite q /\ clampVolume q == q) /\
  (Utils.isValidPan x = true <-> exists q, x = Finite q /\ clampPan q == q) /\
  (forall s : Bridge.State Android.Engine,
      Bridge.validateVolume x s = (s, Bridge.Normal tt)
      <-> Utils.isValidVolume x = true \/ x = NaN) /\
  (forall s : Bridge.State Android.Engine,
      Bridge.validatePan x s = (s, Bridge.Normal tt)
      <-> Utils.isValidPan x = true \/ x = NaN) /\
  Utils.isValidVolume NaN = false /\ Utils.isValidPan NaN = false /\
  (forall s : Bridge.State Android.Engine,
      Bridge.validateVolume NaN s = (s, Bridge.Normal tt) /\
      Bridge.validatePan NaN s = (s, Bridge.Normal tt)).
Proof.
  assert (Hvolume : Utils.isValidVolume x = true
                    <-> exists q, x = Finite q /\ 0 <= q <= 1).
  { unfold Utils.isValidVolume.
    destruct x as [q| | |]; cbn;
      [|split; [discriminate | intros (q & [=] & _)]..].
    rewrite andb_true_iff, !Qle_bool_iff.
    split; [eauto | intros (q' & [= <-] & Hq); exact Hq]. }
  assert (Hpan : Utils.isValidPan x = true
                 <-> exists q, x = Finite q /\ -1 <= q <= 1).
  { unfold Utils.isValidPan.
    destruct x as [q| | |]; cbn;
      [|split; [discriminate | intros (q & [=] & _)]..].
    rewrite andb_true_iff, !Qle_bool_iff.
    split; [eauto | intros (q' & [= <-] & Hq); exact Hq]. }
  split; [|split; [|split; [|split; [|split; [|split]]]]].
  - rewrite Hvolume. split; intros (q & Hx & Hq); exists q; (split; [exact Hx|]).
    + apply clampVolume_id, Hq.
    + pose proof (clampVolume_range q) as Hr. rewrite Hq in Hr. exact Hr.
  - rewrite Hpan. split; intros (q & Hx & Hq); exists q; (split; [exact Hx|]).
    + apply clampPan_id, Hq.
    + pose proof (clampPan_range q) as Hr. rewrite Hq in Hr. exact Hr.
  - intros s. rewrite validateVolume_passes, Hvolume. tauto.
  - intros s. rewrite validatePan_passes, Hpan. tauto.
  - reflexivity.
  - reflexivity.
  - intros s. split; reflexivity.
Qed.

(** ** [destroy] *)

(** X28. Neither native module has a [destroy], so the bridge's [destroy]
    never touches the native engine: with its players playing and its timer
    armed it is exactly as before.  On Android [destroy] clears the listener
    registry and marks the bridge as not initialised; after that [stop]
    throws ENGINE_NOT_INITIALIZED and no sequence of bridge calls without
    [initialize] reaches the engine any more.  On iOS, when
    [removeAllListeners()] without an event type throws, [destroy] changes
    nothing at all: the bridge stays initialised, the listeners stay
    registered, and a later [stop] still stops the native engine; when it
    does not throw, [destroy] does what it does on Android. *)
Theorem destroy_leaves_the_engine_running :
  (forall (h : Host.State Android.Engine) (calls : list Session.Call),
      Session.Initialize ∉ calls ->
      let h' := Host.destroy h in
      Bridge.native (Host.bridge h') = Bridge.native (Host.bridge h) /\
      (forall event, Listeners.emitEvent event (Host.eventListeners h') = []) /\
      Bridge.stop (Host.bridge h') = (Host.bridge h', Bridge.Throw "ENGINE_NOT_INITIALIZED") /\
      Bridge.native (Session.run calls (Host.bridge h')) = Bridge.native (Host.bridge h)) /\
  (forall h : Host.State IOS.Engine,
      let h' := Host.destroy h in
      Bridge.native (Host.bridge h') = Bridge.native (Host.bridge h) /\
      (Host.removeAllListeners_throws h = true ->
         h' = h /\
         (Bridge.isInitialized (Host.bridge h) = true ->
            Bridge.native (fst (Bridge.stop (Host.bridge h')))
            = fst (IOS.stop (Bridge.native (Host.bridge h))))) /\
      (Host.removeAllListeners_throws h = false ->
         forall calls : list Session.Call,
           Session.Initialize ∉ calls ->
           (forall event, Listeners.emitEvent event (Host.eventListeners h') = []) /\
           Bridge.stop (Host.bridge h')
           = (Host.bridge h', Bridge.Throw "ENGINE_NOT_INITIALIZED") /\
           Bridge.native (Session.run calls (Host.bridge h'))
           = Bridge.native (Host.bridge h))).
Proof.
  split.
  - intros h calls Hcalls h'.
    assert (Hinit : Bridge.isInitialized (Host.bridge h') = false) by reflexivity.
    repeat split.
    rewrite (session_uninitialized calls (Host.bridge h')); auto.
  - intros [[init n ev] listeners throws] h'. subst h'.
    unfold Host.destroy, Host.cleanupEventListeners. cbn.
    split; [destruct throws; reflexivity|]. split.
    + intros ->. split; [reflexivity|]. intros ->.
      unfold Bridge.stop, Bridge.bind, Bridge.validateInitialized, Bridge.try_catch,
        Bridge.await. cbn.
      destruct (IOS.stop n) as [n' [[]|code]]; reflexivity.
    + intros -> calls Hcalls. repeat split.
      rewrite (session_uninitialized calls (Bridge.mkState false n ev)); auto.
Qed.

Lemma destroy_leaves_the_engine_running_witness :
  (let h := Host.mkState Scenario.bridge_rain_playing
              (Listeners.addEventListener "playbackStopped" 1%nat ∅) false in
   Android.isPlaying
     (Bridge.native (Session.run [Session.Stop; Session.Pause]
                                 (Host.bridge (Host.destroy h)))) = true) /\
  (let h := Host.mkState
              (Bridge.mkState true
                 (IOS.run [IOS.Initialize; IOS.AddTrack "rain" "rain.ogg"; IOS.Play]
                          Scenario.ios0) [])
              (Listeners.addEventListener "playbackStopped" 1%nat ∅) true in
   Host.destroy h = h /\
   IOS.isPlaying (Bridge.native (Host.bridge h)) = true /\
   IOS.isPlaying (Bridge.native (fst (Bridge.stop (Host.bridge (Host.destroy h)))))
   = false).
Proof.
  destruct destroy_leaves_the_engine_running as [Handroid Hios]. split.
  - intros h.
    assert (Hcalls : Session.Initialize ∉ [Session.Stop; Session.Pause]).
    { intros Hin. repeat (apply elem_of_cons in Hin as [Hin|Hin]; [discriminate|]).
      inversion Hin. }
    destruct (Handroid h _ Hcalls) as (_ & _ & _ & ->). reflexivity.
  - intros h. destruct (Hios h) as (_ & Hthrows & _).
    destruct (Hthrows eq_refl) as [Hsame Hstop].
    split; [exact Hsame|]. split; [vm_compute; reflexivity|].
    rewrite (Hstop eq_refl). vm_compute. reflexivity.
Defined.

(** ** Saving a scene *)

Lemma tracksData_lookup (configs : gmap string Android.TrackConfig) :
  (forall i c, configs !! i = Some c -> Android.tc_id c = i) ->
  forall i,
    Scenes.tracksData configs !! i
    = configs !! i ≫= (fun c =>
        if Qltb 0 (Android.tc_volume c)
        then Some (Scenes.mkTrackData (Android.tc_audioFile c) (Android.tc_volume c)
                                      (Android.tc_pan c))
        else None).
Proof.
  unfold Scenes.tracksData.
  apply (map_fold_weak_ind
    (fun tracks (m : gmap string Android.TrackConfig) =>
       (forall i c, m !! i = Some c -> Android.tc_id c = i) ->
       forall i, tracks !! i
                 = m !! i ≫= (fun c =>
                     if Qltb 0 (Android.tc_volume c)
                     then Some (Scenes.mkTrackData (Android.tc_audioFile c)
                                  (Android.tc_volume c) (Android.tc_pan c))
                     else None))).
  - intros _ i. rewrite !lookup_empty. reflexivity.
  - intros k c m tracks Hfresh IH Hids i.
    assert (Hk : Android.tc_id c = k) by (apply Hids, lookup_insert_eq).
    assert (Hm : forall j c', m !! j = Some c' -> Android.tc_id c' = j).
    { intros j c' Hj. apply Hids. rewrite lookup_insert_ne; [exact Hj|].
      intros ->. congruence. }
    specialize (IH Hm). rewrite Hk.
    rewrite (lookup_insert m k). case_decide as Hik.
    + subst i. cbn. destruct (Qltb 0 (Android.tc_volume c)).
      * rewrite lookup_insert_eq. reflexivity.
      * rewrite IH, Hfresh. reflexivity.
    + destruct (Qltb 0 (Android.tc_volume c)); [rewrite lookup_insert_ne by exact Hik|];
        apply IH.
Qed.

(** X29. After every history of the Android engine (calls with finite
    arguments), [saveScene] resolves to the scene id and stores under it a
    record with the given name whose tracks are exactly the tracks with a
    stored volume above 0, each under its id with its audio file, volume and
    pan as stored; every saved volume lies in (0, 1]; scenes stored under
    other ids are kept. *)
Theorem saveScene_snapshot (calls : list Android.Call) (clock : Z)
    (catalogue : gmap string Z) (sceneName : string) (r : Z)
    (preferences : gmap string Scenes.SceneData) :
  let e := Android.run calls (Android.create clock catalogue) in
  let id := Scenes.sceneId (Android.now e) r in
  let preferences' := fst (Scenes.saveScene sceneName r e preferences) in
  snd (Scenes.saveScene sceneName r e preferences) = Resolve id /\
  (forall other, other <> id -> preferences' !! other = preferences !! other) /\
  exists sceneData,
    preferences' !! id = Some sceneData /\
    Scenes.sd_id sceneData = id /\ Scenes.sd_sceneName sceneData = sceneName /\
    (forall trackId trackData,
        Scenes.sd_tracks sceneData !! trackId = Some trackData
        <-> exists c,
              Android.trackConfigs e !! trackId = Some c /\
              0 < Android.tc_volume c /\
              trackData = Scenes.mkTrackData (Android.tc_audioFile c) (Android.tc_volume c)
                                             (Android.tc_pan c)) /\
    (forall trackId trackData,
        Scenes.sd_tracks sceneData !! trackId = Some trackData ->
        0 < Scenes.td_volume trackData <= 1).
Proof.
  intros e id preferences'. subst preferences'.
  unfold Scenes.saveScene. cbn [fst snd]. fold id.
  split; [reflexivity|]. split.
  { intros other Hother. rewrite lookup_insert_ne by congruence. reflexivity. }
  eexists. split; [apply lookup_insert_eq|]. cbn [Scenes.sd_id Scenes.sd_sceneName Scenes.sd_tracks].
  split; [reflexivity|]. split; [reflexivity|].
  assert (Hcons : Invariants.android_consistent e).
  { apply android_run_consistent. split; [|reflexivity].
    intros i. cbn. rewrite !lookup_empty. exact I. }
  assert (Hrange : Android.tracks_in_range e).
  { apply AndroidFacts.android_run_in_range, AndroidFacts.android_create_in_range. }
  assert (Hids : forall i c, Android.trackConfigs e !! i = Some c -> Android.tc_id c = i).
  { intros i c Hc. destruct Hcons as [Htracks _]. specialize (Htracks i).
    rewrite Hc in Htracks. destruct (Android.players e !! i); cbn in Htracks; tauto. }
  assert (Hsaved : forall trackId trackData,
    Scenes.tracksData (Android.trackConfigs e) !! trackId = Some trackData
    <-> exists c,
          Android.trackConfigs e !! trackId = Some c /\
          0 < Android.tc_volume c /\
          trackData = Scenes.mkTrackData (Android.tc_audioFile c) (Android.tc_volume c)
                                         (Android.tc_pan c)).
  { intros trackId trackData. rewrite (tracksData_lookup _ Hids). split.
    - destruct (Android.trackConfigs e !! trackId) as [c|]; cbn; [|discriminate].
      destruct (Qltb 0 (Android.tc_volume c)) eqn:E; [|discriminate].
      intros [= <-]. apply Qltb_true in E. eauto.
    - intros (c & -> & Hvol & ->). cbn. apply Qltb_true in Hvol. rewrite Hvol. reflexivity. }
  split; [exact Hsaved|].
  intros trackId trackData Htd. apply Hsaved in Htd as (c & Hc & Hvol & ->). cbn.
  destruct (Hrange trackId c Hc) as [[_ Hv1] _]. auto.
Qed.

(** X30. A track that the bridge's [removeTrack] (or [pauseTrack]) has muted
    is left out of the next saved scene, on any Android engine whose tracks
    are consistent. *)
Theorem removed_track_is_not_saved (s : Bridge.State Android.Engine) (trackId : string)
    (player : Android.MediaPlayer) :
  Bridge.isInitialized s = true ->
  Invariants.android_consistent (Bridge.native s) ->
  Android.players (Bridge.native s) !! trackId = Some player ->
  Scenes.tracksData
    (Android.trackConfigs (Bridge.native (fst (Bridge.removeTrack trackId s)))) !! trackId
  = None /\
  Scenes.tracksData
    (Android.trackConfigs (Bridge.native (fst (Bridge.pauseTrack trackId s)))) !! trackId
  = None /\
  forall other, other <> trackId ->
    Scenes.tracksData
      (Android.trackConfigs (Bridge.native (fst (Bridge.removeTrack trackId s)))) !! other
    = Scenes.tracksData (Android.trackConfigs (Bridge.native s)) !! other.
Proof.
  intros Hinit Hcons Hp.
  assert (H0 : 0 <= 0 <= 1) by lra.
  assert (Hrm : Bridge.removeTrack trackId s
                = Bridge.try_catch (Bridge.setVolume trackId 0)
                    (fun _ => Bridge.ret false) s) by reflexivity.
  assert (Hpa : Bridge.pauseTrack trackId s
                = Bridge.try_catch (Bridge.setVolume trackId 0)
                    (fun _ => Bridge.ret false) s) by reflexivity.
  rewrite Hpa, Hrm. unfold Bridge.try_catch.
  rewrite (bridge_setVolume_valid s trackId 0 Hinit H0).
  destruct (android_setVolume_present (Bridge.native s) trackId 0 player Hp)
    as (Hres & _ & Hc' & Hother & _).
  assert (Hcons' : Invariants.android_consistent
                     (fst (Android.setVolume trackId 0 (Bridge.native s)))).
  { apply (android_step_consistent (Android.SetVolume trackId 0)), Hcons. }
  destruct (Android.setVolume trackId 0 (Bridge.native s)) as [n' res].
  cbn in Hres, Hc', Hother, Hcons'. subst res. cbn [fst Bridge.native].
  assert (Hids' : forall i c, Android.trackConfigs n' !! i = Some c -> Android.tc_id c = i).
  { intros i c Hc. destruct Hcons' as [Htracks _]. specialize (Htracks i).
    rewrite Hc in Htracks. destruct (Android.players n' !! i); cbn in Htracks; tauto. }
  assert (Hids : forall i c, Android.trackConfigs (Bridge.native s) !! i = Some c ->
                             Android.tc_id c = i).
  { intros i c Hc. destruct Hcons as [Htracks _]. specialize (Htracks i).
    rewrite Hc in Htracks.
    destruct (Android.players (Bridge.native s) !! i); cbn in Htracks; tauto. }
  assert (Hgone : Scenes.tracksData (Android.trackConfigs n') !! trackId = None).
  { rewrite (tracksData_lookup _ Hids'), Hc'.
    destruct (Android.trackConfigs (Bridge.native s) !! trackId); reflexivity. }
  split; [exact Hgone|]. split; [exact Hgone|].
  intros other Hne. rewrite (tracksData_lookup _ Hids'), (tracksData_lookup _ Hids).
  destruct (Hother other Hne) as [_ ->]. reflexivity.
Qed.

Lemma removed_track_is_not_saved_witness :
  Scenes.tracksData
    (Android.trackConfigs
       (Bridge.native (fst (Bridge.removeTrack "rain" Scenario.bridge_rain_playing))))
    !! "rain" = None.
Proof.
  refine (proj1 (removed_track_is_not_saved Scenario.bridge_rain_playing "rain"
                   (Android.mp_start (Android.mp_new 60000)) eq_refl _ eq_refl)).
  apply (android_run_consistent
           [Android.Initialize; Android.AddTrack "rain" "rain.ogg"; Android.Play]
           Scenario.android0).
  split; [|reflexivity]. intros i. cbn. rewrite !lookup_empty. exact I.
Defined.
